(** * StaticLogger: the browser-side event logger of MaxAccountsWeb

    Two variants of the logger live in the repository:
    - the batching logger ([Batch] below, [src/unnamed/part_002]) keeps a
      durable log [entries] and a queue [pendingEntries] that is sent to a
      remote endpoint in batches;
    - the simple logger ([Simple] below, [src/js/static-logger.js]) keeps
      only the durable log [logs].
    Both persist the log as JSON text under one [localStorage] key.

    The development embeds the JavaScript values the loggers handle, the
    JSON text they read and write, the storage slot, and the methods of
    both objects, and then proves the properties of the specification.

    Conventions of the embedding:
    - a method is a function from the world (the object, the storage, the
      console, the installed hooks) to a world and a completion, which is
      the returned value or the exception that reaches the caller;
    - what a method reads from the clock, the random generator and the page
      is passed to it as an [env];
    - a request sent by [fetch] settles later: [sendPendingData] returns
      the batch in flight, and [on_settled] runs its callbacks on the
      outcome, against whatever the object has become by then;
    - numbers are integers, strings are sequences of the 256 characters of
      [ascii], and values are trees (no cycles, no functions);
    - [exportLogs], which only builds a download from the log, and the
      wiring of [init] to the page's ready event are left out. *)

From Stdlib Require Import ZArith NArith Lia Ascii DecimalN DecimalFacts.
From Stdlib Require Decimal.
From stdpp Require Import base option list strings gmap.

Set Warnings "-register-all".
Local Open Scope Z_scope.

(** ** JavaScript values *)

Module JS.

(** The values that reach the loggers: what [JSON.parse] returns, plus
    [undefined].  Numbers are the integer-valued ones (screen sizes, line
    and column numbers, counters).  Objects list their own properties in
    insertion order. *)
Inductive jsval : Type :=
  | JUndefined
  | JNull
  | JBool (b : bool)
  | JNum (n : Z)
  | JStr (s : string)
  | JArr (items : list jsval)
  | JObj (props : list (string * jsval)).

(** Exceptions a statement of the loggers can raise. *)
Inductive exn : Type :=
  | TypeError
  | SyntaxError
  | SecurityError
  | QuotaExceededError.

Inductive result (A : Type) : Type :=
  | Ok (a : A)
  | Throw (e : exn).
Global Arguments Ok {A} a.
Global Arguments Throw {A} e.

(** Sequencing: a raised exception ends the statements that follow. *)
Global Instance result_bind : MBind result := fun A B k r =>
  match r with
  | Ok a => k a
  | Throw e => Throw e
  end.

(** [try { body } catch (e) { handler }] *)
Definition try_catch {A} (body : result A) (handler : exn -> A) : A :=
  match body with
  | Ok a => a
  | Throw e => handler e
  end.

(** ToBoolean *)
Definition truthy (v : jsval) : bool :=
  match v with
  | JUndefined | JNull => false
  | JBool b => b
  | JNum n => negb (n =? 0)
  | JStr s => negb (String.eqb s EmptyString)
  | JArr _ | JObj _ => true
  end.

(** [a || b] on values. *)
Definition or_else (a b : jsval) : jsval := if truthy a then a else b.

(** A string-or-null, as [localStorage.getItem] and the configuration hold. *)
Definition truthy_str (o : option string) : bool :=
  match o with
  | Some s => negb (String.eqb s EmptyString)
  | None => false
  end.

Definition of_opt_str (o : option string) : jsval :=
  match o with
  | Some s => JStr s
  | None => JNull
  end.

Fixpoint lookup_prop (k : string) (props : list (string * jsval)) : option jsval :=
  match props with
  | [] => None
  | (k', v) :: rest => if String.eqb k k' then Some v else lookup_prop k rest
  end.

(** [v.k] for a data property name [k] (one that no built-in prototype
    defines, such as [level] or [success]): a TypeError on [undefined] and
    [null], the own property of an object, [undefined] elsewhere. *)
Definition get_prop (v : jsval) (k : string) : result jsval :=
  match v with
  | JUndefined | JNull => Throw TypeError
  | JObj props => Ok (default JUndefined (lookup_prop k props))
  | _ => Ok JUndefined
  end.

(** [obj[k] = v] on the property list: an existing key keeps its place. *)
Fixpoint set_prop (k : string) (v : jsval) (props : list (string * jsval))
  : list (string * jsval) :=
  match props with
  | [] => [(k, v)]
  | (k', v') :: rest =>
      if String.eqb k k' then (k', v) :: rest else (k', v') :: set_prop k v rest
  end.

(** [a === b] where one side is a primitive.  Arrays and objects compare by
    reference, which this value model does not carry: they are never equal
    to a primitive, and two of them are not compared here. *)
Definition strict_eq (a b : jsval) : bool :=
  match a, b with
  | JUndefined, JUndefined => true
  | JNull, JNull => true
  | JBool x, JBool y => Bool.eqb x y
  | JNum x, JNum y => x =? y
  | JStr x, JStr y => String.eqb x y
  | _, _ => false
  end.

Definition is_primitive (v : jsval) : bool :=
  match v with
  | JArr _ | JObj _ => false
  | _ => true
  end.

(** [arr.push(x)]: a TypeError when the receiver has no such method. *)
Definition push (arr x : jsval) : result jsval :=
  match arr with
  | JArr items => Ok (JArr (items ++ [x]))
  | _ => Throw TypeError
  end.

(** [items.slice(-n)]: the last [n] items. *)
Definition slice_last {A} (n : nat) (items : list A) : list A :=
  drop (length items - n) items.

(** [items.splice(0, n)]: the removed front and what stays; [n] is clamped
    to [0 .. length]. *)
Definition splice_front {A} (n : Z) (items : list A) : list A * list A :=
  (take (Z.to_nat n) items, drop (Z.to_nat n) items).

(** [s.substring(from, to)] for [0 <= from <= to]. *)
Definition substring (from to : nat) (s : string) : string :=
  String.substring from (to - from) s.

(** Digits of [Number.prototype.toString(36)] for a non-negative integer. *)
Definition digit36 (d : Z) : ascii :=
  if d <? 10 then ascii_of_N (Z.to_N (48 + d)) else ascii_of_N (Z.to_N (87 + d)).

Fixpoint to_base36_pos (fuel : nat) (n : Z) (acc : string) : string :=
  match fuel with
  | O => acc
  | S fuel' =>
      let acc' := String (digit36 (n mod 36)) acc in
      if n / 36 =? 0 then acc' else to_base36_pos fuel' (n / 36) acc'
  end.

Definition to_base36 (n : Z) : string :=
  if n <? 0
  then String "-" (to_base36_pos (S (Z.to_nat (Z.log2 (- n)))) (- n) EmptyString)
  else to_base36_pos (S (Z.to_nat (Z.log2 n))) n EmptyString.

End JS.
Export JS.


(** ** JSON text *)

Module JSON.

Definition dquote : ascii := "034"%char.
Definition backslash : ascii := "092"%char.

(** [prepend p k] writes the text [p] in front of [k].  The serializer is
    written in this style throughout: every function takes the text that
    follows what it writes. *)
Fixpoint prepend (p k : string) : string :=
  match p with
  | EmptyString => k
  | String c p' => String c (prepend p' k)
  end.

(** *** JSON.stringify *)

Fixpoint digits_to (u : Decimal.uint) (k : string) : string :=
  match u with
  | Decimal.Nil => k
  | Decimal.D0 u' => String "0" (digits_to u' k)
  | Decimal.D1 u' => String "1" (digits_to u' k)
  | Decimal.D2 u' => String "2" (digits_to u' k)
  | Decimal.D3 u' => String "3" (digits_to u' k)
  | Decimal.D4 u' => String "4" (digits_to u' k)
  | Decimal.D5 u' => String "5" (digits_to u' k)
  | Decimal.D6 u' => String "6" (digits_to u' k)
  | Decimal.D7 u' => String "7" (digits_to u' k)
  | Decimal.D8 u' => String "8" (digits_to u' k)
  | Decimal.D9 u' => String "9" (digits_to u' k)
  end.

(** Number::toString for an integer-valued number. *)
Definition number_to (n : Z) (k : string) : string :=
  if n <? 0
  then String "-" (digits_to (N.to_uint (Z.abs_N n)) k)
  else digits_to (N.to_uint (Z.abs_N n)) k.

Definition hex_digit (d : N) : ascii :=
  if (d <? 10)%N then ascii_of_N (48 + d) else ascii_of_N (87 + d).

(** QuoteJSONString, one code unit: the two-character escapes, [\u00xx]
    for the other control characters, the character itself otherwise. *)
Definition quote_char_to (c : ascii) (k : string) : string :=
  let n := N_of_ascii c in
  if (n =? 34)%N then String backslash (String dquote k)
  else if (n =? 92)%N then String backslash (String backslash k)
  else if (n =? 8)%N then String backslash (String "b" k)
  else if (n =? 9)%N then String backslash (String "t" k)
  else if (n =? 10)%N then String backslash (String "n" k)
  else if (n =? 12)%N then String backslash (String "f" k)
  else if (n =? 13)%N then String backslash (String "r" k)
  else if (n <? 32)%N
       then String backslash (String "u" (String "0" (String "0"
              (String (hex_digit (n / 16)) (String (hex_digit (n mod 16)) k)))))
  else String c k.

Fixpoint quote_body_to (s : string) (k : string) : string :=
  match s with
  | EmptyString => k
  | String c s' => quote_char_to c (quote_body_to s' k)
  end.

Definition quote_to (s : string) (k : string) : string :=
  String dquote (quote_body_to s (String dquote k)).

(** SerializeJSONProperty yields [undefined] for [undefined]: such an
    array element is written as [null], such an object member is left out. *)
Definition serializable (v : jsval) : bool :=
  match v with
  | JUndefined => false
  | _ => true
  end.

(** SerializeJSONArray, after the opening bracket. *)
Definition elements_to (pr : jsval -> string -> string)
  : bool -> list jsval -> string -> string :=
  fix go (first : bool) (items : list jsval) (k : string) : string :=
    match items with
    | [] => String "]" k
    | x :: rest =>
        let body := pr x (go false rest k) in
        if first then body else String "," body
    end.

(** SerializeJSONObject, after the opening brace. *)
Definition members_to (pr : jsval -> string -> string)
  : bool -> list (string * jsval) -> string -> string :=
  fix go (first : bool) (props : list (string * jsval)) (k : string) : string :=
    match props with
    | [] => String "}" k
    | (key, x) :: rest =>
        if serializable x
        then let body := quote_to key (String ":" (pr x (go false rest k))) in
             if first then body else String "," body
        else go first rest k
    end.

Fixpoint print_to (v : jsval) (k : string) : string :=
  match v with
  | JUndefined => prepend "null" k
  | JNull => prepend "null" k
  | JBool true => prepend "true" k
  | JBool false => prepend "false" k
  | JNum n => number_to n k
  | JStr s => quote_to s k
  | JArr items => String "[" (elements_to print_to true items k)
  | JObj props => String "{" (members_to print_to true props k)
  end.

(** [JSON.stringify(v)]: [None] stands for the result [undefined]. *)
Definition stringify (v : jsval) : option string :=
  if serializable v then Some (print_to v EmptyString) else None.

(** *** JSON.parse *)

Definition is_ws (c : ascii) : bool :=
  let n := N_of_ascii c in
  (n =? 32)%N || (n =? 9)%N || (n =? 10)%N || (n =? 13)%N.

Fixpoint skip_ws (s : string) : string :=
  match s with
  | String c r => if is_ws c then skip_ws r else s
  | EmptyString => EmptyString
  end.

Fixpoint strip_prefix (p s : string) : option string :=
  match p, s with
  | EmptyString, _ => Some s
  | String a p', String b s' => if Ascii.eqb a b then strip_prefix p' s' else None
  | String _ _, EmptyString => None
  end.

Definition digit_of (c : ascii) : option (Decimal.uint -> Decimal.uint) :=
  let n := N_of_ascii c in
  if (n =? 48)%N then Some Decimal.D0
  else if (n =? 49)%N then Some Decimal.D1
  else if (n =? 50)%N then Some Decimal.D2
  else if (n =? 51)%N then Some Decimal.D3
  else if (n =? 52)%N then Some Decimal.D4
  else if (n =? 53)%N then Some Decimal.D5
  else if (n =? 54)%N then Some Decimal.D6
  else if (n =? 55)%N then Some Decimal.D7
  else if (n =? 56)%N then Some Decimal.D8
  else if (n =? 57)%N then Some Decimal.D9
  else None.

Fixpoint read_digits (s : string) : Decimal.uint * string :=
  match s with
  | String c r =>
      match digit_of c with
      | Some d => let '(u, rest) := read_digits r in (d u, rest)
      | None => (Decimal.Nil, s)
      end
  | EmptyString => (Decimal.Nil, EmptyString)
  end.

(** The integer part of the JSON number grammar: [0], or a digit string
    that does not begin with [0]. *)
Definition canonical_uint (u : Decimal.uint) : bool :=
  match u with
  | Decimal.Nil => false
  | Decimal.D0 Decimal.Nil => true
  | Decimal.D0 _ => false
  | _ => true
  end.

(** A fraction or an exponent may follow the integer part; the number it
    denotes is then outside the integer-valued numbers of [jsval], and the
    literal is not accepted. *)
Definition starts_fraction (s : string) : bool :=
  match s with
  | String c _ =>
      let n := N_of_ascii c in (n =? 46)%N || (n =? 101)%N || (n =? 69)%N
  | EmptyString => false
  end.

Definition parse_unsigned (s : string) : option (N * string) :=
  let '(u, rest) := read_digits s in
  if canonical_uint u && negb (starts_fraction rest)
  then Some (N.of_uint u, rest)
  else None.

Definition parse_number (s : string) : option (Z * string) :=
  match s with
  | String c r =>
      if Ascii.eqb c "-"
      then '(n, rest) ← parse_unsigned r; Some (- Z.of_N n, rest)
      else '(n, rest) ← parse_unsigned s; Some (Z.of_N n, rest)
  | EmptyString => None
  end.

Definition hex_value (c : ascii) : option N :=
  let n := N_of_ascii c in
  if (48 <=? n)%N && (n <=? 57)%N then Some (n - 48)%N
  else if (97 <=? n)%N && (n <=? 102)%N then Some (n - 87)%N
  else if (65 <=? n)%N && (n <=? 70)%N then Some (n - 55)%N
  else None.

(** The code unit of [\uXXXX]; code units above 255 are outside the
    alphabet of [string] and the escape is not accepted. *)
Definition unicode_escape (h1 h2 h3 h4 : ascii) : option ascii :=
  a ← hex_value h1; b ← hex_value h2; c ← hex_value h3; d ← hex_value h4;
  if ((a =? 0) && (b =? 0))%N then Some (ascii_of_N (16 * c + d)) else None.

Definition simple_escape (e : ascii) : option ascii :=
  let n := N_of_ascii e in
  if (n =? 34)%N then Some dquote
  else if (n =? 92)%N then Some backslash
  else if (n =? 47)%N then Some "/"%char
  else if (n =? 98)%N then Some "008"%char
  else if (n =? 102)%N then Some "012"%char
  else if (n =? 110)%N then Some "010"%char
  else if (n =? 114)%N then Some "013"%char
  else if (n =? 116)%N then Some "009"%char
  else None.

(** The characters of a string literal, after its opening quote. *)
Fixpoint parse_chars (s : string) : option (string * string) :=
  match s with
  | EmptyString => None
  | String c r =>
      if (N_of_ascii c =? 34)%N then Some (EmptyString, r)
      else if (N_of_ascii c =? 92)%N then
        match r with
        | String e r1 =>
            if (N_of_ascii e =? 117)%N then
              match r1 with
              | String h1 (String h2 (String h3 (String h4 r2))) =>
                  match unicode_escape h1 h2 h3 h4 with
                  | Some x =>
                      match parse_chars r2 with
                      | Some (str, rest) => Some (String x str, rest)
                      | None => None
                      end
                  | None => None
                  end
              | _ => None
              end
            else
              match simple_escape e with
              | Some x =>
                  match parse_chars r1 with
                  | Some (str, rest) => Some (String x str, rest)
                  | None => None
                  end
              | None => None
              end
        | EmptyString => None
        end
      else if (N_of_ascii c <? 32)%N then None
      else
        match parse_chars r with
        | Some (str, rest) => Some (String c str, rest)
        | None => None
        end
  end.

(** The recursive-descent parser, one step of each of its three functions:
    [value_step] reads a value, [elements_step] the elements of an array
    after its opening bracket, [members_step] the members of an object
    after its opening brace.  Each takes the functions it calls for the
    nested parts. *)
Definition value_step
    (elements : string -> option (list jsval * string))
    (members : list (string * jsval) -> string
               -> option (list (string * jsval) * string))
    (s : string) : option (jsval * string) :=
  match skip_ws s with
  | EmptyString => None
  | String c r =>
      let n := N_of_ascii c in
      if (n =? 110)%N then rest ← strip_prefix "ull" r; Some (JNull, rest)
      else if (n =? 116)%N then rest ← strip_prefix "rue" r; Some (JBool true, rest)
      else if (n =? 102)%N then rest ← strip_prefix "alse" r; Some (JBool false, rest)
      else if (n =? 34)%N then '(str, rest) ← parse_chars r; Some (JStr str, rest)
      else if (n =? 91)%N then
        match skip_ws r with
        | String c' r' =>
            if (N_of_ascii c' =? 93)%N then Some (JArr [], r')
            else '(items, rest) ← elements r; Some (JArr items, rest)
        | EmptyString => None
        end
      else if (n =? 123)%N then
        match skip_ws r with
        | String c' r' =>
            if (N_of_ascii c' =? 125)%N then Some (JObj [], r')
            else '(props, rest) ← members [] r; Some (JObj props, rest)
        | EmptyString => None
        end
      else '(z, rest) ← parse_number (String c r); Some (JNum z, rest)
  end.

Definition elements_step
    (value : string -> option (jsval * string))
    (elements : string -> option (list jsval * string))
    (s : string) : option (list jsval * string) :=
  '(v, r) ← value s;
  match skip_ws r with
  | String c r' =>
      if (N_of_ascii c =? 44)%N
      then '(vs, rest) ← elements r'; Some (v :: vs, rest)
      else if (N_of_ascii c =? 93)%N then Some ([v], r')
      else None
  | EmptyString => None
  end.

Definition members_step
    (value : string -> option (jsval * string))
    (members : list (string * jsval) -> string
               -> option (list (string * jsval) * string))
    (acc : list (string * jsval)) (s : string)
  : option (list (string * jsval) * string) :=
  match skip_ws s with
  | String q r0 =>
      if (N_of_ascii q =? 34)%N then
        '(key, r1) ← parse_chars r0;
        match skip_ws r1 with
        | String colon r2 =>
            if (N_of_ascii colon =? 58)%N then
              '(v, r3) ← value r2;
              let acc' := set_prop key v acc in
              match skip_ws r3 with
              | String c r' =>
                  if (N_of_ascii c =? 44)%N then members acc' r'
                  else if (N_of_ascii c =? 125)%N then Some (acc', r')
                  else None
              | EmptyString => None
              end
            else None
        | EmptyString => None
        end
      else None
  | EmptyString => None
  end.

(** [fuel] bounds the number of nested calls; [parse] below supplies more
    than any text can use. *)
Fixpoint parse_value (fuel : nat) (s : string) : option (jsval * string) :=
  match fuel with
  | O => None
  | S fuel' => value_step (parse_elements fuel') (parse_members fuel') s
  end
with parse_elements (fuel : nat) (s : string) : option (list jsval * string) :=
  match fuel with
  | O => None
  | S fuel' => elements_step (parse_value fuel') (parse_elements fuel') s
  end
with parse_members (fuel : nat) (acc : list (string * jsval)) (s : string)
  : option (list (string * jsval) * string) :=
  match fuel with
  | O => None
  | S fuel' => members_step (parse_value fuel') (parse_members fuel') acc s
  end.

(** [JSON.parse(text)]: [None] stands for the SyntaxError. *)
Definition parse (text : string) : option jsval :=
  '(v, rest) ← parse_value (2 * String.length text + 2) text;
  match skip_ws rest with
  | EmptyString => Some v
  | String _ _ => None
  end.

End JSON.

(** ** The browser: storage slot, clock, page and network *)

Module Web.

(** [localStorage]: the stored items, whether every access is refused
    (storage disabled, private browsing), and the quota on a written
    value, if any. *)
Record storage : Type := {
  items : gmap string string;
  blocked : bool;
  capacity : option nat
}.

Definition getItem (st : storage) (key : string) : result (option string) :=
  if blocked st then Throw SecurityError else Ok (items st !! key).

Definition setItem (st : storage) (key value : string) : result storage :=
  if blocked st then Throw SecurityError
  else match capacity st with
       | Some c =>
           if (c <? String.length value)%nat then Throw QuotaExceededError
           else Ok {| items := <[key := value]> (items st);
                      blocked := blocked st; capacity := capacity st |}
       | None =>
           Ok {| items := <[key := value]> (items st);
                 blocked := blocked st; capacity := capacity st |}
       end.

Definition removeItem (st : storage) (key : string) : result storage :=
  if blocked st then Throw SecurityError
  else Ok {| items := delete key (items st);
             blocked := blocked st; capacity := capacity st |}.

(** What a method reads from its surroundings when it runs: [Date.now()],
    [Math.random().toString(36)], [new Date().toISOString()], and the
    fields of [window.location], [document], [window.screen] and
    [navigator] the loggers use. *)
Record env : Type := {
  now : Z;
  random36 : string;
  isoTime : string;
  pathname : string;
  hostname : string;
  title : string;
  referrer : string;
  screenWidth : Z;
  screenHeight : Z;
  userAgent : string
}.

(** How a [fetch] ends: it rejects, or it resolves with a response whose
    body text [response.json()] parses; [jsonMessage] is the message of
    the SyntaxError the engine raises when the body is not JSON. *)
Inductive fetch_outcome : Type :=
  | NetworkFailure (message : string)
  | Responded (text : string) (jsonMessage : string).

Record request : Type := {
  url : string;
  method : string;
  headers : list (string * string);
  body : string;
  keepalive : bool
}.

(** String(v) *)
Fixpoint to_string (v : jsval) : string :=
  match v with
  | JUndefined => "undefined"
  | JNull => "null"
  | JBool true => "true"
  | JBool false => "false"
  | JNum n => JSON.number_to n EmptyString
  | JStr s => s
  | JArr items =>
      (fix join (first : bool) (l : list jsval) : string :=
         match l with
         | [] => EmptyString
         | x :: rest =>
             let piece := match x with
                          | JUndefined | JNull => EmptyString
                          | _ => to_string x
                          end in
             if first then piece +:+ join false rest
             else "," +:+ piece +:+ join false rest
         end) true items
  | JObj _ => "[object Object]"
  end.

Definition exn_name (e : exn) : string :=
  match e with
  | TypeError => "TypeError"
  | SyntaxError => "SyntaxError"
  | SecurityError => "SecurityError"
  | QuotaExceededError => "QuotaExceededError"
  end.

End Web.
Export Web.

(** ** The batching logger ([src/unnamed/part_002]) *)

Module Batch.

Definition STORAGE_KEY : string := "static_site_logs".
Definition MAX_ENTRIES : nat := 100.

(** The configuration [config], once [window.StaticLoggerConfig] is merged
    over the defaults. *)
Record config : Type := {
  apiEndpoint : option string;
  apiKey : option string;
  siteId : jsval;
  trackPageViews : bool;
  batchInterval : Z;
  maxBatchSize : Z;
  debugMode : bool
}.

Definition defaultConfig : config := {|
  apiEndpoint := None;
  apiKey := None;
  siteId := JNull;
  trackPageViews := true;
  batchInterval := 30000;
  maxBatchSize := 20;
  debugMode := false
|}.

(** [config] as the value [debug] prints. *)
Definition config_value (cfg : config) : jsval :=
  JObj [("apiEndpoint", of_opt_str (apiEndpoint cfg));
        ("apiKey", of_opt_str (apiKey cfg));
        ("siteId", siteId cfg);
        ("trackPageViews", JBool (trackPageViews cfg));
        ("batchInterval", JNum (batchInterval cfg));
        ("maxBatchSize", JNum (maxBatchSize cfg));
        ("debugMode", JBool (debugMode cfg))].

(** The [StaticLogger] object together with what it acts on: the storage,
    the console, the interval timer it owns and the hooks it installs. *)
Record world : Type := {
  entries : jsval;
  pendingEntries : list jsval;
  batchTimer : option Z;
  pageStartTime : Z;
  localStorage : storage;
  console : list (list jsval);
  hooks : list string
}.

Definition set_entries (w : world) (v : jsval) : world :=
  {| entries := v; pendingEntries := pendingEntries w;
     batchTimer := batchTimer w; pageStartTime := pageStartTime w;
     localStorage := localStorage w; console := console w; hooks := hooks w |}.

Definition set_pending (w : world) (q : list jsval) : world :=
  {| entries := entries w; pendingEntries := q;
     batchTimer := batchTimer w; pageStartTime := pageStartTime w;
     localStorage := localStorage w; console := console w; hooks := hooks w |}.

Definition set_timer (w : world) (t : option Z) : world :=
  {| entries := entries w; pendingEntries := pendingEntries w;
     batchTimer := t; pageStartTime := pageStartTime w;
     localStorage := localStorage w; console := console w; hooks := hooks w |}.

Definition set_storage (w : world) (st : storage) : world :=
  {| entries := entries w; pendingEntries := pendingEntries w;
     batchTimer := batchTimer w; pageStartTime := pageStartTime w;
     localStorage := st; console := console w; hooks := hooks w |}.

Definition print_console (w : world) (line : list jsval) : world :=
  {| entries := entries w; pendingEntries := pendingEntries w;
     batchTimer := batchTimer w; pageStartTime := pageStartTime w;
     localStorage := localStorage w; console := console w ++ [line];
     hooks := hooks w |}.

Definition install_hook (w : world) (name : string) : world :=
  {| entries := entries w; pendingEntries := pendingEntries w;
     batchTimer := batchTimer w; pageStartTime := pageStartTime w;
     localStorage := localStorage w; console := console w;
     hooks := hooks w ++ [name] |}.

(** The object as the script creates it, on a page whose storage is [st]. *)
Definition fresh (e : env) (st : storage) : world :=
  {| entries := JArr []; pendingEntries := []; batchTimer := None;
     pageStartTime := now e; localStorage := st; console := []; hooks := [] |}.

Definition debug (cfg : config) (e : env) (message : string) (data : jsval)
    (w : world) : world :=
  if debugMode cfg || String.eqb (hostname e) "localhost"
  then print_console w
         [JStr "[StaticLogger]"; JStr message; or_else data (JStr EmptyString)]
  else w.

(** [loadFromStorage]: whatever the [try] block raises, [entries] becomes
    the empty array. *)
Definition loadFromStorage (w : world) : world :=
  set_entries w
    (try_catch
       (stored ← getItem (localStorage w) STORAGE_KEY;
        if truthy_str stored
        then match JSON.parse (default EmptyString stored) with
             | Some v => Ok v
             | None => Throw SyntaxError
             end
        else Ok (JArr []))
       (fun _ => JArr [])).

(** [saveToStorage]: the trim is assigned before the write is attempted,
    and an exception of the write is dropped by the [catch].  Every call
    in this file follows a successful [push], so [entries] is an array
    there; on another value the model leaves the world as it is. *)
Definition saveToStorage (w : world) : world :=
  match entries w with
  | JArr items =>
      let kept := if (MAX_ENTRIES <? length items)%nat
                  then slice_last MAX_ENTRIES items else items in
      let w1 := set_entries w (JArr kept) in
      try_catch
        (st ← setItem (localStorage w1) STORAGE_KEY
                 (JSON.print_to (JArr kept) EmptyString);
         Ok (set_storage w1 st))
        (fun _ => w1)
  | _ => w
  end.

Definition generateId (e : env) : string :=
  to_base36 (now e) +:+ substring 2 8 (random36 e).

Definition pageview_entry (cfg : config) (e : env) : jsval :=
  JObj [("id", JStr (generateId e));
        ("type", JStr "pageview");
        ("timestamp", JStr (isoTime e));
        ("siteId", siteId cfg);
        ("path", JStr (pathname e));
        ("title", JStr (title e));
        ("referrer", or_else (JStr (referrer e)) JNull);
        ("screenWidth", JNum (screenWidth e));
        ("screenHeight", JNum (screenHeight e))].

(** A method call ends in a world and a completion: the returned value,
    or the exception that propagates to the caller.  What the method
    assigned before it raised stays assigned. *)
Definition completion : Type := world * result jsval.

Definition and_then (c : completion) (k : world -> jsval -> completion)
  : completion :=
  match c with
  | (w, Ok v) => k w v
  | (w, Throw x) => (w, Throw x)
  end.

Definition trackPageView (cfg : config) (e : env) (w : world) : completion :=
  let entry := pageview_entry cfg e in
  match push (entries w) entry with
  | Throw x => (w, Throw x)
  | Ok es =>
      let w1 := set_entries w es in
      let w2 := set_pending w1 (pendingEntries w1 ++ [entry]) in
      let w3 := saveToStorage w2 in
      (debug cfg e "Page view tracked" (JStr (pathname e)) w3, Ok JUndefined)
  end.

Definition error_entry (cfg : config) (e : env) (message data : jsval) : jsval :=
  JObj [("id", JStr (generateId e));
        ("type", JStr "error");
        ("timestamp", JStr (isoTime e));
        ("siteId", siteId cfg);
        ("level", JStr "ERROR");
        ("message", message);
        ("data", or_else data JNull);
        ("path", JStr (pathname e))].

Definition logError (cfg : config) (e : env) (message data : jsval) (w : world)
  : completion :=
  let entry := error_entry cfg e message data in
  match push (entries w) entry with
  | Throw x => (w, Throw x)
  | Ok es =>
      let w1 := set_entries w es in
      let w2 := set_pending w1 (pendingEntries w1 ++ [entry]) in
      let w3 := saveToStorage w2 in
      (debug cfg e "Error logged" message w3, Ok entry)
  end.

(** [error && error.stack ? error.stack.substring(0, 500) : null] *)
Definition stack_of (error : jsval) : result jsval :=
  if truthy error then
    stack ← get_prop error "stack";
    if truthy stack then
      match stack with
      | JStr s => Ok (JStr (substring 0 500 s))
      | _ => Throw TypeError
      end
    else Ok JNull
  else Ok JNull.

(** The [window.onerror] hook; it returns [false]. *)
Definition handleError (cfg : config) (e : env)
    (message : string) (source lineno colno error : jsval) (w : world)
  : completion :=
  match stack_of error with
  | Throw x => (w, Throw x)
  | Ok stack =>
      and_then
        (logError cfg e (JStr ("JavaScript Error: " +:+ message))
           (JObj [("source", source); ("line", lineno);
                  ("column", colno); ("stack", stack)]) w)
        (fun w' _ => (w', Ok (JBool false)))
  end.

(** The [window.onunhandledrejection] hook, on [event.reason]. *)
Definition handlePromiseRejection (cfg : config) (e : env) (reason : jsval)
    (w : world) : completion :=
  match stack_of reason with
  | Throw x => (w, Throw x)
  | Ok stack =>
      and_then
        (logError cfg e (JStr "Unhandled Promise Rejection")
           (JObj [("reason", JStr (to_string reason)); ("stack", stack)]) w)
        (fun w' _ => (w', Ok JUndefined))
  end.

Definition startBatchTimer (cfg : config) (w : world) : world :=
  set_timer w (Some (batchInterval cfg)).

(** [sendToApi] up to the call of [fetch]: the request it issues. *)
Definition sendToApi (cfg : config) (endpoint : string) (payload : jsval)
  : request :=
  {| url := endpoint;
     method := "POST";
     headers := ("Content-Type", "application/json")
                :: (if truthy_str (apiKey cfg)
                    then [("X-API-Key", default EmptyString (apiKey cfg))]
                    else []);
     body := JSON.print_to payload EmptyString;
     keepalive := true |}.

(** The value the promise of [sendToApi] resolves to: the parsed body, or
    the object its [catch] builds from a rejection of [fetch] or of
    [response.json()]. *)
Definition api_result (o : fetch_outcome) : jsval :=
  match o with
  | NetworkFailure message =>
      JObj [("success", JBool false); ("error", JStr message)]
  | Responded text jsonMessage =>
      match JSON.parse text with
      | Some v => v
      | None => JObj [("success", JBool false); ("error", JStr jsonMessage)]
      end
  end.

(** A batch that left the queue and whose request is on its way. *)
Record in_flight : Type := {
  sent : request;
  entriesToSend : list jsval
}.

(** [sendPendingData], the synchronous part: up to the call of
    [sendToApi].  [None] is the early [return]. *)
Definition sendPendingData (cfg : config) (e : env) (w : world)
  : world * option in_flight :=
  if negb (truthy_str (apiEndpoint cfg)) || (length (pendingEntries w) =? 0)%nat
  then (w, None)
  else
    let '(batch, rest) := splice_front (maxBatchSize cfg) (pendingEntries w) in
    let w1 := set_pending w rest in
    let payload := JObj [("siteId", siteId cfg);
                         ("apiKey", of_opt_str (apiKey cfg));
                         ("entries", JArr batch)] in
    let w2 := debug cfg e "Sending batch"
                (JObj [("count", JNum (Z.of_nat (length batch)))]) w1 in
    (w2, Some {| sent := sendToApi cfg (default EmptyString (apiEndpoint cfg)) payload;
                 entriesToSend := batch |}).

Definition requeue (batch : list jsval) (w : world) : world :=
  set_pending w (batch ++ pendingEntries w).

(** [sendPendingData], the callbacks: [then] re-queues when
    [response.success] is falsy, and [catch] re-queues when [then] raised. *)
Definition on_settled (batch : list jsval) (o : fetch_outcome) (w : world) : world :=
  try_catch
    (success ← get_prop (api_result o) "success";
     Ok (if negb (truthy success) then requeue batch w else w))
    (fun _ => requeue batch w).

Definition flush (cfg : config) (e : env) (w : world) : world * option in_flight :=
  sendPendingData cfg e w.

Definition log_entry (cfg : config) (e : env) (message data : jsval) : jsval :=
  JObj [("id", JStr (generateId e));
        ("type", JStr "log");
        ("timestamp", JStr (isoTime e));
        ("siteId", siteId cfg);
        ("level", JStr "INFO");
        ("message", message);
        ("data", or_else data JNull);
        ("path", JStr (pathname e))].

Definition log (cfg : config) (e : env) (message data : jsval) (w : world)
  : completion :=
  let entry := log_entry cfg e message data in
  match push (entries w) entry with
  | Throw x => (w, Throw x)
  | Ok es =>
      let w1 := set_entries w es in
      let w2 := set_pending w1 (pendingEntries w1 ++ [entry]) in
      let w3 := saveToStorage w2 in
      (w3, Ok entry)
  end.

(** [getEntries] declares no parameter: the arguments of a call are
    ignored. *)
Definition getEntries (args : list jsval) (w : world) : completion :=
  (w, Ok (entries w)).

(** [clear]: the two assignments, then [removeItem] outside any [try]. *)
Definition clear (w : world) : completion :=
  let w1 := set_entries w (JArr []) in
  let w2 := set_pending w1 [] in
  match removeItem (localStorage w2) STORAGE_KEY with
  | Throw x => (w2, Throw x)
  | Ok st => (set_storage w2 st, Ok JUndefined)
  end.

Definition init (cfg : config) (e : env) (w : world) : completion :=
  let w1 := loadFromStorage w in
  and_then
    (if trackPageViews cfg then trackPageView cfg e w1 else (w1, Ok JUndefined))
    (fun w2 _ =>
       let w3 := install_hook (install_hook w2 "onerror") "onunhandledrejection" in
       let w4 := if truthy_str (apiEndpoint cfg) then startBatchTimer cfg w3 else w3 in
       let w5 := install_hook w4 "beforeunload" in
       (debug cfg e "StaticLogger initialized" (config_value cfg) w5, Ok JUndefined)).

(** *** Sequences of calls on the object *)

(** The capture calls of the public interface. *)
Inductive call : Type :=
  | CallLog (message data : jsval)
  | CallLogError (message data : jsval).

Definition entry_of (cfg : config) (e : env) (c : call) : jsval :=
  match c with
  | CallLog message data => log_entry cfg e message data
  | CallLogError message data => error_entry cfg e message data
  end.

Definition capture (cfg : config) (e : env) (c : call) (w : world) : completion :=
  match c with
  | CallLog message data => log cfg e message data w
  | CallLogError message data => logError cfg e message data w
  end.

(** The entries a sequence of calls creates. *)
Definition created (cfg : config) (calls : list (env * call)) : list jsval :=
  map (fun ec => entry_of cfg ec.1 ec.2) calls.

(** The calls in order, each with the surroundings it runs in; the first
    exception ends the run. *)
Fixpoint run (cfg : config) (calls : list (env * call)) (w : world) : completion :=
  match calls with
  | [] => (w, Ok JUndefined)
  | (e, c) :: rest => and_then (capture cfg e c w) (fun w' _ => run cfg rest w')
  end.

(** Everything that can happen to the object once [init] has run: the
    public methods, the hooks, the timer and unload callbacks (both are
    [flush]), and the callbacks of a request that [sendPendingData] issued
    earlier. *)
Inductive op : Type :=
  | OpTrackPageView (e : env)
  | OpCapture (e : env) (c : call)
  | OpHandleError (e : env) (message : string) (source lineno colno error : jsval)
  | OpHandlePromiseRejection (e : env) (reason : jsval)
  | OpFlush (e : env)
  | OpSettled (batch : list jsval) (o : fetch_outcome)
  | OpGetEntries (args : list jsval)
  | OpClear.

Definition step (cfg : config) (o : op) (w : world) : completion :=
  match o with
  | OpTrackPageView e => trackPageView cfg e w
  | OpCapture e c => capture cfg e c w
  | OpHandleError e message source lineno colno error =>
      handleError cfg e message source lineno colno error w
  | OpHandlePromiseRejection e reason => handlePromiseRejection cfg e reason w
  | OpFlush e => (fst (flush cfg e w), Ok JUndefined)
  | OpSettled batch o => (on_settled batch o w, Ok JUndefined)
  | OpGetEntries args => getEntries args w
  | OpClear => clear w
  end.

End Batch.

(** ** The simple logger ([src/js/static-logger.js]) *)

Module Simple.

Definition STORAGE_KEY : string := "static_site_logs".
Definition MAX_LOGS : nat := 100.

Record world : Type := {
  logs : jsval;
  localStorage : storage;
  console : list (list jsval);
  hooks : list string
}.

Definition set_logs (w : world) (v : jsval) : world :=
  {| logs := v; localStorage := localStorage w;
     console := console w; hooks := hooks w |}.

Definition set_storage (w : world) (st : storage) : world :=
  {| logs := logs w; localStorage := st;
     console := console w; hooks := hooks w |}.

Definition print_console (w : world) (line : list jsval) : world :=
  {| logs := logs w; localStorage := localStorage w;
     console := console w ++ [line]; hooks := hooks w |}.

Definition install_hook (w : world) (name : string) : world :=
  {| logs := logs w; localStorage := localStorage w;
     console := console w; hooks := hooks w ++ [name] |}.

Definition fresh (st : storage) : world :=
  {| logs := JArr []; localStorage := st; console := []; hooks := [] |}.

Definition completion : Type := world * result jsval.

Definition and_then (c : completion) (k : world -> jsval -> completion)
  : completion :=
  match c with
  | (w, Ok v) => k w v
  | (w, Throw x) => (w, Throw x)
  end.

Definition loadLogs (w : world) : world :=
  set_logs w
    (try_catch
       (stored ← getItem (localStorage w) STORAGE_KEY;
        if truthy_str stored
        then match JSON.parse (default EmptyString stored) with
             | Some v => Ok v
             | None => Throw SyntaxError
             end
        else Ok (JArr []))
       (fun _ => JArr [])).

(** [saveLogs]: as [saveToStorage] of the batching logger, and the [catch]
    warns on the console.  It is called after a successful [push] only. *)
Definition saveLogs (w : world) : world :=
  match logs w with
  | JArr items =>
      let kept := if (MAX_LOGS <? length items)%nat
                  then slice_last MAX_LOGS items else items in
      let w1 := set_logs w (JArr kept) in
      try_catch
        (st ← setItem (localStorage w1) STORAGE_KEY
                (JSON.print_to (JArr kept) EmptyString);
         Ok (set_storage w1 st))
        (fun x => print_console w1 [JStr "Failed to save logs:"; JStr (exn_name x)])
  | _ => w
  end.

Definition log_entry (e : env) (level message data : jsval) : jsval :=
  JObj [("timestamp", JStr (isoTime e));
        ("level", level);
        ("message", message);
        ("data", or_else data JNull);
        ("page", JStr (pathname e));
        ("userAgent", JStr (substring 0 100 (userAgent e)))].

(** [log] has no [return]: the call yields [undefined]. *)
Definition log (e : env) (level message data : jsval) (w : world) : completion :=
  let entry := log_entry e level message data in
  match push (logs w) entry with
  | Throw x => (w, Throw x)
  | Ok ls =>
      let w1 := saveLogs (set_logs w ls) in
      let w2 := if String.eqb (hostname e) "localhost"
                then print_console w1
                       [JStr ("[" +:+ to_string level +:+ "] " +:+ to_string message);
                        data]
                else w1 in
      (w2, Ok JUndefined)
  end.

Definition info (e : env) (message data : jsval) (w : world) : completion :=
  and_then (log e (JStr "INFO") message data w) (fun w' _ => (w', Ok JUndefined)).

Definition warn (e : env) (message data : jsval) (w : world) : completion :=
  and_then (log e (JStr "WARN") message data w) (fun w' _ => (w', Ok JUndefined)).

Definition error (e : env) (message data : jsval) (w : world) : completion :=
  and_then (log e (JStr "ERROR") message data w) (fun w' _ => (w', Ok JUndefined)).

Definition pageview_data (e : env) : jsval :=
  JObj [("path", JStr (pathname e));
        ("referrer", or_else (JStr (referrer e)) (JStr "direct"));
        ("screenWidth", JNum (screenWidth e));
        ("screenHeight", JNum (screenHeight e))].

Definition logPageView (e : env) (w : world) : completion :=
  and_then (info e (JStr "Page View") (pageview_data e) w)
    (fun w' _ => (w', Ok JUndefined)).

(** [error?.stack] *)
Definition optional_stack (err : jsval) : jsval :=
  match get_prop err "stack" with
  | Ok v => v
  | Throw _ => JUndefined
  end.

(** The [window.onerror] hook; it returns [false]. *)
Definition logError (e : env) (message source lineno colno err : jsval)
    (w : world) : completion :=
  and_then
    (error e (JStr "JavaScript Error")
       (JObj [("message", message); ("source", source); ("line", lineno);
              ("column", colno); ("stack", optional_stack err)]) w)
    (fun w' _ => (w', Ok (JBool false))).

(** [items.filter(l => l.level === level)] *)
Fixpoint filter_level (level : jsval) (items : list jsval) : result (list jsval) :=
  match items with
  | [] => Ok []
  | l :: rest =>
      lv ← get_prop l "level";
      kept ← filter_level level rest;
      Ok (if strict_eq lv level then l :: kept else kept)
  end.

(** [getLogs(level)]; a call without argument passes [undefined]. *)
Definition getLogs (level : jsval) (w : world) : completion :=
  if truthy level then
    match logs w with
    | JArr items =>
        match filter_level level items with
        | Ok kept => (w, Ok (JArr kept))
        | Throw x => (w, Throw x)
        end
    | _ => (w, Throw TypeError)
    end
  else (w, Ok (logs w)).

Definition clearLogs (w : world) : completion :=
  let w1 := set_logs w (JArr []) in
  match removeItem (localStorage w1) STORAGE_KEY with
  | Throw x => (w1, Throw x)
  | Ok st => (set_storage w1 st, Ok JUndefined)
  end.

Definition init (e : env) (w : world) : completion :=
  and_then (logPageView e (loadLogs w))
    (fun w' _ => (install_hook w' "onerror", Ok JUndefined)).

(** The capture calls of the public interface. *)
Inductive call : Type :=
  | CallLog (level message data : jsval)
  | CallInfo (message data : jsval)
  | CallWarn (message data : jsval)
  | CallError (message data : jsval).

Definition entry_of (e : env) (c : call) : jsval :=
  match c with
  | CallLog level message data => log_entry e level message data
  | CallInfo message data => log_entry e (JStr "INFO") message data
  | CallWarn message data => log_entry e (JStr "WARN") message data
  | CallError message data => log_entry e (JStr "ERROR") message data
  end.

Definition capture (e : env) (c : call) (w : world) : completion :=
  match c with
  | CallLog level message data => log e level message data w
  | CallInfo message data => info e message data w
  | CallWarn message data => warn e message data w
  | CallError message data => error e message data w
  end.

Definition created (calls : list (env * call)) : list jsval :=
  map (fun ec => entry_of ec.1 ec.2) calls.

Fixpoint run (calls : list (env * call)) (w : world) : completion :=
  match calls with
  | [] => (w, Ok JUndefined)
  | (e, c) :: rest => and_then (capture e c w) (fun w' _ => run rest w')
  end.

End Simple.

(** ** Values that JSON text carries unchanged *)

(** [json_safe v]: no [undefined] anywhere in [v], and no object of [v]
    lists a key twice (which no object does; the property list of the
    model could). *)
Fixpoint json_safe (v : jsval) : bool :=
  match v with
  | JUndefined => false
  | JArr items => forallb json_safe items
  | JObj props =>
      forallb (fun kv => json_safe kv.2) props && bool_decide (NoDup props.*1)
  | _ => true
  end.

(** Calls of the parser that reading [v] back takes. *)
Fixpoint weight (v : jsval) : nat :=
  match v with
  | JArr items => 2 + list_sum (map weight items)
  | JObj props => 2 + list_sum (map (fun kv => weight kv.2) props)
  | _ => 1
  end.

(** What may follow a value inside a text: the end, or [,], []] or [}]. *)
Definition delimited (k : string) : bool :=
  match k with
  | EmptyString => true
  | String c _ =>
      let n := N_of_ascii c in (n =? 44)%N || (n =? 93)%N || (n =? 125)%N
  end.

(** The first character of a value: not white space and not a closing
    bracket. *)
Definition opens_value (s : string) : bool :=
  match s with
  | EmptyString => false
  | String c _ =>
      let n := N_of_ascii c in
      negb (JSON.is_ws c) && negb (n =? 93)%N && negb (n =? 125)%N
  end.

(** ** Induction on values *)

Section jsval_induction.
Variable P : jsval -> Prop.
Hypothesis Hundefined : P JUndefined.
Hypothesis Hnull : P JNull.
Hypothesis Hbool : forall b, P (JBool b).
Hypothesis Hnum : forall n, P (JNum n).
Hypothesis Hstr : forall s, P (JStr s).
Hypothesis Harr : forall items, Forall P items -> P (JArr items).
Hypothesis Hobj : forall props, Forall (fun kv => P kv.2) props -> P (JObj props).

Fixpoint jsval_nested_ind (v : jsval) : P v :=
  match v with
  | JUndefined => Hundefined
  | JNull => Hnull
  | JBool b => Hbool b
  | JNum n => Hnum n
  | JStr s => Hstr s
  | JArr items =>
      Harr items
        ((fix go (l : list jsval) : Forall P l :=
            match l with
            | [] => @List.Forall_nil _ P
            | x :: r => @List.Forall_cons _ P x r (jsval_nested_ind x) (go r)
            end) items)
  | JObj props =>
      Hobj props
        ((fix go (l : list (string * jsval)) : Forall (fun kv => P kv.2) l :=
            match l with
            | [] => @List.Forall_nil _ _
            | kv :: r =>
                @List.Forall_cons _ (fun kv => P kv.2) kv r (jsval_nested_ind kv.2) (go r)
            end) props)
  end.
End jsval_induction.

(** ** Statements about the JSON text of a value *)

(** A text that does not begin with a digit. *)
Definition no_digit (k : string) : Prop :=
  match k with
  | EmptyString => True
  | String c _ => JSON.digit_of c = None
  end.

(** [JSON.parse] reads [v] back from what [print_to] wrote, whatever
    follows it. *)
Definition reads_back (v : jsval) : Prop :=
  json_safe v = true ->
  forall fuel k, (weight v <= fuel)%nat -> delimited k = true ->
    JSON.parse_value fuel (JSON.print_to v k) = Some (v, k).

(** The text of [v] has at least [weight v] characters. *)
Definition long_enough (v : jsval) : Prop :=
  json_safe v = true ->
  forall k, (String.length k + weight v <= String.length (JSON.print_to v k))%nat.

(** ** Page loads and sample surroundings *)

(** One page load of the batching logger: the script creates the object
    and runs [init], and the page then makes its calls. *)
Definition batch_page_load (cfg : Batch.config) (e : env) (st : storage)
    (calls : list (env * Batch.call)) : Batch.completion :=
  Batch.and_then (Batch.init cfg e (Batch.fresh e st))
    (fun w _ => Batch.run cfg calls w).

Definition simple_page_load (e : env) (st : storage)
    (calls : list (env * Simple.call)) : Simple.completion :=
  Simple.and_then (Simple.init e (Simple.fresh st))
    (fun w _ => Simple.run calls w).

(** What the object finds in storage when the script starts. *)
Definition batch_loaded (e : env) (st : storage) : jsval :=
  Batch.entries (Batch.loadFromStorage (Batch.fresh e st)).

Definition simple_loaded (st : storage) : jsval :=
  Simple.logs (Simple.loadLogs (Simple.fresh st)).

Definition sample_env : env := {|
  now := 1730000000000;
  random36 := "0.4fzyo82mvyr";
  isoTime := "2024-10-27T03:33:20.000Z";
  pathname := "/services";
  hostname := "example.org";
  title := "Services";
  referrer := EmptyString;
  screenWidth := 1920;
  screenHeight := 1080;
  userAgent := "Mozilla/5.0"
|}.

Definition empty_storage : storage :=
  {| items := ∅; blocked := false; capacity := None |}.

(** Storage that refuses every access. *)
Definition disabled_storage : storage :=
  {| items := ∅; blocked := true; capacity := None |}.

(** Storage that can be read but has no room left. *)
Definition full_storage : storage :=
  {| items := ∅; blocked := false; capacity := Some O |}.

Definition storage_holding (text : string) : storage :=
  {| items := {[ Batch.STORAGE_KEY := text ]}; blocked := false; capacity := None |}.

(** The storage a first visit leaves behind: one page view, no call. *)
Definition storage_after_visit : storage :=
  Batch.localStorage (batch_page_load Batch.defaultConfig sample_env empty_storage []).1.

(** *** The log length as the specification states it

    After [N] calls the log holds [N + 1] entries, at most 100. *)
Definition length_is_calls_plus_one (cfg : Batch.config) (e : env) (st : storage)
    (calls : list (env * Batch.call)) : Prop :=
  forall w r, batch_page_load cfg e st calls = (w, r) ->
    exists l, Batch.entries w = JArr l /\
              length l = Nat.min (length calls + 1) 100.

(** *** The log length on the code

    The log is the last 100 of: what was loaded, the page view, the
    entries of the calls. *)
Definition batch_log_after (cfg : Batch.config) (e : env) (st : storage)
    (calls : list (env * Batch.call)) (l0 : list jsval) : Prop :=
  exists w,
    batch_page_load cfg e st calls = (w, Ok JUndefined) /\
    Batch.entries w =
      JArr (slice_last 100 (l0 ++ Batch.pageview_entry cfg e :: Batch.created cfg calls)) /\
    length (slice_last 100 (l0 ++ Batch.pageview_entry cfg e :: Batch.created cfg calls))
      = Nat.min (length l0 + 1 + length calls) 100.

Definition simple_log_after (e : env) (st : storage)
    (calls : list (env * Simple.call)) (l0 : list jsval) : Prop :=
  let pageview :=
    Simple.log_entry e (JStr "INFO") (JStr "Page View") (Simple.pageview_data e) in
  exists w,
    simple_page_load e st calls = (w, Ok JUndefined) /\
    Simple.logs w = JArr (slice_last 100 (l0 ++ pageview :: Simple.created calls)) /\
    length (slice_last 100 (l0 ++ pageview :: Simple.created calls))
      = Nat.min (length l0 + 1 + length calls) 100.

(** ** Transmission outcomes, as the specification names them *)

(** A parsed response reports success when it is an object whose
    [success] member is truthy. *)
Definition reports_success (v : jsval) : bool :=
  match v with
  | JObj props => truthy (default JUndefined (lookup_prop "success" props))
  | _ => false
  end.

(** A failed transmission: the network failed, the body is malformed, or
    the response does not report success. *)
Inductive failed : fetch_outcome -> Prop :=
  | failed_network message :
      failed (NetworkFailure message)
  | failed_malformed text message :
      JSON.parse text = None -> failed (Responded text message)
  | failed_response text message v :
      JSON.parse text = Some v -> reports_success v = false ->
      failed (Responded text message).

(** A logger configured with an endpoint. *)
Definition sending_config : Batch.config := {|
  Batch.apiEndpoint := Some "https://logs.example.org/collect";
  Batch.apiKey := Some "k-123";
  Batch.siteId := JStr "site-1";
  Batch.trackPageViews := true;
  Batch.batchInterval := 30000;
  Batch.maxBatchSize := 2;
  Batch.debugMode := false
|}.

(** The object after a first page load that made three calls. *)
Definition busy_world : Batch.world :=
  (batch_page_load sending_config sample_env empty_storage
     [(sample_env, Batch.CallLog (JStr "one") JNull);
      (sample_env, Batch.CallLogError (JStr "two") JNull);
      (sample_env, Batch.CallLog (JStr "three") JNull)]).1.

(** *** A flush attempt and its failure

    [flush] takes the batch from the front of the queue; a failure puts it
    back in front of whatever the queue holds by then. *)
Definition flush_takes_front_and_failure_restores
    (cfg : Batch.config) (e : env) (w : Batch.world) : Prop :=
  exists w1 fl,
    Batch.flush cfg e w = (w1, Some fl) /\
    (Batch.step cfg (Batch.OpFlush e) w).2 = Ok JUndefined /\
    Batch.entriesToSend fl
      = take (Z.to_nat (Batch.maxBatchSize cfg)) (Batch.pendingEntries w) /\
    length (Batch.entriesToSend fl)
      = Nat.min (Z.to_nat (Batch.maxBatchSize cfg)) (length (Batch.pendingEntries w)) /\
    Batch.pendingEntries w = Batch.entriesToSend fl ++ Batch.pendingEntries w1 /\
    Batch.entries w1 = Batch.entries w /\
    (forall o w2, failed o ->
       (Batch.step cfg (Batch.OpSettled (Batch.entriesToSend fl) o) w2).2
         = Ok JUndefined /\
       Batch.pendingEntries (Batch.on_settled (Batch.entriesToSend fl) o w2)
         = Batch.entriesToSend fl ++ Batch.pendingEntries w2 /\
       Batch.entries (Batch.on_settled (Batch.entriesToSend fl) o w2)
         = Batch.entries w2) /\
    (forall o calls w2, failed o ->
       Batch.run cfg calls w1 = (w2, Ok JUndefined) ->
       Batch.pendingEntries (Batch.on_settled (Batch.entriesToSend fl) o w2)
         = Batch.entriesToSend fl ++ Batch.pendingEntries w1
             ++ Batch.created cfg calls).


(** ** How entries enter and leave the log and the queue *)

(** The statement of the specification for the queue: an entry leaves it
    only when a flush takes its batch. *)
Definition leaves_queue_only_by_flush (cfg : Batch.config) (o : Batch.op)
    (w : Batch.world) : Prop :=
  forall x,
    x ∈ Batch.pendingEntries w ->
    x ∉ Batch.pendingEntries (Batch.step cfg o w).1 ->
    exists e, o = Batch.OpFlush e.

(** [push], the append to the queue, then [saveToStorage]. *)
Definition appended (entry : jsval) (l : list jsval) (w w' : Batch.world) : Prop :=
  Batch.entries w' = JArr (slice_last Batch.MAX_ENTRIES (l ++ [entry])) /\
  Batch.pendingEntries w' = Batch.pendingEntries w ++ [entry].

(** [kept] is the log [l] with [entry] appended, less a front part that is
    dropped only when the cap of 100 is reached. *)
Definition evicts_oldest_at_cap (l : list jsval) (entry : jsval)
    (kept : list jsval) : Prop :=
  exists evicted,
    l ++ [entry] = evicted ++ kept /\
    (evicted = [] \/ length kept = 100%nat).

(** [entry] is appended to the queue and to the log [l]. *)
Definition records (entry : jsval) (l : list jsval) (w w' : Batch.world) : Prop :=
  Batch.pendingEntries w' = Batch.pendingEntries w ++ [entry] /\
  exists kept, Batch.entries w' = JArr kept /\ evicts_oldest_at_cap l entry kept.

(** What each operation does to the log [l] and to the queue. *)
Definition step_effect (cfg : Batch.config) (o : Batch.op) (l : list jsval)
    (w w' : Batch.world) : Prop :=
  match o with
  | Batch.OpTrackPageView e => records (Batch.pageview_entry cfg e) l w w'
  | Batch.OpCapture e c => records (Batch.entry_of cfg e c) l w w'
  | Batch.OpHandleError _ _ _ _ _ _ | Batch.OpHandlePromiseRejection _ _ =>
      w' = w \/ exists entry, records entry l w w'
  | Batch.OpFlush _ =>
      Batch.entries w' = Batch.entries w /\
      exists batch, Batch.pendingEntries w = batch ++ Batch.pendingEntries w'
  | Batch.OpSettled batch _ =>
      Batch.entries w' = Batch.entries w /\
      (Batch.pendingEntries w' = Batch.pendingEntries w \/
       Batch.pendingEntries w' = batch ++ Batch.pendingEntries w)
  | Batch.OpGetEntries _ => w' = w
  | Batch.OpClear => Batch.entries w' = JArr [] /\ Batch.pendingEntries w' = []
  end.


(** ** Equality of values *)

(** Equality of two values as data: the same shape, the same members in
    the same order. *)
Fixpoint jsval_beq (a b : jsval) : bool :=
  match a, b with
  | JUndefined, JUndefined => true
  | JNull, JNull => true
  | JBool x, JBool y => Bool.eqb x y
  | JNum x, JNum y => x =? y
  | JStr x, JStr y => String.eqb x y
  | JArr xs, JArr ys =>
      (fix go (xs ys : list jsval) : bool :=
         match xs, ys with
         | [], [] => true
         | x :: xs', y :: ys' => jsval_beq x y && go xs' ys'
         | _, _ => false
         end) xs ys
  | JObj ps, JObj qs =>
      (fix go (ps qs : list (string * jsval)) : bool :=
         match ps, qs with
         | [], [] => true
         | (k, x) :: ps', (k', y) :: qs' =>
             String.eqb k k' && jsval_beq x y && go ps' qs'
         | _, _ => false
         end) ps qs
  | _, _ => false
  end.

(** ** Reading the log by level *)

(** [x.level], where reading it does not raise. *)
Definition level_of (x : jsval) : jsval :=
  match x with
  | JObj props => default JUndefined (lookup_prop "level" props)
  | _ => JUndefined
  end.

Definition nullish (x : jsval) : bool :=
  match x with
  | JUndefined | JNull => true
  | _ => false
  end.

(** The entries of the log [l] whose level is [level], in the order of [l]. *)
Definition with_level (level : jsval) (l : list jsval) : list jsval :=
  List.filter (fun x => jsval_beq (level_of x) level) l.

(** The statement of the specification on [getEntries] of the batching
    logger: called with a level, it returns the entries of that level. *)
Definition getEntries_filters_by_level (level : jsval) (w : Batch.world) : Prop :=
  forall l, Batch.entries w = JArr l ->
    Batch.getEntries [level] w = (w, Ok (JArr (with_level level l))).


(** The simple logger after a page load that made three calls. *)
Definition simple_busy_world : Simple.world :=
  (simple_page_load sample_env empty_storage
     [(sample_env, Simple.CallInfo (JStr "one") JNull);
      (sample_env, Simple.CallError (JStr "two") JNull);
      (sample_env, Simple.CallWarn (JStr "three") JNull)]).1.

Definition log_items (v : jsval) : list jsval :=
  match v with
  | JArr items => items
  | _ => []
  end.


(** ** What a capture call returns and writes *)

(** The statement of the specification on a capture call of the simple
    logger: it returns the entry it created, which carries an id. *)
Definition simple_capture_returns_entry_with_id (e : env) (c : Simple.call)
    (w : Simple.world) : Prop :=
  exists entry id,
    (Simple.capture e c w).2 = Ok entry /\ get_prop entry "id" = Ok (JStr id).

(** The storage [st'] after an attempt to write [text] to [st]: the slot
    holds [text] when the write is accepted, and nothing changes when it
    raises. *)
Definition write_attempted (st : storage) (text : string) (st' : storage) : Prop :=
  match setItem st Batch.STORAGE_KEY text with
  | Ok written => st' = written
  | Throw _ => st' = st
  end.

Definition batch_capture_effect (cfg : Batch.config) (e : env) (c : Batch.call)
    (l : list jsval) (w : Batch.world) : Prop :=
  let entry := Batch.entry_of cfg e c in
  let kept := slice_last 100 (l ++ [entry]) in
  exists w',
    Batch.capture cfg e c w = (w', Ok entry) /\
    get_prop entry "id" = Ok (JStr (Batch.generateId e)) /\
    get_prop entry "timestamp" = Ok (JStr (isoTime e)) /\
    Batch.entries w' = JArr kept /\
    Batch.pendingEntries w' = Batch.pendingEntries w ++ [entry] /\
    write_attempted (Batch.localStorage w)
      (JSON.print_to (JArr kept) EmptyString) (Batch.localStorage w').

Definition simple_capture_effect (e : env) (c : Simple.call)
    (l : list jsval) (w : Simple.world) : Prop :=
  let entry := Simple.entry_of e c in
  let kept := slice_last 100 (l ++ [entry]) in
  exists w',
    Simple.capture e c w = (w', Ok JUndefined) /\
    get_prop entry "id" = Ok JUndefined /\
    get_prop entry "timestamp" = Ok (JStr (isoTime e)) /\
    Simple.logs w' = JArr kept /\
    write_attempted (Simple.localStorage w)
      (JSON.print_to (JArr kept) EmptyString) (Simple.localStorage w').


(** ** Saving and reloading *)

(** The statement of the specification on the round trip: saving a log of
    at most 100 entries and loading it on a fresh page gives the log back. *)
Definition reload_reproduces (e : env) (w : Batch.world) : Prop :=
  forall l,
    Batch.entries w = JArr l -> (length l <= 100)%nat ->
    batch_loaded e (Batch.localStorage (Batch.saveToStorage w)) = JArr l.

(** The object after [log("sizes", [undefined])] on an empty storage. *)
Definition holey_world : Batch.world :=
  (Batch.log Batch.defaultConfig sample_env (JStr "sizes") (JArr [JUndefined])
     (Batch.fresh sample_env empty_storage)).1.

(** The batching logger on a page whose storage is [st], once [init] has
    run. *)
Definition after_init (cfg : Batch.config) (st : storage) : Batch.completion :=
  Batch.init cfg sample_env (Batch.fresh sample_env st).


(** ** The object and its requests over time *)

(** The object together with the batches whose requests have not settled. *)
Record system : Type := {
  object : Batch.world;
  in_flight : list (list jsval)
}.

(** What happens on the page: an operation on the object, or the
    settlement of the [i]-th request in flight with outcome [o]. *)
Inductive event : Type :=
  | Calls (o : Batch.op)
  | Settles (i : nat) (o : fetch_outcome).

(** A flush adds its batch to the requests in flight; a settlement runs the
    callbacks of its request and retires it.  The callbacks run for
    requests in flight only, so [Calls (OpSettled _ _)] is no event of the
    page and changes nothing here. *)
Definition sys_step (cfg : Batch.config) (ev : event) (sys : system) : system :=
  match ev with
  | Calls (Batch.OpFlush e) =>
      let '(w', sent_batch) := Batch.flush cfg e (object sys) in
      {| object := w';
         in_flight := in_flight sys
                      ++ match sent_batch with
                         | Some fl => [Batch.entriesToSend fl]
                         | None => []
                         end |}
  | Calls (Batch.OpSettled _ _) => sys
  | Calls o =>
      {| object := (Batch.step cfg o (object sys)).1; in_flight := in_flight sys |}
  | Settles i o =>
      match in_flight sys !! i with
      | Some batch =>
          {| object := Batch.on_settled batch o (object sys);
             in_flight := delete i (in_flight sys) |}
      | None => sys
      end
  end.

Definition sys_run (cfg : Batch.config) (events : list event) (sys : system)
  : system :=
  fold_left (fun s ev => sys_step cfg ev s) events sys.

(** The entry an event creates, if it creates one. *)
Definition created_by (cfg : Batch.config) (ev : event) : list jsval :=
  match ev with
  | Calls (Batch.OpTrackPageView e) => [Batch.pageview_entry cfg e]
  | Calls (Batch.OpCapture e c) => [Batch.entry_of cfg e c]
  | Calls (Batch.OpHandleError e message source lineno colno error) =>
      match Batch.stack_of error with
      | Ok stack =>
          [Batch.error_entry cfg e (JStr ("JavaScript Error: " +:+ message))
             (JObj [("source", source); ("line", lineno);
                    ("column", colno); ("stack", stack)])]
      | Throw _ => []
      end
  | Calls (Batch.OpHandlePromiseRejection e reason) =>
      match Batch.stack_of reason with
      | Ok stack =>
          [Batch.error_entry cfg e (JStr "Unhandled Promise Rejection")
             (JObj [("reason", JStr (to_string reason)); ("stack", stack)])]
      | Throw _ => []
      end
  | _ => []
  end.

Definition created_during (cfg : Batch.config) (events : list event) : list jsval :=
  concat (map (created_by cfg) events).

(** [x] waits in the queue or travels in a request. *)
Definition queued_or_sent (x : jsval) (sys : system) : Prop :=
  x ∈ Batch.pendingEntries (object sys) \/
  exists batch, batch ∈ in_flight sys /\ x ∈ batch.

(** Everything queued or sent is among [born]. *)
Definition all_born (born : list jsval) (sys : system) : Prop :=
  forall x, queued_or_sent x sys -> x ∈ born.

(** ** The queue of one page load *)

(** After [init] gave [w] and the [calls] gave [w2]: the queue holds the
    page view (when tracked) and the created entries, and a flush sends a
    front part of these. *)
Definition queue_is_of_this_page_load (cfg : Batch.config) (e : env)
    (calls : list (env * Batch.call)) (w w2 : Batch.world) : Prop :=
  Batch.pendingEntries w
    = (if Batch.trackPageViews cfg then [Batch.pageview_entry cfg e] else []) /\
  Batch.pendingEntries w2 = Batch.pendingEntries w ++ Batch.created cfg calls /\
  forall e' w3 fl,
    Batch.flush cfg e' w2 = (w3, Some fl) ->
    Batch.entriesToSend fl
      = take (Z.to_nat (Batch.maxBatchSize cfg))
          (Batch.pendingEntries w ++ Batch.created cfg calls).

(** After [init] gave [w]: the queue holds the page view (when tracked),
    and whatever the page does next, every entry that waits in the queue or
    travels in a request is that page view or was created since. *)
Definition queue_holds_created_only (cfg : Batch.config) (e : env)
    (events : list event) (w : Batch.world) : Prop :=
  Batch.pendingEntries w
    = (if Batch.trackPageViews cfg then [Batch.pageview_entry cfg e] else []) /\
  all_born (Batch.pendingEntries w ++ created_during cfg events)
    (sys_run cfg events {| object := w; in_flight := [] |}).


(** * Further functions of the loggers *)

(** ** What JSON text does to a value *)

(** [clean v] is [v] as JSON text carries it: an [undefined] element of an
    array becomes [null], a member whose value is [undefined] is left
    out. *)
Definition clean_members_with (f : jsval -> jsval)
  : list (string * jsval) -> list (string * jsval) :=
  fix go (props : list (string * jsval)) : list (string * jsval) :=
    match props with
    | [] => []
    | (key, x) :: rest =>
        if JSON.serializable x then (key, f x) :: go rest else go rest
    end.

Fixpoint clean (v : jsval) : jsval :=
  match v with
  | JUndefined => JNull
  | JArr items => JArr (map clean items)
  | JObj props => JObj (clean_members_with clean props)
  | _ => v
  end.

(** No object of [v] lists a key twice, which holds of every object. *)
Fixpoint distinct_keys (v : jsval) : bool :=
  match v with
  | JArr items => forallb distinct_keys items
  | JObj props =>
      forallb (fun kv => distinct_keys kv.2) props && bool_decide (NoDup props.*1)
  | _ => true
  end.

(** ** JSON.stringify(value, null, 2) *)

Module Pretty.

Fixpoint spaces (n : nat) (k : string) : string :=
  match n with
  | O => k
  | S n' => String " " (spaces n' k)
  end.

(** A line break and the indentation of nesting depth [depth]: the gap is
    two spaces. *)
Definition break_to (depth : nat) (k : string) : string :=
  String "010" (spaces (2 * depth) k).

(** SerializeJSONArray with a gap, after the opening bracket: the elements
    at depth [S depth], the closing bracket at depth [depth]; an empty
    array is written without a line break. *)
Definition elements_to (pr : nat -> jsval -> string -> string) (depth : nat)
  : bool -> list jsval -> string -> string :=
  fix go (first : bool) (items : list jsval) (k : string) : string :=
    match items with
    | [] => if first then String "]" k else break_to depth (String "]" k)
    | x :: rest =>
        let body := break_to (S depth) (pr (S depth) x (go false rest k)) in
        if first then body else String "," body
    end.

(** SerializeJSONObject with a gap, after the opening brace: a colon and a
    space between key and value. *)
Definition members_to (pr : nat -> jsval -> string -> string) (depth : nat)
  : bool -> list (string * jsval) -> string -> string :=
  fix go (first : bool) (props : list (string * jsval)) (k : string) : string :=
    match props with
    | [] => if first then String "}" k else break_to depth (String "}" k)
    | (key, x) :: rest =>
        if JSON.serializable x
        then let body :=
               break_to (S depth)
                 (JSON.quote_to key
                    (String ":" (String " " (pr (S depth) x (go false rest k))))) in
             if first then body else String "," body
        else go first rest k
    end.

Fixpoint print_to (depth : nat) (v : jsval) (k : string) : string :=
  match v with
  | JArr items => String "[" (elements_to print_to depth true items k)
  | JObj props => String "{" (members_to print_to depth true props k)
  | _ => JSON.print_to v k
  end.

(** [JSON.stringify(v, null, 2)]: [None] stands for the result
    [undefined]. *)
Definition stringify (v : jsval) : option string :=
  if JSON.serializable v then Some (print_to O v EmptyString) else None.

End Pretty.

(** ** exportLogs *)

(** The file a click on the created link downloads. *)
Record download : Type := {
  fileName : string;
  mimeType : string;
  content : string
}.

(** [s.split('T')[0]]: what precedes the first [T], or all of [s]. *)
Fixpoint before_T (s : string) : string :=
  match s with
  | EmptyString => EmptyString
  | String c r => if (N_of_ascii c =? 84)%N then EmptyString else String c (before_T r)
  end.

(** The text of a [Blob] part: a string as it is, [undefined] as the word. *)
Definition blob_text (o : option string) : string := default "undefined" o.

(** [exportLogs] of both loggers, on the log [v]: the link is created,
    clicked and dropped, which leaves the download and nothing else. *)
Definition export_of (e : env) (v : jsval) : download :=
  {| fileName := "static-site-logs-" +:+ before_T (isoTime e) +:+ ".json";
     mimeType := "application/json";
     content := blob_text (Pretty.stringify v) |}.

Definition batch_exportLogs (e : env) (w : Batch.world) : Batch.world * download :=
  (w, export_of e (Batch.entries w)).

Definition simple_exportLogs (e : env) (w : Simple.world) : Simple.world * download :=
  (w, export_of e (Simple.logs w)).


(** ** Statements about the indented text of a value *)

(** What may follow a value in an indented text: the end, a comma, a
    closing bracket or a line break. *)
Definition ends_value (k : string) : bool :=
  match k with
  | EmptyString => true
  | String c _ =>
      let n := N_of_ascii c in
      (n =? 44)%N || (n =? 93)%N || (n =? 125)%N || (n =? 10)%N
  end.

(** [JSON.parse] reads [v] back from its indented text, whatever follows
    it. *)
Definition pretty_reads_back (v : jsval) : Prop :=
  json_safe v = true ->
  forall depth fuel k, (weight v <= fuel)%nat -> ends_value k = true ->
    JSON.parse_value fuel (Pretty.print_to depth v k) = Some (v, k).


(** ** Outcomes that report success, and rounds of flushing *)

(** A transmission that succeeded: the body parses to an object whose
    [success] member is truthy. *)
Inductive succeeded : fetch_outcome -> Prop :=
  | succeeded_response text message v :
      JSON.parse text = Some v -> reports_success v = true ->
      succeeded (Responded text message).

(** One flush and the settlement of its request with outcome [o], nothing
    happening in between. *)
Definition flush_round (cfg : Batch.config) (e : env) (o : fetch_outcome)
    (w : Batch.world) : Batch.world :=
  let '(w1, sent_batch) := Batch.flush cfg e w in
  match sent_batch with
  | Some fl => Batch.on_settled (Batch.entriesToSend fl) o w1
  | None => w1
  end.

Definition flush_rounds (cfg : Batch.config) (rounds : list (env * fetch_outcome))
    (w : Batch.world) : Batch.world :=
  fold_left (fun w' eo => flush_round cfg eo.1 eo.2 w') rounds w.

Definition is_clear (ev : event) : bool :=
  match ev with
  | Calls Batch.OpClear => true
  | _ => false
  end.

(** The object the request body describes. *)
Definition payload_of (cfg : Batch.config) (batch : list jsval) : jsval :=
  JObj [("siteId", Batch.siteId cfg);
        ("apiKey", of_opt_str (Batch.apiKey cfg));
        ("entries", JArr batch)].

(** The console line [debug] prints. *)
Definition debug_line (message : string) (data : jsval) : list jsval :=
  [JStr "[StaticLogger]"; JStr message; or_else data (JStr EmptyString)].

(** [debug] prints when the configuration or the host name says so. *)
Definition mirrors (cfg : Batch.config) (e : env) : bool :=
  Batch.debugMode cfg || String.eqb (hostname e) "localhost".

(** The entry [handleError] records, given the stack it kept. *)
Definition handled_error_entry (cfg : Batch.config) (e : env) (message : string)
    (source lineno colno stack : jsval) : jsval :=
  Batch.error_entry cfg e (JStr ("JavaScript Error: " +:+ message))
    (JObj [("source", source); ("line", lineno);
           ("column", colno); ("stack", stack)]).

(** The entry [handlePromiseRejection] records. *)
Definition rejection_entry (cfg : Batch.config) (e : env) (reason stack : jsval)
  : jsval :=
  Batch.error_entry cfg e (JStr "Unhandled Promise Rejection")
    (JObj [("reason", JStr (to_string reason)); ("stack", stack)]).

(** The stack a hook keeps: [null] when the error or its stack is falsy,
    and else the first 500 characters of the stack string [full], which
    is all of it when it is no longer than that. *)
Definition kept_stack (error stack : jsval) : Prop :=
  (stack = JNull /\
   (truthy error = false \/
    exists v, get_prop error "stack" = Ok v /\ truthy v = false)) \/
  exists full,
    truthy error = true /\
    get_prop error "stack" = Ok (JStr full) /\
    full <> EmptyString /\
    stack = JStr (substring 0 500 full) /\
    (String.length (substring 0 500 full) <= 500)%nat /\
    (exists rest, full = substring 0 500 full +:+ rest) /\
    ((String.length full <= 500)%nat -> substring 0 500 full = full).

(** The stack makes the hook raise: it is truthy and no string, so it has
    no [substring] method. *)
Definition unusable_stack (error : jsval) : Prop :=
  exists v,
    truthy error = true /\ get_prop error "stack" = Ok v /\
    truthy v = true /\ forall s, v <> JStr s.

(** The environment an event runs in, if it reads one. *)
Definition env_of (ev : event) : option env :=
  match ev with
  | Calls (Batch.OpTrackPageView e) | Calls (Batch.OpCapture e _)
  | Calls (Batch.OpHandleError e _ _ _ _ _)
  | Calls (Batch.OpHandlePromiseRejection e _) | Calls (Batch.OpFlush e) => Some e
  | _ => None
  end.

(** No event runs where [debug] prints: debug mode is off and no page is
    served from [localhost]. *)
Definition in_production (cfg : Batch.config) (events : list event) : Prop :=
  Forall (fun ev => forall e, env_of ev = Some e -> mirrors cfg e = false) events.

(** The console line [saveLogs] prints when the write raised [x]. *)
Definition save_warning (x : exn) : list jsval :=
  [JStr "Failed to save logs:"; JStr (exn_name x)].

(** The console line the simple logger's [log] prints on [localhost]. *)
Definition log_line (level message data : jsval) : list jsval :=
  [JStr ("[" +:+ to_string level +:+ "] " +:+ to_string message); data].

(** The arguments [log] is called with by each capture call. *)
Definition level_message_data (c : Simple.call) : jsval * jsval * jsval :=
  match c with
  | Simple.CallLog level message data => (level, message, data)
  | Simple.CallInfo message data => (JStr "INFO", message, data)
  | Simple.CallWarn message data => (JStr "WARN", message, data)
  | Simple.CallError message data => (JStr "ERROR", message, data)
  end.

(** The entry the simple logger's [logError] records. *)
Definition simple_error_entry (e : env) (message source lineno colno err : jsval)
  : jsval :=
  Simple.log_entry e (JStr "ERROR") (JStr "JavaScript Error")
    (JObj [("message", message); ("source", source); ("line", lineno);
           ("column", colno); ("stack", Simple.optional_stack err)]).


(** ** Sample surroundings of the further properties *)

(** A response body that reports success. *)
Definition success_body : string :=
  JSON.print_to (JObj [("success", JBool true)]) EmptyString.

(** A page served from the developer's machine. *)
Definition local_env : env := {|
  now := 1730000000000;
  random36 := "0.4fzyo82mvyr";
  isoTime := "2024-10-27T03:33:20.000Z";
  pathname := "/services";
  hostname := "localhost";
  title := "Services";
  referrer := EmptyString;
  screenWidth := 1920;
  screenHeight := 1080;
  userAgent := "Mozilla/5.0"
|}.

(** No event is a call of [clear]. *)
Definition never_cleared (events : list event) : Prop :=
  Forall (fun ev => is_clear ev = false) events.


(** * Properties *)

(** ** The definitions on sample inputs *)

Example to_base36_of_a_clock_value : to_base36 1730000000000 = "m2r1bz7k".
Proof. reflexivity. Qed.

Example generateId_of_sample : Batch.generateId sample_env = "m2r1bz7k4fzyo8".
Proof. reflexivity. Qed.

Example slice_last_keeps_the_end : slice_last 2 [1; 2; 3; 4; 5] = [4; 5].
Proof. reflexivity. Qed.

Example splice_front_clamps :
  splice_front 20 [1; 2; 3] = ([1; 2; 3], []) /\
  splice_front 2 [1; 2; 3] = ([1; 2], [3]) /\
  splice_front (-1) [1; 2; 3] = ([], [1; 2; 3]).
Proof. repeat split. Qed.

Example parse_skips_white_space :
  JSON.parse " [ 1 , [ true , null ] , -20 ] "
  = Some (JArr [JNum 1; JArr [JBool true; JNull]; JNum (-20)]).
Proof. reflexivity. Qed.

Example parse_rejects_a_trailing_comma : JSON.parse "[1,]" = None.
Proof. reflexivity. Qed.

Example parse_rejects_a_leading_zero : JSON.parse "[01]" = None.
Proof. reflexivity. Qed.

Example parse_rejects_trailing_text : JSON.parse "null x" = None.
Proof. reflexivity. Qed.

Example parse_accepts_values_that_are_no_array :
  JSON.parse "{}" = Some (JObj []) /\ JSON.parse "null" = Some JNull /\
  JSON.parse "42" = Some (JNum 42).
Proof. repeat split. Qed.

Example stringify_of_undefined :
  JSON.stringify JUndefined = None /\
  JSON.stringify (JArr [JUndefined; JNum 1]) = Some "[null,1]" /\
  JSON.stringify (JObj [("a", JUndefined); ("b", JNum 1)])
    = JSON.stringify (JObj [("b", JNum 1)]).
Proof. repeat split. Qed.

Example stringify_escapes :
  JSON.stringify (JStr (String "010" (String "001" "a\b")))
  = Some (String JSON.dquote
            (String.app "\n\u0001a\\b" (String JSON.dquote EmptyString))).
Proof. reflexivity. Qed.

(** [init] with [trackPageViews: false], then [error("boom", {x: 1})]: the
    log holds exactly that entry. *)
Example one_error_without_page_view :
  let cfg := {| Batch.apiEndpoint := None; Batch.apiKey := None;
                Batch.siteId := JNull; Batch.trackPageViews := false;
                Batch.batchInterval := 30000; Batch.maxBatchSize := 20;
                Batch.debugMode := false |} in
  Batch.entries
    (batch_page_load cfg sample_env empty_storage
       [(sample_env, Batch.CallLogError (JStr "boom") (JObj [("x", JNum 1)]))]).1
  = JArr [JObj [("id", JStr "m2r1bz7k4fzyo8");
                ("type", JStr "error");
                ("timestamp", JStr "2024-10-27T03:33:20.000Z");
                ("siteId", JNull);
                ("level", JStr "ERROR");
                ("message", JStr "boom");
                ("data", JObj [("x", JNum 1)]);
                ("path", JStr "/services")]].
Proof. reflexivity. Qed.



(** ** JSON: numbers *)


Lemma read_digits_stop k : no_digit k -> JSON.read_digits k = (Decimal.Nil, k).
Proof. destruct k as [|c r]; simpl; [done|]. by intros ->. Qed.

Lemma read_digits_digits_to u k :
  no_digit k -> JSON.read_digits (JSON.digits_to u k) = (u, k).
Proof.
  intros Hk. induction u as [|u IH|u IH|u IH|u IH|u IH|u IH|u IH|u IH|u IH|u IH];
    simpl; [by apply read_digits_stop|..]; by rewrite IH.
Qed.

Lemma canonical_unorm u : JSON.canonical_uint (Decimal.unorm u) = true.
Proof.
  unfold Decimal.unorm.
  destruct (Decimal.nzhead u) as [|d|d|d|d|d|d|d|d|d|d] eqn:E; try reflexivity.
  by destruct (nzhead_nonzero u d).
Qed.

Lemma canonical_to_uint n : JSON.canonical_uint (N.to_uint n) = true.
Proof.
  rewrite <- (DecimalN.Unsigned.of_to n) at 1.
  rewrite DecimalN.Unsigned.to_of. apply canonical_unorm.
Qed.

Lemma delimited_no_digit k : delimited k = true -> no_digit k.
Proof.
  destruct k as [|c r]; simpl; [done|].
  destruct c as [[] [] [] [] [] [] [] []]; simpl; done.
Qed.

Lemma delimited_no_fraction k :
  delimited k = true -> JSON.starts_fraction k = false.
Proof.
  destruct k as [|c r]; simpl; [done|].
  destruct c as [[] [] [] [] [] [] [] []]; simpl; done.
Qed.

Lemma parse_unsigned_digits n k :
  delimited k = true ->
  JSON.parse_unsigned (JSON.digits_to (N.to_uint n) k) = Some (n, k).
Proof.
  intros Hk. unfold JSON.parse_unsigned.
  rewrite read_digits_digits_to by by apply delimited_no_digit.
  rewrite canonical_to_uint, delimited_no_fraction by done. simpl.
  by rewrite DecimalN.Unsigned.of_to.
Qed.

(** The digits of a number begin with a digit, not with a minus sign. *)
Lemma digits_to_head u k :
  JSON.canonical_uint u = true ->
  exists c r, JSON.digits_to u k = String c r /\
              Ascii.eqb c "-" = false /\ opens_value (String c r) = true /\
              (N_of_ascii c =? 110)%N = false /\ (N_of_ascii c =? 116)%N = false /\
              (N_of_ascii c =? 102)%N = false /\ (N_of_ascii c =? 34)%N = false /\
              (N_of_ascii c =? 91)%N = false /\ (N_of_ascii c =? 123)%N = false.
Proof.
  destruct u; simpl; intros Hu; try done; eexists _, _; (split; [reflexivity|done]).
Qed.

Lemma parse_number_number_to z k :
  delimited k = true -> JSON.parse_number (JSON.number_to z k) = Some (z, k).
Proof.
  intros Hk. unfold JSON.number_to.
  destruct (Z.ltb_spec z 0) as [Hneg|Hpos].
  - simpl. rewrite parse_unsigned_digits by done. simpl.
    f_equal. f_equal. lia.
  - destruct (digits_to_head (N.to_uint (Z.abs_N z)) k (canonical_to_uint _))
      as (c & r & E & Hminus & _).
    pose proof (parse_unsigned_digits (Z.abs_N z) k Hk) as Hp.
    rewrite E in *. unfold JSON.parse_number. rewrite Hminus, Hp. simpl.
    f_equal. f_equal. lia.
Qed.

(** ** JSON: string literals *)

Lemma parse_chars_quote_char c k :
  JSON.parse_chars (JSON.quote_char_to c k) =
  match JSON.parse_chars k with
  | Some (str, rest) => Some (String c str, rest)
  | None => None
  end.
Proof. destruct c as [[] [] [] [] [] [] [] []]; reflexivity. Qed.

Lemma parse_chars_quote_body s k :
  JSON.parse_chars (JSON.quote_body_to s (String JSON.dquote k)) = Some (s, k).
Proof.
  induction s as [|c s IH]; simpl; [reflexivity|].
  by rewrite parse_chars_quote_char, IH.
Qed.

(** ** JSON: values *)

Lemma skip_ws_opens s : opens_value s = true -> JSON.skip_ws s = s.
Proof.
  destruct s as [|c r]; simpl; [done|].
  destruct (JSON.is_ws c); simpl; done.
Qed.

Lemma print_to_opens v k : opens_value (JSON.print_to v k) = true.
Proof.
  destruct v as [| |[]|n|s|items|props]; try reflexivity.
  simpl. unfold JSON.number_to. destruct (n <? 0); [reflexivity|].
  destruct (digits_to_head (N.to_uint (Z.abs_N n)) k (canonical_to_uint _))
    as (c & r & -> & _ & Hopen & _). done.
Qed.

Lemma weight_pos v : (1 <= weight v)%nat.
Proof. destruct v; simpl; lia. Qed.

Lemma json_safe_serializable v : json_safe v = true -> JSON.serializable v = true.
Proof. by destruct v. Qed.

(** ** JSON: what a parser leaves is no longer than what it was given *)

Ltac break_hyp H :=
  match type of H with
  | context [match ?x with _ => _ end] =>
      let E := fresh "E" in destruct x eqn:E; simpl in H; try discriminate
  | context [if ?b then _ else _] =>
      let E := fresh "E" in destruct b eqn:E; simpl in H; try discriminate
  end.

Lemma skip_ws_length s :
  (String.length (JSON.skip_ws s) <= String.length s)%nat.
Proof. induction s as [|c s IH]; simpl; [lia|]. destruct (JSON.is_ws c); simpl; lia. Qed.

Lemma strip_prefix_length p : forall s r,
  JSON.strip_prefix p s = Some r -> (String.length r <= String.length s)%nat.
Proof.
induction p as [|a p IH]; intros [|b s] r H; simpl in *; try discriminate.
- injection H as <-. simpl. lia.
- injection H as <-. simpl; lia.
- destruct (Ascii.eqb a b); [|discriminate]. apply IH in H. lia.
Qed.

Lemma read_digits_length s : forall u r,
  JSON.read_digits s = (u, r) -> (String.length r <= String.length s)%nat.
Proof.
induction s as [|c s IH]; intros u r H; simpl in H.
- injection H as <- <-. simpl; lia.
- destruct (JSON.digit_of c).
  + destruct (JSON.read_digits s) as [u' r'] eqn:E. injection H as <- <-.
    specialize (IH _ _ eq_refl). simpl. lia.
  + injection H as <- <-. simpl. lia.
Qed.

Lemma parse_unsigned_length s n r :
  JSON.parse_unsigned s = Some (n, r) -> (String.length r <= String.length s)%nat.
Proof.
unfold JSON.parse_unsigned. destruct (JSON.read_digits s) as [u r'] eqn:E.
destruct (_ && _); [|discriminate]. intros [= <- <-].
by apply read_digits_length in E.
Qed.

Lemma parse_number_length s z r :
  JSON.parse_number s = Some (z, r) -> (String.length r <= String.length s)%nat.
Proof.
unfold JSON.parse_number. destruct s as [|c s]; [discriminate|].
destruct (Ascii.eqb c "-").
- destruct (JSON.parse_unsigned s) as [[n r']|] eqn:E; simpl; [|discriminate].
  intros [= <- <-]. apply parse_unsigned_length in E. simpl. lia.
- destruct (JSON.parse_unsigned (String c s)) as [[n r']|] eqn:E; simpl; [|discriminate].
  intros [= <- <-]. by apply parse_unsigned_length in E.
Qed.

Lemma parse_chars_length n : forall s x r,
  (String.length s <= n)%nat ->
  JSON.parse_chars s = Some (x, r) -> (String.length r <= String.length s)%nat.
Proof.
induction n as [|n IH]; intros s x r Hlen H.
- destruct s; simpl in *; [discriminate|lia].
- destruct s as [|c s]; [discriminate|]. simpl in H, Hlen.
  repeat break_hyp H; try (injection H as <- <-); simpl;
    try match goal with
        | E : JSON.parse_chars _ = Some _ |- _ => apply IH in E; simpl in *; lia
        end; lia.
Qed.

Local Arguments JSON.skip_ws : simpl never.
Local Arguments JSON.parse_number : simpl never.
Local Arguments JSON.parse_chars : simpl never.
Local Arguments JSON.print_to : simpl never.
Local Arguments JSON.value_step _ _ _ /.
Local Arguments JSON.elements_step _ _ _ /.
Local Arguments JSON.members_step _ _ _ _ /.

(** Reading a number literal that [print_to] wrote. *)
Lemma parse_value_number fuel n k :
  delimited k = true ->
  JSON.parse_value (S fuel) (JSON.number_to n k) = Some (JNum n, k).
Proof.
  intros Hk. pose proof (parse_number_number_to n k Hk) as Hp.
  assert (exists c r, JSON.number_to n k = String c r /\
            opens_value (String c r) = true /\
            (N_of_ascii c =? 110)%N = false /\ (N_of_ascii c =? 116)%N = false /\
            (N_of_ascii c =? 102)%N = false /\ (N_of_ascii c =? 34)%N = false /\
            (N_of_ascii c =? 91)%N = false /\ (N_of_ascii c =? 123)%N = false)
    as (c & r & E & Hopen & H1 & H2 & H3 & H4 & H5 & H6).
  { unfold JSON.number_to. destruct (n <? 0).
    - eexists _, _. split; [reflexivity|done].
    - destruct (digits_to_head (N.to_uint (Z.abs_N n)) k (canonical_to_uint _))
        as (c & r & E & _ & Hopen & H).
      exists c, r. done. }
  rewrite E in *. simpl. rewrite skip_ws_opens by done.
  rewrite H1, H2, H3, H4, H5, H6, Hp. done.
Qed.


Lemma parse_elements_print items :
  Forall reads_back items ->
  forallb json_safe items = true ->
  forall x fuel k,
    reads_back x -> json_safe x = true ->
    (1 + weight x + list_sum (map weight items) <= fuel)%nat ->
    JSON.parse_elements fuel
      (JSON.print_to x (JSON.elements_to JSON.print_to false items k))
    = Some (x :: items, k).
Proof.
  induction 1 as [|y items Hy _ IH]; intros Hsafe x fuel k Hx Sx Hfuel;
    simpl in Hsafe, Hfuel; (destruct fuel as [|fuel]; [lia|]); simpl.
  - rewrite Hx by (done || lia). done.
  - apply andb_prop in Hsafe as [Sy Ss].
    rewrite Hx by (done || lia). simpl.
    rewrite (IH Ss y fuel k Hy Sy) by (simpl; pose proof (weight_pos x); lia).
    done.
Qed.

Lemma set_prop_fresh key x (acc : list (string * jsval)) :
  key ∉ acc.*1 -> set_prop key x acc = acc ++ [(key, x)].
Proof.
  induction acc as [|[k' y] acc IH]; simpl; [done|].
  intros Hkey. apply not_elem_of_cons in Hkey as [Hne Hkey].
  apply String.eqb_neq in Hne. rewrite Hne. by rewrite IH.
Qed.

Lemma members_to_delimited props k :
  forallb (fun kv => json_safe kv.2) props = true ->
  delimited (JSON.members_to JSON.print_to false props k) = true.
Proof.
  destruct props as [|[key y] rest]; simpl; [done|].
  intros [Sy _]%andb_prop. by rewrite (json_safe_serializable y Sy).
Qed.

Lemma elements_to_delimited items k :
  delimited (JSON.elements_to JSON.print_to false items k) = true.
Proof. by destruct items. Qed.

Lemma parse_members_unfold fuel acc key r :
  JSON.parse_members (S fuel) acc (JSON.quote_to key r) =
  '(key', r1) ← JSON.parse_chars
                  (JSON.quote_body_to key (String JSON.dquote r));
  match JSON.skip_ws r1 with
  | String colon r2 =>
      if (N_of_ascii colon =? 58)%N then
        '(v, r3) ← JSON.parse_value fuel r2;
        let acc' := set_prop key' v acc in
        match JSON.skip_ws r3 with
        | String c r' =>
            if (N_of_ascii c =? 44)%N then JSON.parse_members fuel acc' r'
            else if (N_of_ascii c =? 125)%N then Some (acc', r')
            else None
        | EmptyString => None
        end
      else None
  | EmptyString => None
  end.
Proof. reflexivity. Qed.

Lemma parse_members_print props :
  Forall (fun kv => reads_back kv.2) props ->
  forallb (fun kv => json_safe kv.2) props = true ->
  forall key x acc fuel k,
    reads_back x -> json_safe x = true ->
    NoDup (acc.*1 ++ key :: props.*1) ->
    (1 + weight x + list_sum (map (fun kv => weight kv.2) props) <= fuel)%nat ->
    JSON.parse_members fuel acc
      (JSON.quote_to key (String ":"
         (JSON.print_to x (JSON.members_to JSON.print_to false props k))))
    = Some (acc ++ (key, x) :: props, k).
Proof.
  induction 1 as [|[key' y] props Hy Hprops IH];
    intros Hsafe key x acc fuel k Hx Sx Hkeys Hfuel;
    simpl in Hsafe, Hfuel; (destruct fuel as [|fuel]; [lia|]);
    rewrite parse_members_unfold, parse_chars_quote_body; simpl;
    assert (key ∉ acc.*1) as Hfresh
      by (apply NoDup_app in Hkeys as (_ & Hdisj & _);
          intros Hin; apply (Hdisj key Hin); left).
  - rewrite Hx by (done || lia). simpl.
    by rewrite set_prop_fresh.
  - apply andb_prop in Hsafe as [Sy Ss].
    rewrite Hx; [|done|lia|]; last first.
    { simpl. by rewrite (json_safe_serializable y Sy). }
    simpl. rewrite (json_safe_serializable y Sy). simpl.
    rewrite set_prop_fresh by done.
    rewrite (IH Ss key' y (acc ++ [(key, x)]) fuel k Hy Sy).
    + by rewrite <- app_assoc.
    + rewrite fmap_app, <- app_assoc. exact Hkeys.
    + simpl. pose proof (weight_pos x). lia.
Qed.

(** [JSON.parse] reads every safe value back from the text
    [JSON.stringify] wrote for it. *)
Lemma print_reads_back v : reads_back v.
Proof.
  induction v as [| |b|n|s|items IH|props IH] using jsval_nested_ind;
    intros Hsafe fuel k Hfuel Hk; (destruct fuel as [|fuel]; [simpl in Hfuel; lia|]).
  - done.
  - reflexivity.
  - by destruct b.
  - by apply parse_value_number.
  - unfold JSON.print_to, JSON.quote_to. simpl.
    rewrite ?skip_ws_opens by done; simpl.
    by rewrite parse_chars_quote_body.
  - simpl in Hsafe, Hfuel. unfold JSON.print_to; fold JSON.print_to.
    destruct IH as [|x items Hx Hitems].
    + reflexivity.
    + simpl in Hsafe, Hfuel. apply andb_prop in Hsafe as [Sx Ss].
      simpl. rewrite ?skip_ws_opens by done; simpl.
      pose proof (print_to_opens x
        (JSON.elements_to JSON.print_to false items k)) as Hopen.
      rewrite (skip_ws_opens _ Hopen).
      destruct (JSON.print_to x _) as [|c r] eqn:E; [done|].
      simpl in Hopen.
      destruct (N_of_ascii c =? 93)%N; [by rewrite !andb_false_r in Hopen|].
      rewrite <- E.
      rewrite (parse_elements_print items Hitems Ss x fuel k Hx Sx) by lia.
      done.
  - simpl in Hsafe, Hfuel. unfold JSON.print_to; fold JSON.print_to.
    apply andb_prop in Hsafe as [Ss Hkeys]. apply bool_decide_eq_true in Hkeys.
    destruct IH as [|[key x] props Hx Hprops].
    + reflexivity.
    + simpl in Ss, Hfuel, Hx. apply andb_prop in Ss as [Sx Ss].
      simpl. rewrite ?skip_ws_opens by done; simpl.
      rewrite (json_safe_serializable x Sx).
      rewrite (skip_ws_opens (JSON.quote_to _ _)) by done.
      unfold JSON.quote_to at 1. simpl. fold (JSON.quote_to key).
      rewrite (parse_members_print props Hprops Ss key x [] fuel k Hx Sx)
        by (done || lia).
      done.
Qed.

(** ** JSON: the text is long enough to be read with the fuel of [parse] *)

Lemma length_digits_to u k :
  (String.length k <= String.length (JSON.digits_to u k))%nat.
Proof. induction u; simpl; lia. Qed.

Lemma length_number_to n k :
  (String.length k + 1 <= String.length (JSON.number_to n k))%nat.
Proof.
  unfold JSON.number_to. destruct (n <? 0); simpl.
  - pose proof (length_digits_to (N.to_uint (Z.abs_N n)) k). lia.
  - pose proof (canonical_to_uint (Z.abs_N n)) as Hc.
    destruct (N.to_uint (Z.abs_N n)) as [|u|u|u|u|u|u|u|u|u|u]; simpl; [done|..];
      pose proof (length_digits_to u k); lia.
Qed.

Lemma length_quote_char_to c k :
  (String.length k + 1 <= String.length (JSON.quote_char_to c k))%nat.
Proof.
  unfold JSON.quote_char_to.
  repeat (match goal with |- context [if ?b then _ else _] => destruct b end);
    simpl; lia.
Qed.

Lemma length_quote_body_to s k :
  (String.length k <= String.length (JSON.quote_body_to s k))%nat.
Proof.
  induction s as [|c s IH]; simpl; [lia|].
  pose proof (length_quote_char_to c (JSON.quote_body_to s k)). lia.
Qed.

Lemma length_quote_to s k :
  (String.length k + 2 <= String.length (JSON.quote_to s k))%nat.
Proof.
  unfold JSON.quote_to. simpl.
  pose proof (length_quote_body_to s (String JSON.dquote k)). simpl in *. lia.
Qed.


Lemma length_elements_to items :
  Forall long_enough items -> forallb json_safe items = true ->
  forall first k,
    (String.length k + 1 + list_sum (map weight items)
     <= String.length (JSON.elements_to JSON.print_to first items k))%nat.
Proof.
  induction 1 as [|x items Hx _ IH]; intros Hsafe first k; simpl; [lia|].
  simpl in Hsafe. apply andb_prop in Hsafe as [Sx Ss].
  specialize (IH Ss false k).
  specialize (Hx Sx (JSON.elements_to JSON.print_to false items k)).
  destruct first; simpl; lia.
Qed.

Lemma length_members_to props :
  Forall (fun kv => long_enough kv.2) props ->
  forallb (fun kv => json_safe kv.2) props = true ->
  forall first k,
    (String.length k + 1 + list_sum (map (fun kv => weight kv.2) props)
     <= String.length (JSON.members_to JSON.print_to first props k))%nat.
Proof.
  induction 1 as [|[key x] props Hx _ IH]; intros Hsafe first k; simpl; [lia|].
  simpl in Hsafe, Hx. apply andb_prop in Hsafe as [Sx Ss].
  rewrite (json_safe_serializable x Sx).
  specialize (IH Ss false k).
  specialize (Hx Sx (JSON.members_to JSON.print_to false props k)).
  pose proof (length_quote_to key
    (String ":" (JSON.print_to x (JSON.members_to JSON.print_to false props k)))) as Hq.
  simpl in Hq. destruct first; simpl; lia.
Qed.

Lemma print_long_enough v : long_enough v.
Proof.
  induction v as [| |b|n|s|items IH|props IH] using jsval_nested_ind;
    intros Hsafe k.
  - done.
  - simpl. lia.
  - destruct b; simpl; lia.
  - apply length_number_to.
  - pose proof (length_quote_to s k). change (JSON.print_to (JStr s) k)
      with (JSON.quote_to s k). simpl weight. lia.
  - simpl in Hsafe. pose proof (length_elements_to items IH Hsafe true k).
    unfold JSON.print_to; fold JSON.print_to. simpl. lia.
  - simpl in Hsafe. apply andb_prop in Hsafe as [Ss _].
    pose proof (length_members_to props IH Ss true k).
    unfold JSON.print_to; fold JSON.print_to. simpl. lia.
Qed.

(** [JSON.parse(JSON.stringify(v))] is [v] for every safe value. *)
Lemma parse_stringify v :
  json_safe v = true ->
  exists text, JSON.stringify v = Some text /\ JSON.parse text = Some v.
Proof.
  intros Hsafe. exists (JSON.print_to v EmptyString). split.
  - unfold JSON.stringify. by rewrite json_safe_serializable.
  - unfold JSON.parse.
    rewrite (print_reads_back v Hsafe _ EmptyString); [done| |done].
    pose proof (print_long_enough v Hsafe EmptyString). simpl in *. lia.
Qed.

(** ** JSON: the fuel of [parse] is enough for every text *)

Local Arguments JSON.strip_prefix : simpl never.

Ltac use_lengths IHv IHe IHm :=
  repeat match goal with
  | E : JSON.skip_ws ?s = _ |- _ =>
      let L := fresh "L" in
      pose proof (skip_ws_length s) as L; rewrite E in L; clear E
  | E : JSON.parse_chars ?s = Some _ |- _ =>
      apply (parse_chars_length (String.length s) s _ _ (Nat.le_refl _)) in E
  | E : JSON.strip_prefix _ _ = Some _ |- _ => apply strip_prefix_length in E
  | E : JSON.parse_number _ = Some _ |- _ => apply parse_number_length in E
  | E : JSON.parse_value _ _ = Some _ |- _ => apply IHv in E
  | E : JSON.parse_elements _ _ = Some _ |- _ => apply IHe in E
  | E : JSON.parse_members _ _ _ = Some _ |- _ => apply IHm in E
  end.

Lemma parse_length f :
  (forall s v r, JSON.parse_value f s = Some (v, r) ->
     (String.length r <= String.length s)%nat) /\
  (forall s vs r, JSON.parse_elements f s = Some (vs, r) ->
     (String.length r <= String.length s)%nat) /\
  (forall acc s ps r, JSON.parse_members f acc s = Some (ps, r) ->
     (String.length r <= String.length s)%nat).
Proof.
induction f as [|f (IHv & IHe & IHm)]; [by repeat split|].
split; [|split].
- intros s v r H. simpl in H. unfold JSON.value_step, mbind, option_bind in H.
  repeat break_hyp H; try (injection H as <- <-); use_lengths IHv IHe IHm;
    simpl in *; lia.
- intros s vs r H. simpl in H. unfold JSON.elements_step, mbind, option_bind in H.
  repeat break_hyp H; try (injection H as <- <-); use_lengths IHv IHe IHm;
    simpl in *; lia.
- intros acc s ps r H. simpl in H. unfold JSON.members_step, mbind, option_bind in H.
  repeat break_hyp H; try (injection H as <- <-); use_lengths IHv IHe IHm;
    simpl in *; lia.
Qed.

Lemma value_step_ext s pe pe' pm pm' :
  (forall r, (String.length r < String.length s)%nat -> pe r = pe' r) ->
  (forall acc r, (String.length r < String.length s)%nat -> pm acc r = pm' acc r) ->
  JSON.value_step pe pm s = JSON.value_step pe' pm' s.
Proof.
intros He Hm. unfold JSON.value_step.
pose proof (skip_ws_length s) as L.
destruct (JSON.skip_ws s) as [|c r]; [done|]. simpl in L.
rewrite (He r), (Hm [] r) by lia. done.
Qed.

Lemma elements_step_ext s pv pv' pe pe' :
  (forall v r, pv' s = Some (v, r) -> (String.length r <= String.length s)%nat) ->
  pv s = pv' s ->
  (forall r, (String.length r < String.length s)%nat -> pe r = pe' r) ->
  JSON.elements_step pv pe s = JSON.elements_step pv' pe' s.
Proof.
intros Hlen Hv He. unfold JSON.elements_step. rewrite Hv.
destruct (pv' s) as [[v r]|] eqn:E; [|done]. simpl.
specialize (Hlen _ _ eq_refl). pose proof (skip_ws_length r) as L.
destruct (JSON.skip_ws r) as [|c r']; [done|]. simpl in L.
by rewrite (He r') by lia.
Qed.

Lemma members_step_ext s acc pv pv' pm pm' :
  (forall t v r, pv' t = Some (v, r) -> (String.length r <= String.length t)%nat) ->
  (forall r, (String.length r < String.length s)%nat -> pv r = pv' r) ->
  (forall acc r, (String.length r < String.length s)%nat -> pm acc r = pm' acc r) ->
  JSON.members_step pv pm acc s = JSON.members_step pv' pm' acc s.
Proof.
intros Hlen Hv Hm. unfold JSON.members_step.
pose proof (skip_ws_length s) as L0.
destruct (JSON.skip_ws s) as [|q r0]; [done|]. simpl in L0.
destruct (N_of_ascii q =? 34)%N; [|done].
destruct (JSON.parse_chars r0) as [[key r1]|] eqn:E1; [|done]. simpl.
apply (parse_chars_length _ _ _ _ (Nat.le_refl _)) in E1.
pose proof (skip_ws_length r1) as L1.
destruct (JSON.skip_ws r1) as [|colon r2]; [done|]. simpl in L1.
destruct (N_of_ascii colon =? 58)%N; [|done].
rewrite (Hv r2) by lia.
destruct (pv' r2) as [[v r3]|] eqn:E3; [|done]. simpl.
apply Hlen in E3. pose proof (skip_ws_length r3) as L3.
destruct (JSON.skip_ws r3) as [|c r']; [done|]. simpl in L3.
by rewrite (Hm _ r') by lia.
Qed.

Lemma fuel_step f :
  (forall s, (2 * String.length s + 1 <= f)%nat ->
     JSON.parse_value (S f) s = JSON.parse_value f s) /\
  (forall s, (2 * String.length s + 2 <= f)%nat ->
     JSON.parse_elements (S f) s = JSON.parse_elements f s) /\
  (forall acc s, (2 * String.length s + 2 <= f)%nat ->
     JSON.parse_members (S f) acc s = JSON.parse_members f acc s).
Proof.
induction f as [|f (IHv & IHe & IHm)]; [repeat split; intros; lia|].
split; [|split].
- intros s Hs.
  change (JSON.value_step (JSON.parse_elements (S f)) (JSON.parse_members (S f)) s
          = JSON.value_step (JSON.parse_elements f) (JSON.parse_members f) s).
  apply value_step_ext; intros; [apply IHe|apply IHm]; lia.
- intros s Hs.
  change (JSON.elements_step (JSON.parse_value (S f)) (JSON.parse_elements (S f)) s
          = JSON.elements_step (JSON.parse_value f) (JSON.parse_elements f) s).
  apply elements_step_ext.
  + apply (parse_length f).
  + apply IHv. lia.
  + intros r Hr. apply IHe. lia.
- intros acc s Hs.
  change (JSON.members_step (JSON.parse_value (S f)) (JSON.parse_members (S f)) acc s
          = JSON.members_step (JSON.parse_value f) (JSON.parse_members f) acc s).
  apply members_step_ext.
  + apply (parse_length f).
  + intros r Hr. apply IHv. lia.
  + intros acc' r Hr. apply IHm. lia.
Qed.

(** More fuel than [parse] supplies changes nothing. *)
Lemma parse_value_fuel_enough s extra :
  JSON.parse_value (2 * String.length s + 2 + extra) s
  = JSON.parse_value (2 * String.length s + 2) s.
Proof.
induction extra as [|extra IH]; [by rewrite Nat.add_0_r|].
rewrite <- IH.
replace (2 * String.length s + 2 + S extra)%nat
  with (S (2 * String.length s + 2 + extra)) by lia.
apply fuel_step. lia.
Qed.

(** ** The bounded log *)

Lemma slice_last_length {A} n (l : list A) :
  length (slice_last n l) = Nat.min (length l) n.
Proof. unfold slice_last. rewrite length_drop. lia. Qed.

Lemma slice_last_short {A} n (l : list A) :
  (length l <= n)%nat -> slice_last n l = l.
Proof. intros H. unfold slice_last. by replace (length l - n)%nat with O by lia. Qed.

(** Trimming early does not change what a later trim keeps. *)
Lemma slice_last_app {A} n (l r : list A) :
  slice_last n (slice_last n l ++ r) = slice_last n (l ++ r).
Proof.
  destruct (decide (length l <= n)%nat) as [Hle|Hgt].
  - by rewrite (slice_last_short n l).
  - unfold slice_last at 1 3. rewrite !length_app, slice_last_length.
    unfold slice_last.
    replace (length l `min` n + length r - n)%nat with (length r) by lia.
    replace (length l + length r - n)%nat
      with ((length l - n) + length r)%nat by lia.
    rewrite <- drop_drop. f_equal.
    rewrite drop_app_le by lia. done.
Qed.

(** What the trim drops is a front part, and it drops nothing below the cap. *)
Lemma slice_last_split {A} n (l : list A) :
  exists evicted, l = evicted ++ slice_last n l /\
                  (evicted = [] \/ length (slice_last n l) = n).
Proof.
  exists (take (length l - n) l). split.
  - unfold slice_last. by rewrite take_drop.
  - destruct (decide (length l <= n)%nat) as [Hle|Hgt].
    + left. by replace (length l - n)%nat with O by lia.
    + right. rewrite slice_last_length. lia.
Qed.

(** ** The batching logger: what one call does to the log and the queue *)

Section batch_calls.
Import Batch.
Variable cfg : config.

Lemma saveToStorage_entries w l :
  entries w = JArr l ->
  entries (saveToStorage w) = JArr (slice_last MAX_ENTRIES l).
Proof.
  intros Hl. unfold saveToStorage. rewrite Hl.
  assert ((if (MAX_ENTRIES <? length l)%nat then slice_last MAX_ENTRIES l else l)
          = slice_last MAX_ENTRIES l) as ->.
  { destruct (Nat.ltb_spec MAX_ENTRIES (length l)); [done|].
    by rewrite slice_last_short. }
  by destruct (setItem _ _ _).
Qed.

Lemma saveToStorage_pending w :
  pendingEntries (saveToStorage w) = pendingEntries w.
Proof.
  unfold saveToStorage. destruct (entries w); try done.
  by destruct (setItem _ _ _).
Qed.

Lemma debug_entries e m d w : entries (debug cfg e m d w) = entries w.
Proof. unfold debug. by destruct (_ || _). Qed.

Lemma debug_pending e m d w :
  pendingEntries (debug cfg e m d w) = pendingEntries w.
Proof. unfold debug. by destruct (_ || _). Qed.

Lemma debug_storage e m d w :
  localStorage (debug cfg e m d w) = localStorage w.
Proof. unfold debug. by destruct (_ || _). Qed.

Lemma trackPageView_spec e w l :
  entries w = JArr l ->
  exists w', trackPageView cfg e w = (w', Ok JUndefined) /\
             appended (pageview_entry cfg e) l w w'.
Proof.
  intros Hl. unfold trackPageView. rewrite Hl. simpl.
  eexists. split; [reflexivity|]. split.
  - by rewrite debug_entries, (saveToStorage_entries _ (l ++ [pageview_entry cfg e])).
  - by rewrite debug_pending, saveToStorage_pending.
Qed.

Lemma logError_spec e message data w l :
  entries w = JArr l ->
  exists w', logError cfg e message data w
             = (w', Ok (error_entry cfg e message data)) /\
             appended (error_entry cfg e message data) l w w'.
Proof.
  intros Hl. unfold logError. rewrite Hl. simpl.
  eexists. split; [reflexivity|]. split.
  - by rewrite debug_entries,
      (saveToStorage_entries _ (l ++ [error_entry cfg e message data])).
  - by rewrite debug_pending, saveToStorage_pending.
Qed.

Lemma log_spec e message data w l :
  entries w = JArr l ->
  exists w', log cfg e message data w
             = (w', Ok (log_entry cfg e message data)) /\
             appended (log_entry cfg e message data) l w w'.
Proof.
  intros Hl. unfold log. rewrite Hl. simpl.
  eexists. split; [reflexivity|]. split.
  - by rewrite (saveToStorage_entries _ (l ++ [log_entry cfg e message data])).
  - by rewrite saveToStorage_pending.
Qed.

Lemma capture_spec e c w l :
  entries w = JArr l ->
  exists w', capture cfg e c w = (w', Ok (entry_of cfg e c)) /\
             appended (entry_of cfg e c) l w w'.
Proof. destruct c; simpl; [apply log_spec | apply logError_spec]. Qed.

(** A run of capture calls on a trimmed log. *)
Lemma run_spec calls : forall w l0,
  entries w = JArr (slice_last MAX_ENTRIES l0) ->
  exists w', run cfg calls w = (w', Ok JUndefined) /\
             entries w' = JArr (slice_last MAX_ENTRIES (l0 ++ created cfg calls)) /\
             pendingEntries w' = pendingEntries w ++ created cfg calls.
Proof.
  induction calls as [|[e c] calls IH]; intros w l0 Hl; simpl.
  - exists w. by rewrite !app_nil_r.
  - destruct (capture_spec e c w _ Hl) as (w1 & -> & Hentries & Hpending).
    simpl. rewrite slice_last_app in Hentries.
    destruct (IH w1 _ Hentries) as (w' & -> & He' & Hp').
    exists w'. split; [done|]. split.
    + rewrite He'. by rewrite <- app_assoc.
    + rewrite Hp', Hpending. by rewrite <- app_assoc.
Qed.

Lemma init_spec e w l0 :
  trackPageViews cfg = true ->
  entries (loadFromStorage w) = JArr l0 ->
  exists w', init cfg e w = (w', Ok JUndefined) /\
             entries w' = JArr (slice_last MAX_ENTRIES (l0 ++ [pageview_entry cfg e])) /\
             pendingEntries w' = pendingEntries w ++ [pageview_entry cfg e].
Proof.
  intros Htrack Hl. unfold init. rewrite Htrack.
  destruct (trackPageView_spec e _ _ Hl) as (w1 & -> & Hentries & Hpending).
  simpl. eexists. split; [reflexivity|].
  rewrite debug_entries, debug_pending.
  by destruct (truthy_str (apiEndpoint cfg)).
Qed.
End batch_calls.

(** ** The simple logger: what one call does to the log *)

Section simple_calls.
Import Simple.

Lemma saveLogs_logs w l :
  logs w = JArr l -> logs (saveLogs w) = JArr (slice_last MAX_LOGS l).
Proof.
  intros Hl. unfold saveLogs. rewrite Hl.
  assert ((if (MAX_LOGS <? length l)%nat then slice_last MAX_LOGS l else l)
          = slice_last MAX_LOGS l) as ->.
  { destruct (Nat.ltb_spec MAX_LOGS (length l)); [done|].
    by rewrite slice_last_short. }
  by destruct (setItem _ _ _).
Qed.

Lemma simple_log_spec e level message data w l :
  logs w = JArr l ->
  exists w', log e level message data w = (w', Ok JUndefined) /\
             logs w' = JArr (slice_last MAX_LOGS (l ++ [log_entry e level message data])).
Proof.
  intros Hl. unfold log. rewrite Hl. simpl.
  eexists. split; [reflexivity|].
  destruct (String.eqb _ _); simpl;
    by rewrite (saveLogs_logs _ (l ++ [log_entry e level message data])).
Qed.

Lemma simple_capture_spec e c w l :
  logs w = JArr l ->
  exists w', capture e c w = (w', Ok JUndefined) /\
             logs w' = JArr (slice_last MAX_LOGS (l ++ [entry_of e c])).
Proof.
  intros Hl. destruct c as [level m d|m d|m d|m d]; simpl.
  - by apply simple_log_spec.
  - unfold info. destruct (simple_log_spec e (JStr "INFO") m d w l Hl) as (w' & -> & H).
    by exists w'.
  - unfold warn. destruct (simple_log_spec e (JStr "WARN") m d w l Hl) as (w' & -> & H).
    by exists w'.
  - unfold error. destruct (simple_log_spec e (JStr "ERROR") m d w l Hl) as (w' & -> & H).
    by exists w'.
Qed.

Lemma simple_run_spec calls : forall w l0,
  logs w = JArr (slice_last MAX_LOGS l0) ->
  exists w', run calls w = (w', Ok JUndefined) /\
             logs w' = JArr (slice_last MAX_LOGS (l0 ++ created calls)).
Proof.
  induction calls as [|[e c] calls IH]; intros w l0 Hl; simpl.
  - exists w. by rewrite !app_nil_r.
  - destruct (simple_capture_spec e c w _ Hl) as (w1 & -> & Hlogs).
    simpl. rewrite slice_last_app in Hlogs.
    destruct (IH w1 _ Hlogs) as (w' & -> & Hl').
    exists w'. split; [done|]. rewrite Hl'. by rewrite <- app_assoc.
Qed.

Lemma simple_init_spec e w l0 :
  logs (loadLogs w) = JArr l0 ->
  exists w', init e w = (w', Ok JUndefined) /\
             logs w' = JArr (slice_last MAX_LOGS
                 (l0 ++ [log_entry e (JStr "INFO") (JStr "Page View") (pageview_data e)])).
Proof.
  intros Hl. unfold init, logPageView, info.
  destruct (simple_log_spec e (JStr "INFO") (JStr "Page View") (pageview_data e) _ _ Hl)
    as (w1 & -> & Hlogs).
  simpl. eexists. split; [reflexivity|]. done.
Qed.
End simple_calls.

(** ** The length of the durable log *)

Lemma batch_log_after_page_load cfg e st calls l0 :
  Batch.trackPageViews cfg = true ->
  batch_loaded e st = JArr l0 ->
  batch_log_after cfg e st calls l0.
Proof.
intros Htrack Hload. unfold batch_log_after, batch_page_load.
destruct (init_spec cfg e _ l0 Htrack Hload) as (w1 & -> & Hentries & _).
simpl. destruct (run_spec cfg calls w1 _ Hentries) as (w & -> & He & _).
exists w. split; [done|]. split.
- rewrite He. by rewrite <- app_assoc.
- rewrite slice_last_length, length_app. simpl.
  unfold Batch.created. rewrite length_map. lia.
Qed.

Lemma simple_log_after_page_load e st calls l0 :
  simple_loaded st = JArr l0 ->
  simple_log_after e st calls l0.
Proof.
intros Hload. unfold simple_log_after, simple_page_load.
destruct (simple_init_spec e _ l0 Hload) as (w1 & -> & Hlogs).
simpl. destruct (simple_run_spec calls w1 _ Hlogs) as (w & -> & Hl).
exists w. split; [done|]. split.
- rewrite Hl. by rewrite <- app_assoc.
- rewrite slice_last_length, length_app. simpl.
  unfold Simple.created. rewrite length_map. lia.
Qed.



(** On a first visit, 101 calls leave a log of 100 entries whose first is
    the entry of the second call: the page view and the first call's entry
    were evicted. *)
Lemma first_of_the_log_after_101_calls cfg e st calls :
  Batch.trackPageViews cfg = true ->
  batch_loaded e st = JArr [] ->
  length calls = 101%nat ->
  exists w l,
    batch_page_load cfg e st calls = (w, Ok JUndefined) /\
    Batch.entries w = JArr l /\
    length l = 100%nat /\
    l !! 0%nat = Batch.created cfg calls !! 1%nat.
Proof.
intros Htrack Hload Hlen.
destruct (batch_log_after_page_load cfg e st calls [] Htrack Hload)
  as (w & Hrun & Hentries & Hl).
simpl in Hentries, Hl. eexists w, _. split; [done|]. split; [done|].
split; [rewrite Hl, Hlen; reflexivity|].
unfold slice_last. simpl. unfold Batch.created at 1. rewrite length_map, Hlen.
simpl. by rewrite lookup_drop.
Qed.


(** ** Flushing the pending queue *)

Section batch_flush.
Import Batch.
Variable cfg : config.

Lemma on_settled_failed batch o w :
  failed o -> on_settled batch o w = requeue batch w.
Proof.
  intros Ho. unfold on_settled.
  destruct Ho as [m|text m Hparse|text m v Hparse Hv]; simpl.
  - done.
  - by rewrite Hparse.
  - rewrite Hparse. destruct v; simpl in *; try done. by rewrite Hv.
Qed.

(** Whatever the outcome, the callbacks leave the queue alone or put the
    batch back in front. *)
Lemma on_settled_cases batch o w :
  on_settled batch o w = w \/ on_settled batch o w = requeue batch w.
Proof.
  unfold on_settled.
  destruct (get_prop (api_result o) "success") as [v|x]; simpl; [|by right].
  destruct (truthy v); simpl; [by left|by right].
Qed.

Lemma run_pending calls : forall w w',
  run cfg calls w = (w', Ok JUndefined) ->
  pendingEntries w' = pendingEntries w ++ created cfg calls.
Proof.
  induction calls as [|[e c] calls IH]; intros w w' Hrun; simpl in *.
  - injection Hrun as <-. by rewrite app_nil_r.
  - destruct (entries w) as [| | | | |l|] eqn:Hl;
      try (destruct c; simpl in Hrun; unfold log, logError in Hrun;
           rewrite Hl in Hrun; simpl in Hrun; discriminate).
    destruct (capture_spec cfg e c w l Hl) as (w1 & Hc & _ & Hp).
    rewrite Hc in Hrun. simpl in Hrun.
    rewrite (IH _ _ Hrun), Hp. by rewrite <- app_assoc.
Qed.
End batch_flush.



(** ** Entries enter both views and leave them in three ways *)

Lemma appended_records entry l w w' :
  appended entry l w w' -> records entry l w w'.
Proof.
  intros [Hentries Hpending]. split; [done|].
  exists (slice_last Batch.MAX_ENTRIES (l ++ [entry])). split; [done|].
  destruct (slice_last_split Batch.MAX_ENTRIES (l ++ [entry])) as (ev & Hsplit & Hcap).
  by exists ev.
Qed.




(** ** Equality of values *)

Lemma jsval_beq_eq a : forall b, jsval_beq a b = true <-> a = b.
Proof.
induction a as [| |x|x|x|xs IH|ps IH] using jsval_nested_ind;
  intros [| |y|y|y|ys|qs]; simpl; try (split; (done || discriminate)).
- destruct x, y; simpl; split; (done || discriminate).
- rewrite Z.eqb_eq. split; [by intros ->|by intros [= ->]].
- rewrite String.eqb_eq. split; [by intros ->|by intros [= ->]].
- revert ys. induction IH as [|x xs Hx _ IHxs]; intros [|y ys];
    try (split; (done || discriminate)).
  rewrite andb_true_iff, Hx, IHxs. split.
  + by intros [-> [= ->]].
  + by intros [= -> ->].
- revert qs. induction IH as [|[k x] ps Hx _ IHps]; intros [|[k' y] qs];
    try (split; (done || discriminate)).
  simpl in Hx. rewrite !andb_true_iff, String.eqb_eq, Hx, IHps. split.
  + by intros [[-> ->] [= ->]].
  + by intros [= -> -> ->].
Qed.

(** On primitives, [===] is equality. *)
Lemma strict_eq_primitive a b :
  is_primitive b = true -> strict_eq a b = true <-> a = b.
Proof.
destruct a as [| |x|x|x|xs|ps], b as [| |y|y|y|ys|qs]; simpl;
  intros Hb; try (split; (done || discriminate)).
- destruct x, y; simpl; split; (done || discriminate).
- rewrite Z.eqb_eq. split; [by intros ->|by intros [= ->]].
- rewrite String.eqb_eq. split; [by intros ->|by intros [= ->]].
Qed.

(** ** Reading the log by level *)

Lemma filter_level_with_level level l :
  is_primitive level = true ->
  Forall (fun x => nullish x = false) l ->
  Simple.filter_level level l = Ok (with_level level l).
Proof.
intros Hlevel. induction 1 as [|x l Hx _ IH]; simpl; [done|].
assert (get_prop x "level" = Ok (level_of x)) as -> by by destruct x.
simpl. rewrite IH. simpl. unfold with_level. simpl.
assert (jsval_beq (level_of x) level = strict_eq (level_of x) level) as ->; [|done].
destruct (strict_eq (level_of x) level) eqn:E.
- apply strict_eq_primitive in E; [|done]. by apply jsval_beq_eq.
- destruct (jsval_beq (level_of x) level) eqn:B; [|done].
  apply jsval_beq_eq, (strict_eq_primitive _ _ Hlevel) in B. congruence.
Qed.

(** [with_level] keeps the entries whose level is [level], and only those. *)
Lemma elem_of_with_level level l x :
  x ∈ with_level level l <-> x ∈ l /\ level_of x = level.
Proof.
unfold with_level. rewrite !list_elem_of_In, filter_In.
by rewrite jsval_beq_eq.
Qed.

(** C4 (as amended): [getEntries] of the batching logger takes no filter and
    returns the whole durable log whatever it is called with; [getLogs] of
    the simple logger, called with a truthy primitive level (a non-empty
    string), returns exactly the entries of the log whose [level] equals it,
    in their original order, and called with no level or a falsy one it
    returns the whole log. *)
Theorem level_filter_of_each_logger :
  (forall args w, Batch.getEntries args w = (w, Ok (Batch.entries w))) /\
  (forall level w l,
     Simple.logs w = JArr l ->
     Forall (fun x => nullish x = false) l ->
     is_primitive level = true ->
     truthy level = true ->
     Simple.getLogs level w = (w, Ok (JArr (with_level level l)))) /\
  (forall level w,
     truthy level = false ->
     Simple.getLogs level w = (w, Ok (Simple.logs w))).
Proof.
split; [done|]. split.
- intros level w l Hl Hobj Hprim Htruthy. unfold Simple.getLogs.
  by rewrite Htruthy, Hl, filter_level_with_level.
- intros level w Hfalsy. unfold Simple.getLogs. by rewrite Hfalsy.
Qed.

(** The ERROR entries of a log with one entry of each level. *)
Lemma level_filter_witness :
  Simple.logs simple_busy_world = JArr (log_items (Simple.logs simple_busy_world)) /\
  Forall (fun x => nullish x = false) (log_items (Simple.logs simple_busy_world)) /\
  is_primitive (JStr "ERROR") = true /\
  truthy (JStr "ERROR") = true /\
  Simple.getLogs (JStr "ERROR") simple_busy_world
    = (simple_busy_world,
       Ok (JArr (with_level (JStr "ERROR")
                   (log_items (Simple.logs simple_busy_world))))).
Proof.
assert (Forall (fun x => nullish x = false)
          (log_items (Simple.logs simple_busy_world))) as Hobj
  by (vm_compute; repeat constructor).
split; [reflexivity|]. split; [exact Hobj|].
split; [reflexivity|]. split; [reflexivity|].
apply (proj1 (proj2 level_filter_of_each_logger)); [reflexivity|exact Hobj|..];
  reflexivity.
Defined.

(** C4 (as stated) fails on the batching logger: asked for the ERROR
    entries of a log that holds a page view, two INFO entries and one ERROR
    entry, [getEntries] returns all four. *)
Lemma getEntries_ignores_level :
  ~ getEntries_filters_by_level (JStr "ERROR") busy_world.
Proof.
intros H.
specialize (H (log_items (Batch.entries busy_world)) eq_refl).
apply (f_equal (fun c => match c.2 with
                         | Ok v => length (log_items v)
                         | Throw _ => O
                         end)) in H.
vm_compute in H. discriminate.
Qed.

(** ** What a capture call returns and writes *)

Lemma saveToStorage_storage w l :
  Batch.entries w = JArr l ->
  write_attempted (Batch.localStorage w)
    (JSON.print_to (JArr (slice_last Batch.MAX_ENTRIES l)) EmptyString)
    (Batch.localStorage (Batch.saveToStorage w)).
Proof.
intros Hl. unfold Batch.saveToStorage, write_attempted. rewrite Hl.
assert ((if (Batch.MAX_ENTRIES <? length l)%nat
         then slice_last Batch.MAX_ENTRIES l else l)
        = slice_last Batch.MAX_ENTRIES l) as ->.
{ destruct (Nat.ltb_spec Batch.MAX_ENTRIES (length l)); [done|].
  by rewrite slice_last_short. }
simpl. by destruct (setItem _ _ _).
Qed.

Lemma saveLogs_storage w l :
  Simple.logs w = JArr l ->
  write_attempted (Simple.localStorage w)
    (JSON.print_to (JArr (slice_last Simple.MAX_LOGS l)) EmptyString)
    (Simple.localStorage (Simple.saveLogs w)).
Proof.
intros Hl. unfold Simple.saveLogs, write_attempted. rewrite Hl.
assert ((if (Simple.MAX_LOGS <? length l)%nat
         then slice_last Simple.MAX_LOGS l else l)
        = slice_last Simple.MAX_LOGS l) as ->.
{ destruct (Nat.ltb_spec Simple.MAX_LOGS (length l)); [done|].
  by rewrite slice_last_short. }
simpl. change Simple.STORAGE_KEY with Batch.STORAGE_KEY.
by destruct (setItem _ _ _).
Qed.

Lemma simple_log_storage e level message data w l :
  Simple.logs w = JArr l ->
  write_attempted (Simple.localStorage w)
    (JSON.print_to
       (JArr (slice_last 100 (l ++ [Simple.log_entry e level message data])))
       EmptyString)
    (Simple.localStorage (Simple.log e level message data w).1).
Proof.
intros Hl. unfold Simple.log. rewrite Hl. simpl.
pose proof (saveLogs_storage
  (Simple.set_logs w (JArr (l ++ [Simple.log_entry e level message data])))
  _ eq_refl) as H.
by destruct (String.eqb _ _).
Qed.

(** C5 (as amended): in the batching logger every capture call ([log],
    [logError]) constructs an entry with a freshly generated id and the
    current timestamp, appends it to the durable log and to the pending
    queue, attempts to write the durable log to storage (the slot holds it
    when the write is accepted) and returns the created entry; in the
    simple logger every capture call ([log], [info], [warn], [error])
    constructs an entry with the current timestamp and no id, appends it to
    the durable log, attempts the same write, and returns [undefined]. *)
Theorem capture_creates_appends_writes :
  (forall cfg e c w l,
     Batch.entries w = JArr l -> batch_capture_effect cfg e c l w) /\
  (forall e c w l,
     Simple.logs w = JArr l -> simple_capture_effect e c l w).
Proof.
split.
- intros cfg e c w l Hl. unfold batch_capture_effect.
  destruct (capture_spec cfg e c w l Hl) as (w' & Hc & Hentries & Hpending).
  exists w'. split; [done|]. split; [by destruct c|]. split; [by destruct c|].
  split; [done|]. split; [done|].
  assert (w' = (Batch.capture cfg e c w).1) as -> by by rewrite Hc.
  destruct c as [m d|m d]; simpl; unfold Batch.log, Batch.logError;
    rewrite Hl; simpl; rewrite ?debug_storage;
    match goal with
    | |- write_attempted _ _ (Batch.localStorage (Batch.saveToStorage ?w0)) =>
        exact (saveToStorage_storage w0 _ eq_refl)
    end.
- intros e c w l Hl. unfold simple_capture_effect.
  destruct (simple_capture_spec e c w l Hl) as (w' & Hc & Hlogs).
  exists w'. split; [done|]. split; [by destruct c|]. split; [by destruct c|].
  split; [done|].
  assert (w' = (Simple.capture e c w).1) as -> by by rewrite Hc.
  destruct c as [lv m d|m d|m d|m d]; simpl.
  + by apply simple_log_storage.
  + unfold Simple.info.
    pose proof (simple_log_storage e (JStr "INFO") m d w l Hl) as H.
    by destruct (Simple.log e (JStr "INFO") m d w) as [w1 [v|x]].
  + unfold Simple.warn.
    pose proof (simple_log_storage e (JStr "WARN") m d w l Hl) as H.
    by destruct (Simple.log e (JStr "WARN") m d w) as [w1 [v|x]].
  + unfold Simple.error.
    pose proof (simple_log_storage e (JStr "ERROR") m d w l Hl) as H.
    by destruct (Simple.log e (JStr "ERROR") m d w) as [w1 [v|x]].
Qed.

(** [logError("boom", {x: 1})] on the object that made three calls. *)
Lemma capture_creates_appends_writes_witness :
  Batch.entries busy_world = JArr (log_items (Batch.entries busy_world)) /\
  batch_capture_effect sending_config sample_env
    (Batch.CallLogError (JStr "boom") (JObj [("x", JNum 1)]))
    (log_items (Batch.entries busy_world)) busy_world.
Proof.
split; [reflexivity|].
by apply (proj1 capture_creates_appends_writes).
Defined.

(** C5 (as stated) fails on the simple logger: [info] returns [undefined],
    not an entry with an id. *)
Lemma simple_info_returns_undefined :
  ~ simple_capture_returns_entry_with_id sample_env
      (Simple.CallInfo (JStr "hello") JNull) simple_busy_world.
Proof.
intros (entry & id & Hret & Hid).
vm_compute in Hret. injection Hret as <-. discriminate.
Qed.

(** ** Loading at startup *)

(** A slot that cannot be read, is absent, is empty or does not parse
    gives the empty log. *)
Lemma load_unreadable_is_empty e st :
  blocked st = true -> batch_loaded e st = JArr [].
Proof.
intros Hb. unfold batch_loaded, Batch.loadFromStorage, getItem. simpl.
by rewrite Hb.
Qed.

Lemma load_absent_is_empty e st :
  items st !! Batch.STORAGE_KEY = None -> batch_loaded e st = JArr [].
Proof.
intros Hnone. unfold batch_loaded, Batch.loadFromStorage, getItem. simpl.
destruct (blocked st); [done|]. simpl. by rewrite Hnone.
Qed.

Lemma load_invalid_is_empty e st text :
  items st !! Batch.STORAGE_KEY = Some text ->
  JSON.parse text = None ->
  batch_loaded e st = JArr [].
Proof.
intros Hsome Hparse. unfold batch_loaded, Batch.loadFromStorage, getItem. simpl.
destruct (blocked st); [done|]. simpl. rewrite Hsome. simpl.
destruct (negb _); [|done]. by rewrite Hparse.
Qed.

(** A slot that parses is taken as it is, array or not. *)
Lemma load_valid_is_kept e st text v :
  blocked st = false ->
  items st !! Batch.STORAGE_KEY = Some text ->
  text <> EmptyString ->
  JSON.parse text = Some v ->
  batch_loaded e st = v.
Proof.
intros Hb Hsome Hne Hparse.
unfold batch_loaded, Batch.loadFromStorage, getItem. simpl.
rewrite Hb. simpl. rewrite Hsome. simpl.
apply String.eqb_neq in Hne. rewrite Hne. simpl. by rewrite Hparse.
Qed.

(** C6, on the code: a stored value that is valid JSON but not an array
    (here the text of an empty object) is not discarded.  [loadFromStorage]
    makes it the durable log, the [push] of the page view then raises a
    TypeError out of [init], and so does every later capture call; the
    simple logger does the same. *)
Theorem stored_object_becomes_the_log :
  batch_loaded sample_env (storage_holding "{}") = JObj [] /\
  (after_init Batch.defaultConfig (storage_holding "{}")).2 = Throw TypeError /\
  (Batch.log Batch.defaultConfig sample_env (JStr "later") JNull
     (after_init Batch.defaultConfig (storage_holding "{}")).1).2
    = Throw TypeError /\
  simple_loaded (storage_holding "{}") = JObj [] /\
  (Simple.init sample_env (Simple.fresh (storage_holding "{}"))).2
    = Throw TypeError.
Proof. repeat split; vm_compute; reflexivity. Qed.

(** ** Storage that raises *)

(** C7, on the code: [clear] calls [removeItem] outside any [try]; with
    storage disabled the two in-memory assignments are made and the
    SecurityError then propagates to the caller.  [clearLogs] of the simple
    logger does the same. *)
Theorem clear_raises_when_storage_is_disabled :
  (forall w,
     blocked (Batch.localStorage w) = true ->
     Batch.clear w
       = (Batch.set_pending (Batch.set_entries w (JArr [])) [],
          Throw SecurityError)) /\
  (forall w,
     blocked (Simple.localStorage w) = true ->
     Simple.clearLogs w = (Simple.set_logs w (JArr []), Throw SecurityError)).
Proof.
split; intros w Hb.
- unfold Batch.clear, removeItem. simpl. by rewrite Hb.
- unfold Simple.clearLogs, removeItem. simpl. by rewrite Hb.
Qed.

(** [clear] on a page whose storage is disabled. *)
Lemma clear_raises_witness :
  blocked (Batch.localStorage (Batch.fresh sample_env disabled_storage)) = true /\
  Batch.clear (Batch.fresh sample_env disabled_storage)
    = (Batch.set_pending
         (Batch.set_entries (Batch.fresh sample_env disabled_storage) (JArr [])) [],
       Throw SecurityError).
Proof.
split; [reflexivity|].
by apply (proj1 clear_raises_when_storage_is_disabled).
Defined.

(** The other operations read and write storage inside [try]: with the
    same storage, [init] and a capture call complete. *)
Lemma init_and_capture_swallow_disabled_storage cfg e c :
  Batch.trackPageViews cfg = true ->
  exists w w',
    Batch.init cfg e (Batch.fresh e disabled_storage) = (w, Ok JUndefined) /\
    Batch.capture cfg e c w = (w', Ok (Batch.entry_of cfg e c)).
Proof.
intros Htrack.
destruct (init_spec cfg e (Batch.fresh e disabled_storage) [] Htrack eq_refl)
  as (w & Hinit & Hentries & _).
destruct (capture_spec cfg e c w _ Hentries) as (w' & Hc & _).
by exists w, w'.
Qed.

(** ** Saving and reloading the log *)

Lemma setItem_accepted st key value st' :
  setItem st key value = Ok st' ->
  blocked st' = false /\ items st' = <[key := value]> (items st).
Proof.
unfold setItem. destruct (blocked st) eqn:Hb; [discriminate|].
destruct (capacity st) as [c|];
  [destruct (c <? String.length value)%nat; [discriminate|]|];
  intros [= <-]; by simpl.
Qed.

Lemma print_array_not_empty items : JSON.print_to (JArr items) EmptyString <> EmptyString.
Proof. done. Qed.




(** ** The queue holds what this page load created *)

Lemma init_pending cfg e w0 w :
  Batch.init cfg e w0 = (w, Ok JUndefined) ->
  Batch.pendingEntries w
    = Batch.pendingEntries w0
      ++ (if Batch.trackPageViews cfg then [Batch.pageview_entry cfg e] else []).
Proof.
unfold Batch.init. destruct (Batch.trackPageViews cfg).
- unfold Batch.trackPageView.
  destruct (push _ _) as [es|x]; simpl; [|discriminate].
  intros [= <-]. rewrite debug_pending.
  destruct (truthy_str _); simpl; by rewrite debug_pending, saveToStorage_pending.
- simpl. intros [= <-]. rewrite debug_pending.
  destruct (truthy_str _); simpl; by rewrite app_nil_r.
Qed.

(** After [init] and a run of capture calls, the queue is the page view
    followed by the created entries, and a flush sends a front part of it. *)
Lemma queue_after_calls cfg e st calls w w2 :
  Batch.init cfg e (Batch.fresh e st) = (w, Ok JUndefined) ->
  Batch.run cfg calls w = (w2, Ok JUndefined) ->
  queue_is_of_this_page_load cfg e calls w w2.
Proof.
intros Hinit Hrun. unfold queue_is_of_this_page_load.
pose proof (init_pending _ _ _ _ Hinit) as Hw. simpl in Hw.
pose proof (run_pending _ _ _ _ Hrun) as Hw2.
split; [done|]. split; [done|].
intros e' w3 fl. unfold Batch.flush, Batch.sendPendingData.
destruct (_ || _); [discriminate|]. simpl.
intros [= _ <-]. simpl. by rewrite Hw2.
Qed.

(** An operation that creates an entry appends it to the queue, unless it
    raised before. *)
Lemma trackPageView_pending cfg e w :
  Batch.pendingEntries (Batch.trackPageView cfg e w).1 = Batch.pendingEntries w \/
  Batch.pendingEntries (Batch.trackPageView cfg e w).1
    = Batch.pendingEntries w ++ [Batch.pageview_entry cfg e].
Proof.
unfold Batch.trackPageView. destruct (push _ _); simpl; [right|by left].
by rewrite debug_pending, saveToStorage_pending.
Qed.

Lemma logError_pending cfg e message data w :
  Batch.pendingEntries (Batch.logError cfg e message data w).1
    = Batch.pendingEntries w \/
  Batch.pendingEntries (Batch.logError cfg e message data w).1
    = Batch.pendingEntries w ++ [Batch.error_entry cfg e message data].
Proof.
unfold Batch.logError. destruct (push _ _); simpl; [right|by left].
by rewrite debug_pending, saveToStorage_pending.
Qed.

Lemma log_pending cfg e message data w :
  Batch.pendingEntries (Batch.log cfg e message data w).1
    = Batch.pendingEntries w \/
  Batch.pendingEntries (Batch.log cfg e message data w).1
    = Batch.pendingEntries w ++ [Batch.log_entry cfg e message data].
Proof.
unfold Batch.log. destruct (push _ _); simpl; [right|by left].
by rewrite saveToStorage_pending.
Qed.

Lemma and_then_keeps_world c v :
  (Batch.and_then c (fun w' _ => (w', Ok v))).1 = c.1.
Proof. by destruct c as [w [x|x]]. Qed.

(** The queue after an operation: what it was, less a batch a flush took,
    plus the entry the operation created. *)
Lemma step_pending cfg o w x :
  x ∈ Batch.pendingEntries (Batch.step cfg o w).1 ->
  x ∈ Batch.pendingEntries w \/ x ∈ created_by cfg (Calls o) \/
  exists batch o', o = Batch.OpSettled batch o' /\ x ∈ batch.
Proof.
destruct o as [e|e c|e m src ln col err|e reason|e|batch o|args|]; simpl.
- destruct (trackPageView_pending cfg e w) as [-> | ->]; [by left|].
  rewrite elem_of_app. intros [?|?]; [by left|by right; left].
- destruct c as [m d|m d]; simpl.
  + destruct (log_pending cfg e m d w) as [-> | ->]; [by left|].
    rewrite elem_of_app. intros [?|?]; [by left|by right; left].
  + destruct (logError_pending cfg e m d w) as [-> | ->]; [by left|].
    rewrite elem_of_app. intros [?|?]; [by left|by right; left].
- unfold Batch.handleError. destruct (Batch.stack_of err) as [stack|]; [|by left].
  rewrite and_then_keeps_world.
  match goal with
  | |- context [Batch.logError cfg e ?m ?d w] =>
      destruct (logError_pending cfg e m d w) as [-> | ->]
  end; [by left|].
  rewrite elem_of_app. intros [?|?]; [by left|by right; left].
- unfold Batch.handlePromiseRejection.
  destruct (Batch.stack_of reason) as [stack|]; [|by left].
  rewrite and_then_keeps_world.
  match goal with
  | |- context [Batch.logError cfg e ?m ?d w] =>
      destruct (logError_pending cfg e m d w) as [-> | ->]
  end; [by left|].
  rewrite elem_of_app. intros [?|?]; [by left|by right; left].
- unfold Batch.flush, Batch.sendPendingData. destruct (_ || _); simpl; [by left|].
  rewrite debug_pending. simpl. intros Hx. left. by eapply subseteq_drop.
- destruct (on_settled_cases batch o w) as [-> | ->]; simpl; [by left|].
  rewrite elem_of_app. intros [?|?]; [|by left]. right; right. by exists batch, o.
- by left.
- unfold Batch.clear. destruct (removeItem _ _); simpl; by intros ?%elem_of_nil.
Qed.

Lemma sys_step_born cfg ev sys born :
  all_born born sys ->
  all_born (born ++ created_by cfg ev) (sys_step cfg ev sys).
Proof.
intros Hborn x Hx. rewrite elem_of_app.
assert (forall y, y ∈ Batch.pendingEntries (object sys) -> y ∈ born) as Hq
  by (intros y Hy; apply Hborn; by left).
assert (forall batch y, batch ∈ in_flight sys -> y ∈ batch -> y ∈ born) as Hf
  by (intros batch y Hb Hy; apply Hborn; right; by exists batch).
destruct ev as [o|i o].
- destruct o as [e|e c|e m src ln col err|e reason|e|batch o|args|];
    cbv beta iota delta [sys_step] in Hx;
    try (destruct Hx as [Hx|(batch' & Hb & Hx)]; cbn [object in_flight] in *;
         [|left; by eapply Hf];
         apply step_pending in Hx as [Hx|[Hx|(b & o' & Ho & _)]];
         [left; by apply Hq|by right|discriminate]).
  + unfold Batch.flush, Batch.sendPendingData in Hx.
    destruct (_ || _); simpl in Hx.
    * rewrite app_nil_r in Hx. left.
      destruct Hx as [Hx|(batch & Hb & Hx)]; [by apply Hq|by eapply Hf].
    * left. destruct Hx as [Hx|(batch & Hb & Hx)]; simpl in Hx.
      -- rewrite debug_pending in Hx. simpl in Hx.
         apply Hq. by eapply subseteq_drop.
      -- apply elem_of_app in Hb as [Hb|Hb]; [by eapply Hf|].
         apply list_elem_of_singleton in Hb as ->.
         apply Hq. by eapply subseteq_take.
  + left. destruct Hx as [Hx|(batch' & Hb & Hx)]; [by apply Hq|by eapply Hf].
- left. simpl in Hx. destruct (in_flight sys !! i) as [batch|] eqn:Hi; simpl in Hx.
  + assert (batch ∈ in_flight sys) as Hbatch by by eapply list_elem_of_lookup_2.
    destruct Hx as [Hx|(batch' & Hb & Hx)]; simpl in Hx.
    * destruct (on_settled_cases batch o (object sys)) as [E|E];
        rewrite E in Hx; simpl in Hx; [by apply Hq|].
      apply elem_of_app in Hx as [Hx|Hx]; [by eapply Hf|by apply Hq].
    * apply (Hf batch'); [|done]. by eapply list_elem_of_delete_inv.
  + destruct Hx as [Hx|(batch' & Hb & Hx)]; [by apply Hq|by eapply Hf].
Qed.

Lemma sys_run_born cfg events : forall sys born,
  all_born born sys ->
  all_born (born ++ created_during cfg events) (sys_run cfg events sys).
Proof.
induction events as [|ev events IH]; intros sys born Hborn; simpl.
- unfold created_during. simpl. by rewrite app_nil_r.
- unfold created_during. simpl. rewrite app_assoc.
  apply IH. by apply sys_step_born.
Qed.

(** C9: after [init] completes on a fresh page, whatever the storage
    held, the pending queue contains only entries created during this page
    load: the page view if it is tracked, and then, whatever sequence of
    calls, flushes and settlements follows, only entries created since.
    The entries loaded from storage go to the durable log only, so they
    are in no request either. *)
Theorem queue_holds_only_this_page_load cfg e st events w :
  Batch.init cfg e (Batch.fresh e st) = (w, Ok JUndefined) ->
  queue_holds_created_only cfg e events w.
Proof.
intros Hinit. split.
- by rewrite (init_pending _ _ _ _ Hinit).
- apply sys_run_born. intros x [Hx|(batch & Hb & _)]; [done|].
  by apply elem_of_nil in Hb.
Qed.

(** A second visit: the storage holds an entry, the queue does not. *)
Lemma queue_holds_only_this_page_load_witness :
  Batch.init sending_config sample_env (Batch.fresh sample_env storage_after_visit)
    = ((after_init sending_config storage_after_visit).1, Ok JUndefined) /\
  queue_holds_created_only sending_config sample_env
    [Calls (Batch.OpCapture sample_env (Batch.CallLog (JStr "one") JNull));
     Calls (Batch.OpFlush sample_env);
     Settles 0 (NetworkFailure "offline")]
    (after_init sending_config storage_after_visit).1.
Proof.
assert (Batch.init sending_config sample_env
          (Batch.fresh sample_env storage_after_visit)
        = ((after_init sending_config storage_after_visit).1, Ok JUndefined)) as Hinit
  by (vm_compute; reflexivity).
split; [exact Hinit|].
exact (queue_holds_only_this_page_load _ _ _ _ _ Hinit).
Defined.

(** ** The cap holds in memory *)

(** C10: after every capture call that completes, the in-memory durable
    log holds at most 100 entries, whether or not the storage accepted the
    write: the trim is assigned before the write is attempted. *)
Theorem log_is_capped_after_every_capture :
  (forall cfg e c w w' r,
     Batch.capture cfg e c w = (w', Ok r) ->
     exists l, Batch.entries w' = JArr l /\ (length l <= 100)%nat) /\
  (forall e c w w' r,
     Simple.capture e c w = (w', Ok r) ->
     exists l, Simple.logs w' = JArr l /\ (length l <= 100)%nat).
Proof.
split.
- intros cfg e c w w' r Hc.
  destruct (Batch.entries w) as [| | | | |l|] eqn:Hl;
    try (destruct c; simpl in Hc; unfold Batch.log, Batch.logError in Hc;
         rewrite Hl in Hc; simpl in Hc; discriminate).
  destruct (capture_spec cfg e c w l Hl) as (w1 & Hc1 & Hentries & _).
  rewrite Hc1 in Hc. injection Hc as <- _.
  eexists. split; [exact Hentries|]. rewrite slice_last_length.
  unfold Batch.MAX_ENTRIES. lia.
- intros e c w w' r Hc.
  destruct (Simple.logs w) as [| | | | |l|] eqn:Hl;
    try (destruct c; simpl in Hc;
         unfold Simple.info, Simple.warn, Simple.error, Simple.log in Hc;
         rewrite Hl in Hc; simpl in Hc; discriminate).
  destruct (simple_capture_spec e c w l Hl) as (w1 & Hc1 & Hlogs).
  rewrite Hc1 in Hc. injection Hc as <- _.
  eexists. split; [exact Hlogs|]. rewrite slice_last_length.
  unfold Simple.MAX_LOGS. lia.
Qed.

(** A call on a page whose storage has no room: the write raises, the
    storage is unchanged, the log is bounded. *)
Lemma log_is_capped_witness :
  Batch.capture Batch.defaultConfig sample_env (Batch.CallLog (JStr "one") JNull)
      (after_init Batch.defaultConfig full_storage).1
    = ((Batch.capture Batch.defaultConfig sample_env
          (Batch.CallLog (JStr "one") JNull)
          (after_init Batch.defaultConfig full_storage).1).1,
       Ok (Batch.entry_of Batch.defaultConfig sample_env
             (Batch.CallLog (JStr "one") JNull))) /\
  Batch.localStorage
      (Batch.capture Batch.defaultConfig sample_env
         (Batch.CallLog (JStr "one") JNull)
         (after_init Batch.defaultConfig full_storage).1).1
    = full_storage /\
  exists l,
    Batch.entries
      (Batch.capture Batch.defaultConfig sample_env
         (Batch.CallLog (JStr "one") JNull)
         (after_init Batch.defaultConfig full_storage).1).1 = JArr l /\
    (length l <= 100)%nat.
Proof.
assert (Batch.capture Batch.defaultConfig sample_env
          (Batch.CallLog (JStr "one") JNull)
          (after_init Batch.defaultConfig full_storage).1
        = ((Batch.capture Batch.defaultConfig sample_env
              (Batch.CallLog (JStr "one") JNull)
              (after_init Batch.defaultConfig full_storage).1).1,
           Ok (Batch.entry_of Batch.defaultConfig sample_env
                 (Batch.CallLog (JStr "one") JNull)))) as Hc
  by (vm_compute; reflexivity).
split; [exact Hc|]. split; [vm_compute; reflexivity|].
exact (proj1 log_is_capped_after_every_capture _ _ _ _ _ _ Hc).
Defined.


(** * Further properties *)

(** ** JSON text carries the cleaned value *)

Lemma clean_serializable v : JSON.serializable (clean v) = true.
Proof. by destruct v. Qed.

Lemma elements_to_clean items :
  Forall (fun x => forall k, JSON.print_to x k = JSON.print_to (clean x) k) items ->
  forall first k,
    JSON.elements_to JSON.print_to first items k
    = JSON.elements_to JSON.print_to first (map clean items) k.
Proof.
induction 1 as [|x items Hx _ IH]; intros first k; simpl; [done|].
by rewrite Hx, (IH false).
Qed.

Lemma members_to_clean props :
  Forall (fun kv => forall k, JSON.print_to kv.2 k = JSON.print_to (clean kv.2) k)
    props ->
  forall first k,
    JSON.members_to JSON.print_to first props k
    = JSON.members_to JSON.print_to first (clean_members_with clean props) k.
Proof.
induction 1 as [|[key x] props Hx _ IH]; intros first k; simpl; [done|].
simpl in Hx. destruct (JSON.serializable x) eqn:Sx; simpl; [|apply IH].
by rewrite clean_serializable, Hx, (IH false).
Qed.

(** The text of a value is the text of its cleaned form. *)
Lemma print_to_clean v : forall k, JSON.print_to v k = JSON.print_to (clean v) k.
Proof.
induction v as [| |b|n|s|items IH|props IH] using jsval_nested_ind;
  intros k; try done.
- change (String "[" (JSON.elements_to JSON.print_to true items k)
          = String "[" (JSON.elements_to JSON.print_to true (map clean items) k)).
  by rewrite (elements_to_clean items IH).
- change (String "{" (JSON.members_to JSON.print_to true props k)
          = String "{" (JSON.members_to JSON.print_to true
                          (clean_members_with clean props) k)).
  by rewrite (members_to_clean props IH).
Qed.

Lemma clean_members_keys (props : list (string * jsval)) :
  (clean_members_with clean props).*1 `sublist_of` props.*1.
Proof.
induction props as [|[key x] props IH]; simpl; [done|].
destruct (JSON.serializable x); simpl; by constructor.
Qed.

Lemma clean_members_safe props :
  Forall (fun kv => distinct_keys kv.2 = true -> json_safe (clean kv.2) = true) props ->
  forallb (fun kv => distinct_keys kv.2) props = true ->
  forallb (fun kv => json_safe kv.2) (clean_members_with clean props) = true.
Proof.
induction 1 as [|[key x] props Hx _ IH]; simpl; [done|].
intros [Dx Ds]%andb_prop. simpl in Hx.
destruct (JSON.serializable x); simpl; [|by apply IH].
by rewrite Hx, IH.
Qed.

(** The cleaned form of a value is one that JSON text carries unchanged. *)
Lemma clean_safe v : distinct_keys v = true -> json_safe (clean v) = true.
Proof.
induction v as [| |b|n|s|items IH|props IH] using jsval_nested_ind;
  intros Hd; try done.
- simpl in *. induction IH as [|x items Hx _ IHitems]; simpl in *; [done|].
  apply andb_prop in Hd as [Dx Ds]. by rewrite Hx, IHitems.
- simpl in *. apply andb_prop in Hd as [Ds Hkeys].
  apply bool_decide_eq_true in Hkeys.
  rewrite (clean_members_safe props IH Ds). simpl.
  apply bool_decide_eq_true.
  eapply sublist_NoDup; [exact Hkeys|apply clean_members_keys].
Qed.

(** A value that holds no [undefined] is its own cleaned form. *)
Lemma clean_of_safe v : json_safe v = true -> clean v = v.
Proof.
induction v as [| |b|n|s|items IH|props IH] using jsval_nested_ind;
  intros Hs; try done.
- simpl in *. f_equal.
  induction IH as [|x items Hx _ IHitems]; simpl in *; [done|].
  apply andb_prop in Hs as [Sx Ss]. by rewrite Hx, IHitems.
- simpl in *. apply andb_prop in Hs as [Ss _]. f_equal.
  induction IH as [|[key x] props Hx _ IHprops]; simpl in *; [done|].
  apply andb_prop in Ss as [Sx Ss].
  by rewrite (json_safe_serializable x Sx), Hx, IHprops.
Qed.

(** [JSON.parse(JSON.stringify(v))] is the cleaned form of [v]. *)
Lemma parse_print_clean v :
  distinct_keys v = true ->
  JSON.parse (JSON.print_to v EmptyString) = Some (clean v).
Proof.
intros Hd. rewrite print_to_clean.
destruct (parse_stringify (clean v) (clean_safe v Hd)) as (text & Htext & Hparse).
unfold JSON.stringify in Htext. rewrite clean_serializable in Htext.
by injection Htext as <-.
Qed.

(** ** The indented text reads back *)


Lemma ends_value_no_digit k : ends_value k = true -> no_digit k.
Proof.
destruct k as [|c r]; simpl; [done|].
destruct c as [[] [] [] [] [] [] [] []]; simpl; done.
Qed.

Lemma ends_value_no_fraction k :
  ends_value k = true -> JSON.starts_fraction k = false.
Proof.
destruct k as [|c r]; simpl; [done|].
destruct c as [[] [] [] [] [] [] [] []]; simpl; done.
Qed.

Lemma parse_number_before k z :
  no_digit k -> JSON.starts_fraction k = false ->
  JSON.parse_number (JSON.number_to z k) = Some (z, k).
Proof.
intros Hd Hf.
assert (forall n, JSON.parse_unsigned (JSON.digits_to (N.to_uint n) k) = Some (n, k))
  as Hu.
{ intros n. unfold JSON.parse_unsigned.
  rewrite read_digits_digits_to, canonical_to_uint, Hf by done. simpl.
  by rewrite DecimalN.Unsigned.of_to. }
unfold JSON.number_to. destruct (Z.ltb_spec z 0) as [Hneg|Hpos].
- unfold JSON.parse_number. simpl. rewrite Hu. simpl. f_equal. f_equal. lia.
- destruct (digits_to_head (N.to_uint (Z.abs_N z)) k (canonical_to_uint _))
    as (c & r & E & Hminus & _).
  specialize (Hu (Z.abs_N z)). rewrite E in *.
  unfold JSON.parse_number. rewrite Hminus, Hu. simpl. f_equal. f_equal. lia.
Qed.

(** A value that is no array and no object reads back from its text. *)
Lemma primitive_reads_back v fuel k :
  match v with JUndefined | JArr _ | JObj _ => False | _ => True end ->
  ends_value k = true ->
  JSON.parse_value (S fuel) (JSON.print_to v k) = Some (v, k).
Proof.
intros Hv Hk. destruct v as [| |b|n|s|items|props]; try done.
- by destruct b.
- pose proof (parse_number_before k n (ends_value_no_digit k Hk)
                (ends_value_no_fraction k Hk)) as Hp.
  assert (exists c r, JSON.number_to n k = String c r /\
            opens_value (String c r) = true /\
            (N_of_ascii c =? 110)%N = false /\ (N_of_ascii c =? 116)%N = false /\
            (N_of_ascii c =? 102)%N = false /\ (N_of_ascii c =? 34)%N = false /\
            (N_of_ascii c =? 91)%N = false /\ (N_of_ascii c =? 123)%N = false)
    as (c & r & E & Hopen & H1 & H2 & H3 & H4 & H5 & H6).
  { unfold JSON.number_to. destruct (n <? 0).
    - eexists _, _. split; [reflexivity|done].
    - destruct (digits_to_head (N.to_uint (Z.abs_N n)) k (canonical_to_uint _))
        as (c & r & E & _ & Hopen & H).
      exists c, r. done. }
  change (JSON.print_to (JNum n) k) with (JSON.number_to n k).
  rewrite E in *. simpl. rewrite skip_ws_opens by done.
  rewrite H1, H2, H3, H4, H5, H6, Hp. done.
- change (JSON.print_to (JStr s) k) with (JSON.quote_to s k).
  unfold JSON.quote_to. simpl. rewrite ?skip_ws_opens by done; simpl.
  by rewrite parse_chars_quote_body.
Qed.

Lemma skip_ws_spaces n s : JSON.skip_ws (Pretty.spaces n s) = JSON.skip_ws s.
Proof. induction n as [|n IH]; [done|]. exact IH. Qed.

Lemma skip_ws_break depth s : JSON.skip_ws (Pretty.break_to depth s) = JSON.skip_ws s.
Proof. unfold Pretty.break_to. exact (skip_ws_spaces _ s). Qed.

(** The parser of values looks at its text past the white space only. *)
Lemma parse_value_past_ws fuel s s' :
  JSON.skip_ws s = JSON.skip_ws s' ->
  JSON.parse_value fuel s = JSON.parse_value fuel s'.
Proof. intros H. destruct fuel; [done|]. simpl. by rewrite H. Qed.

Lemma parse_members_past_ws fuel acc s s' :
  JSON.skip_ws s = JSON.skip_ws s' ->
  JSON.parse_members fuel acc s = JSON.parse_members fuel acc s'.
Proof. intros H. destruct fuel; [done|]. simpl. by rewrite H. Qed.

Lemma pretty_opens depth v k : opens_value (Pretty.print_to depth v k) = true.
Proof.
destruct v as [| |b|n|s|items|props]; try reflexivity;
  apply (print_to_opens _ k).
Qed.

Lemma skip_ws_head c r :
  JSON.is_ws c = false -> JSON.skip_ws (String c r) = String c r.
Proof. intros H. unfold JSON.skip_ws. by rewrite H. Qed.


Lemma pretty_elements_end depth items k :
  ends_value (Pretty.elements_to Pretty.print_to depth false items k) = true.
Proof. by destruct items. Qed.

Lemma pretty_members_end depth props k :
  forallb (fun kv => json_safe kv.2) props = true ->
  ends_value (Pretty.members_to Pretty.print_to depth false props k) = true.
Proof.
destruct props as [|[key y] rest]; simpl; [done|].
intros [Sy _]%andb_prop. by rewrite (json_safe_serializable y Sy).
Qed.

Lemma parse_elements_pretty items :
  Forall pretty_reads_back items ->
  forallb json_safe items = true ->
  forall x depth fuel k,
    pretty_reads_back x -> json_safe x = true ->
    (1 + weight x + list_sum (map weight items) <= fuel)%nat ->
    JSON.parse_elements fuel
      (Pretty.break_to (S depth)
         (Pretty.print_to (S depth) x
            (Pretty.elements_to Pretty.print_to depth false items k)))
    = Some (x :: items, k).
Proof.
induction 1 as [|y items Hy _ IH]; intros Hsafe x depth fuel k Hx Sx Hfuel;
  simpl in Hsafe, Hfuel; (destruct fuel as [|fuel]; [lia|]); simpl.
- rewrite (parse_value_past_ws fuel _ _ (skip_ws_break _ _)).
  rewrite Hx; [|done|lia|reflexivity]. simpl.
  rewrite skip_ws_break. by rewrite skip_ws_head.
- apply andb_prop in Hsafe as [Sy Ss].
  rewrite (parse_value_past_ws fuel _ _ (skip_ws_break _ _)).
  rewrite Hx; [|done|lia|reflexivity]. simpl.
  rewrite ?skip_ws_head by done; simpl.
  rewrite (IH Ss y depth fuel k Hy Sy) by (simpl; pose proof (weight_pos x); lia).
  done.
Qed.

Lemma parse_value_past_space fuel s :
  JSON.parse_value fuel (String " " s) = JSON.parse_value fuel s.
Proof. by apply parse_value_past_ws. Qed.

Lemma parse_members_pretty props :
  Forall (fun kv => pretty_reads_back kv.2) props ->
  forallb (fun kv => json_safe kv.2) props = true ->
  forall key x acc depth fuel k,
    pretty_reads_back x -> json_safe x = true ->
    NoDup (acc.*1 ++ key :: props.*1) ->
    (1 + weight x + list_sum (map (fun kv => weight kv.2) props) <= fuel)%nat ->
    JSON.parse_members fuel acc
      (Pretty.break_to (S depth)
         (JSON.quote_to key (String ":" (String " "
            (Pretty.print_to (S depth) x
               (Pretty.members_to Pretty.print_to depth false props k))))))
    = Some (acc ++ (key, x) :: props, k).
Proof.
induction 1 as [|[key' y] props Hy Hprops IH];
  intros Hsafe key x acc depth fuel k Hx Sx Hkeys Hfuel;
  simpl in Hsafe, Hfuel; (destruct fuel as [|fuel]; [lia|]);
  rewrite (parse_members_past_ws _ _ _ _ (skip_ws_break _ _));
  rewrite parse_members_unfold, parse_chars_quote_body; simpl;
  rewrite parse_value_past_space;
  assert (key ∉ acc.*1) as Hfresh
    by (apply NoDup_app in Hkeys as (_ & Hdisj & _);
        intros Hin; apply (Hdisj key Hin); left).
- rewrite Hx; [|done|lia|reflexivity]. simpl.
  rewrite skip_ws_break, skip_ws_head by done. simpl.
  by rewrite set_prop_fresh.
- apply andb_prop in Hsafe as [Sy Ss].
  rewrite Hx; [|done|lia|]; last first.
  { simpl. by rewrite (json_safe_serializable y Sy). }
  simpl. rewrite (json_safe_serializable y Sy). simpl.
  rewrite ?skip_ws_head by done; simpl.
  rewrite set_prop_fresh by done.
  rewrite (IH Ss key' y (acc ++ [(key, x)]) depth fuel k Hy Sy).
  + by rewrite <- app_assoc.
  + rewrite fmap_app, <- app_assoc. exact Hkeys.
  + simpl. pose proof (weight_pos x). lia.
Qed.

(** [JSON.parse] reads every safe value back from its indented text. *)
Lemma pretty_print_reads_back v : pretty_reads_back v.
Proof.
induction v as [| |b|n|s|items IH|props IH] using jsval_nested_ind;
  intros Hsafe depth fuel k Hfuel Hk;
  (destruct fuel as [|fuel]; [simpl in Hfuel; lia|]);
  try (by apply primitive_reads_back); try done.
- simpl in Hsafe, Hfuel.
  destruct IH as [|x items Hx Hitems]; [reflexivity|].
  simpl in Hsafe, Hfuel. apply andb_prop in Hsafe as [Sx Ss].
  change (Pretty.print_to depth (JArr (x :: items)) k)
    with (String "[" (Pretty.break_to (S depth)
            (Pretty.print_to (S depth) x
               (Pretty.elements_to Pretty.print_to depth false items k)))).
  simpl. rewrite ?skip_ws_head by done; simpl.
  rewrite skip_ws_break.
  pose proof (pretty_opens (S depth) x
    (Pretty.elements_to Pretty.print_to depth false items k)) as Hopen.
  rewrite (skip_ws_opens _ Hopen).
  destruct (Pretty.print_to (S depth) x _) as [|c r] eqn:E; [done|].
  simpl in Hopen.
  destruct (N_of_ascii c =? 93)%N; [by rewrite !andb_false_r in Hopen|].
  rewrite <- E.
  rewrite (parse_elements_pretty items Hitems Ss x depth fuel k Hx Sx) by lia.
  done.
- simpl in Hsafe, Hfuel.
  apply andb_prop in Hsafe as [Ss Hkeys]. apply bool_decide_eq_true in Hkeys.
  destruct IH as [|[key x] props Hx Hprops]; [reflexivity|].
  simpl in Ss, Hfuel, Hx. apply andb_prop in Ss as [Sx Ss].
  assert (Pretty.print_to depth (JObj ((key, x) :: props)) k
          = String "{" (Pretty.break_to (S depth)
              (JSON.quote_to key (String ":" (String " "
                 (Pretty.print_to (S depth) x
                    (Pretty.members_to Pretty.print_to depth false props k)))))))
    as -> by (simpl; by rewrite (json_safe_serializable x Sx)).
  simpl. rewrite ?skip_ws_head by done; simpl.
  rewrite skip_ws_break. rewrite (skip_ws_opens (JSON.quote_to _ _)) by done.
  unfold JSON.quote_to at 1. simpl. fold (JSON.quote_to key).
  rewrite (parse_members_pretty props Hprops Ss key x [] depth fuel k Hx Sx)
    by (done || lia).
  done.
Qed.

(** The indented text of a value is that of its cleaned form. *)
Lemma pretty_elements_clean items :
  Forall (fun x => forall depth k,
            Pretty.print_to depth x k = Pretty.print_to depth (clean x) k) items ->
  forall depth first k,
    Pretty.elements_to Pretty.print_to depth first items k
    = Pretty.elements_to Pretty.print_to depth first (map clean items) k.
Proof.
induction 1 as [|x items Hx _ IH]; intros depth first k; simpl; [done|].
by rewrite Hx, (IH depth false).
Qed.

Lemma pretty_members_clean props :
  Forall (fun kv => forall depth k,
            Pretty.print_to depth kv.2 k = Pretty.print_to depth (clean kv.2) k)
    props ->
  forall depth first k,
    Pretty.members_to Pretty.print_to depth first props k
    = Pretty.members_to Pretty.print_to depth first (clean_members_with clean props) k.
Proof.
induction 1 as [|[key x] props Hx _ IH]; intros depth first k; simpl; [done|].
simpl in Hx. destruct (JSON.serializable x) eqn:Sx; simpl; [|apply IH].
by rewrite clean_serializable, Hx, (IH depth false).
Qed.

Lemma pretty_print_clean v : forall depth k,
  Pretty.print_to depth v k = Pretty.print_to depth (clean v) k.
Proof.
induction v as [| |b|n|s|items IH|props IH] using jsval_nested_ind;
  intros depth k; try done.
- simpl. by rewrite (pretty_elements_clean items IH).
- simpl. by rewrite (pretty_members_clean props IH).
Qed.

(** [JSON.parse(JSON.stringify(v, null, 2))] is the cleaned form of [v]. *)
Lemma parse_pretty_clean v :
  distinct_keys v = true ->
  JSON.parse (Pretty.print_to O v EmptyString) = Some (clean v).
Proof.
intros Hd. rewrite pretty_print_clean. unfold JSON.parse.
rewrite <- (parse_value_fuel_enough _ (weight (clean v))).
rewrite (pretty_print_reads_back (clean v) (clean_safe v Hd)); [done|lia|done].
Qed.


(** ** What a reload gives back *)

Lemma distinct_keys_array l :
  forallb distinct_keys l = true -> distinct_keys (JArr l) = true.
Proof. done. Qed.

Lemma loaded_after_write e st st' l :
  forallb distinct_keys l = true ->
  setItem st Batch.STORAGE_KEY (JSON.print_to (JArr l) EmptyString) = Ok st' ->
  batch_loaded e st' = JArr (map clean l).
Proof.
intros Hd Hset.
destruct (setItem_accepted _ _ _ _ Hset) as [Hb Hitems].
apply (load_valid_is_kept e st' (JSON.print_to (JArr l) EmptyString) _ Hb).
- rewrite Hitems. apply lookup_insert_eq.
- apply print_array_not_empty.
- exact (parse_print_clean (JArr l) Hd).
Qed.



(** ** The exported file *)

Lemma before_T_splits s :
  exists rest, s = before_T s +:+ rest /\
               (rest = EmptyString \/ exists tail, rest = String "T" tail).
Proof.
induction s as [|c s (rest & Hs & Hrest)]; simpl.
- exists EmptyString. by split; [|left].
- destruct (N_of_ascii c =? 84)%N eqn:E.
  + exists (String c s). split; [done|]. right. exists s.
    apply N.eqb_eq in E. f_equal.
    rewrite <- (ascii_N_embedding c), E. reflexivity.
  + exists rest. split; [|done]. simpl. unfold String.app in *. simpl.
    by rewrite <- Hs.
Qed.



(** ** Two loggers, one storage key *)

(** X3: the two loggers use the same storage key, so on a site that has
    run the simple logger the batching logger starts from the simple
    logger's log: after [saveLogs] wrote it, [loadFromStorage] finds its
    last 100 entries, cleaned. *)
Theorem batch_loads_what_simple_saved e w l st' :
  Simple.logs w = JArr l ->
  forallb distinct_keys l = true ->
  setItem (Simple.localStorage w) Simple.STORAGE_KEY
    (JSON.print_to (JArr (slice_last 100 l)) EmptyString) = Ok st' ->
  batch_loaded e (Simple.localStorage (Simple.saveLogs w))
    = JArr (map clean (slice_last 100 l)).
Proof.
intros Hl Hd Hset.
pose proof (saveLogs_storage w l Hl) as Hw. unfold write_attempted in Hw.
change Simple.MAX_LOGS with 100%nat in Hw.
change Simple.STORAGE_KEY with Batch.STORAGE_KEY in Hset.
rewrite Hset in Hw. rewrite Hw.
apply (loaded_after_write e (Simple.localStorage w) st'); [|done].
unfold slice_last. apply forallb_forall. intros x Hx.
apply (proj1 (forallb_forall _ _) Hd). apply list_elem_of_In.
eapply subseteq_drop. by apply list_elem_of_In.
Qed.

Lemma batch_loads_what_simple_saved_witness :
  Simple.logs simple_busy_world = JArr (log_items (Simple.logs simple_busy_world)) /\
  forallb distinct_keys (log_items (Simple.logs simple_busy_world)) = true /\
  setItem (Simple.localStorage simple_busy_world) Simple.STORAGE_KEY
    (JSON.print_to
       (JArr (slice_last 100 (log_items (Simple.logs simple_busy_world))))
       EmptyString)
    = Ok (Simple.localStorage simple_busy_world) /\
  batch_loaded sample_env (Simple.localStorage (Simple.saveLogs simple_busy_world))
    = JArr (map clean (slice_last 100 (log_items (Simple.logs simple_busy_world)))).
Proof.
assert (setItem (Simple.localStorage simple_busy_world) Simple.STORAGE_KEY
          (JSON.print_to
             (JArr (slice_last 100 (log_items (Simple.logs simple_busy_world))))
             EmptyString)
        = Ok (Simple.localStorage simple_busy_world)) as Hset
  by (vm_compute; reflexivity).
split; [reflexivity|]. split; [vm_compute; reflexivity|]. split; [exact Hset|].
apply (batch_loads_what_simple_saved sample_env simple_busy_world _
         (Simple.localStorage simple_busy_world));
  [reflexivity|vm_compute; reflexivity|exact Hset].
Defined.

(** ** Clearing *)

(** X4: when the storage can be reached, [clear] completes, empties the
    durable log and the pending queue, removes the logger's item and no
    other item from storage, and the next page load starts from an empty
    log. *)
Theorem clear_then_reload_is_empty e w :
  blocked (Batch.localStorage w) = false ->
  exists w',
    Batch.clear w = (w', Ok JUndefined) /\
    Batch.entries w' = JArr [] /\
    Batch.pendingEntries w' = [] /\
    items (Batch.localStorage w') !! Batch.STORAGE_KEY = None /\
    (forall key, key <> Batch.STORAGE_KEY ->
       items (Batch.localStorage w') !! key = items (Batch.localStorage w) !! key) /\
    batch_loaded e (Batch.localStorage w') = JArr [].
Proof.
intros Hb. unfold Batch.clear, removeItem. simpl. rewrite Hb.
eexists. split; [reflexivity|]. simpl.
split; [done|]. split; [done|]. split; [apply lookup_delete_eq|]. split.
- intros key Hkey. by apply lookup_delete_ne.
- apply load_absent_is_empty. simpl. apply lookup_delete_eq.
Qed.

Lemma clear_then_reload_witness :
  blocked (Batch.localStorage busy_world) = false /\
  exists w',
    Batch.clear busy_world = (w', Ok JUndefined) /\
    Batch.entries w' = JArr [] /\
    Batch.pendingEntries w' = [] /\
    items (Batch.localStorage w') !! Batch.STORAGE_KEY = None /\
    (forall key, key <> Batch.STORAGE_KEY ->
       items (Batch.localStorage w') !! key
       = items (Batch.localStorage busy_world) !! key) /\
    batch_loaded sample_env (Batch.localStorage w') = JArr [].
Proof.
split; [reflexivity|].
apply clear_then_reload_is_empty. reflexivity.
Defined.

(** X5: [clear] does not reach a request in flight: when a batch that was
    sent before the [clear] fails afterwards, its entries are put back,
    and the queue that [clear] emptied holds exactly that batch again. *)
Theorem cleared_batch_returns_on_failure batch o w :
  failed o ->
  Batch.pendingEntries (Batch.on_settled batch o (Batch.clear w).1) = batch /\
  Batch.entries (Batch.on_settled batch o (Batch.clear w).1) = JArr [].
Proof.
intros Ho. rewrite on_settled_failed by done.
unfold Batch.clear. destruct (removeItem _ _); simpl; by rewrite app_nil_r.
Qed.

Lemma cleared_batch_returns_witness :
  failed (NetworkFailure "offline") /\
  Batch.pendingEntries
    (Batch.on_settled (Batch.pendingEntries busy_world) (NetworkFailure "offline")
       (Batch.clear busy_world).1)
  = Batch.pendingEntries busy_world.
Proof.
split; [constructor|].
apply (cleared_batch_returns_on_failure (Batch.pendingEntries busy_world)).
constructor.
Defined.

(** ** Saving twice *)

Lemma setItem_again st key value st' :
  setItem st key value = Ok st' -> setItem st' key value = Ok st'.
Proof.
unfold setItem. destruct (blocked st) eqn:Hb; [discriminate|].
destruct (capacity st) as [c|] eqn:Hc.
- destruct (c <? String.length value)%nat eqn:Hlen; [discriminate|].
  intros [= <-]. simpl. rewrite ?Hb, ?Hc, ?Hlen. by rewrite insert_insert_eq.
- intros [= <-]. simpl. rewrite ?Hb, ?Hc. by rewrite insert_insert_eq.
Qed.

(** X6: [saveToStorage] is idempotent: on a durable log that is an array,
    saving a second time changes neither the log, nor the storage, nor
    anything else, whether the write is accepted or refused. *)
Theorem saveToStorage_twice w l :
  Batch.entries w = JArr l ->
  Batch.saveToStorage (Batch.saveToStorage w) = Batch.saveToStorage w.
Proof.
intros Hl. unfold Batch.saveToStorage at 2 3. rewrite Hl.
set (kept := if (Batch.MAX_ENTRIES <? length l)%nat
             then slice_last Batch.MAX_ENTRIES l else l).
assert ((if (Batch.MAX_ENTRIES <? length kept)%nat
         then slice_last Batch.MAX_ENTRIES kept else kept) = kept) as Hkept.
{ unfold kept. destruct (Nat.ltb_spec Batch.MAX_ENTRIES (length l)) as [Hlt|Hle].
  - rewrite slice_last_length.
    destruct (Nat.ltb_spec Batch.MAX_ENTRIES (length l `min` Batch.MAX_ENTRIES));
      [lia|done].
  - destruct (Nat.ltb_spec Batch.MAX_ENTRIES (length l)); [lia|done]. }
destruct (setItem (Batch.localStorage (Batch.set_entries w (JArr kept)))
            Batch.STORAGE_KEY (JSON.print_to (JArr kept) EmptyString))
  as [st'|x] eqn:Hset; simpl.
- unfold Batch.saveToStorage. simpl. rewrite Hkept. simpl.
  simpl in Hset. by rewrite (setItem_again _ _ _ _ Hset).
- unfold Batch.saveToStorage. simpl. rewrite Hkept. simpl.
  simpl in Hset. by rewrite Hset.
Qed.

Lemma saveToStorage_twice_witness :
  Batch.entries busy_world = JArr (log_items (Batch.entries busy_world)) /\
  Batch.saveToStorage (Batch.saveToStorage busy_world)
    = Batch.saveToStorage busy_world.
Proof.
split; [reflexivity|].
by apply (saveToStorage_twice busy_world (log_items (Batch.entries busy_world))).
Defined.

(** ** Settlements *)

Lemma on_settled_succeeded batch o w :
  succeeded o -> Batch.on_settled batch o w = w.
Proof.
intros [text m v Hparse Hv]. unfold Batch.on_settled. simpl. rewrite Hparse.
destruct v; simpl in *; try done. by rewrite Hv.
Qed.

Lemma failed_or_succeeded o : failed o \/ succeeded o.
Proof.
destruct o as [m|text m]; [left; constructor|].
destruct (JSON.parse text) as [v|] eqn:Hparse; [|left; by constructor].
destruct (reports_success v) eqn:Hv;
  [right|left]; by econstructor.
Qed.

Lemma not_failed_and_succeeded o : failed o -> succeeded o -> False.
Proof.
intros Hf Hs. destruct Hs as [text m v Hparse Hv].
inversion Hf as [|? ? Hnone|? ? v' Hparse' Hv']; subst; congruence.
Qed.


(** ** Rounds of flushing *)

Lemma flush_round_succeeded cfg e o w :
  truthy_str (Batch.apiEndpoint cfg) = true ->
  succeeded o ->
  Batch.pendingEntries (flush_round cfg e o w)
    = drop (Z.to_nat (Batch.maxBatchSize cfg)) (Batch.pendingEntries w) /\
  Batch.entries (flush_round cfg e o w) = Batch.entries w.
Proof.
intros Hend Ho. unfold flush_round, Batch.flush, Batch.sendPendingData.
rewrite Hend. simpl.
destruct (Batch.pendingEntries w) as [|x q] eqn:Hq; simpl.
- rewrite Hq. by rewrite drop_nil.
- rewrite on_settled_succeeded by done.
  by rewrite debug_pending, debug_entries.
Qed.

(** X8: with an endpoint configured, [k] flushes whose requests all
    succeed remove the first [k * maxBatchSize] entries of the pending
    queue, oldest first, and leave the durable log as it was; so with a
    batch size of at least one the queue is empty once [k * maxBatchSize]
    reaches its length, and with a batch size of zero or less it is never
    drained. *)
Theorem successful_rounds_drain_the_queue cfg rounds w :
  truthy_str (Batch.apiEndpoint cfg) = true ->
  Forall (fun eo => succeeded eo.2) rounds ->
  Batch.pendingEntries (flush_rounds cfg rounds w)
    = drop (length rounds * Z.to_nat (Batch.maxBatchSize cfg))
        (Batch.pendingEntries w) /\
  Batch.entries (flush_rounds cfg rounds w) = Batch.entries w /\
  ((length (Batch.pendingEntries w)
    <= length rounds * Z.to_nat (Batch.maxBatchSize cfg))%nat ->
   Batch.pendingEntries (flush_rounds cfg rounds w) = []) /\
  (Batch.maxBatchSize cfg <= 0 ->
   Batch.pendingEntries (flush_rounds cfg rounds w) = Batch.pendingEntries w).
Proof.
intros Hend Hall.
assert (Batch.pendingEntries (flush_rounds cfg rounds w)
        = drop (length rounds * Z.to_nat (Batch.maxBatchSize cfg))
            (Batch.pendingEntries w) /\
        Batch.entries (flush_rounds cfg rounds w) = Batch.entries w) as [Hq He].
{ revert w. induction Hall as [|[e o] rounds Ho _ IH]; intros w; [done|].
  unfold flush_rounds in *. simpl.
  destruct (flush_round_succeeded cfg e o w Hend Ho) as [Hq He].
  destruct (IH (flush_round cfg e o w)) as [Hq' He'].
  rewrite Hq', He', Hq, He. split; [|done].
  rewrite drop_drop. f_equal; lia. }
split; [done|]. split; [done|]. split.
- intros Hlen. rewrite Hq. by apply drop_ge.
- intros Hmax. rewrite Hq.
  replace (Z.to_nat (Batch.maxBatchSize cfg)) with O by lia.
  by rewrite Nat.mul_0_r.
Qed.

Lemma success_body_succeeded m : succeeded (Responded success_body m).
Proof. by apply (succeeded_response _ _ (JObj [("success", JBool true)])). Qed.

(** Four entries wait, the batch size is two: two successful rounds. *)
Lemma successful_rounds_witness :
  truthy_str (Batch.apiEndpoint sending_config) = true /\
  Forall (fun eo => succeeded eo.2)
    [(sample_env, Responded success_body "unused");
     (sample_env, Responded success_body "unused")] /\
  Batch.pendingEntries
    (flush_rounds sending_config
       [(sample_env, Responded success_body "unused");
        (sample_env, Responded success_body "unused")] busy_world) = [].
Proof.
assert (Forall (fun eo : env * fetch_outcome => succeeded eo.2)
          [(sample_env, Responded success_body "unused");
           (sample_env, Responded success_body "unused")]) as Hall
  by (repeat constructor; apply success_body_succeeded).
split; [reflexivity|]. split; [exact Hall|].
apply (successful_rounds_drain_the_queue sending_config _ busy_world eq_refl Hall).
vm_compute. lia.
Defined.

(** ** Requests in flight *)

Lemma flush_sends cfg e w :
  truthy_str (Batch.apiEndpoint cfg) = true ->
  Batch.pendingEntries w <> [] ->
  exists w1 fl,
    Batch.flush cfg e w = (w1, Some fl) /\
    Batch.entriesToSend fl
      = take (Z.to_nat (Batch.maxBatchSize cfg)) (Batch.pendingEntries w) /\
    Batch.pendingEntries w1
      = drop (Z.to_nat (Batch.maxBatchSize cfg)) (Batch.pendingEntries w) /\
    Batch.entries w1 = Batch.entries w.
Proof.
intros Hend Hq. unfold Batch.flush, Batch.sendPendingData. rewrite Hend.
destruct (Batch.pendingEntries w) as [|x q] eqn:Hw; [done|]. simpl.
eexists _, _. split; [reflexivity|]. simpl.
by rewrite debug_pending, debug_entries.
Qed.

Lemma sys_flush_sends cfg e sys :
  truthy_str (Batch.apiEndpoint cfg) = true ->
  Batch.pendingEntries (object sys) <> [] ->
  Batch.pendingEntries (object (sys_step cfg (Calls (Batch.OpFlush e)) sys))
    = drop (Z.to_nat (Batch.maxBatchSize cfg)) (Batch.pendingEntries (object sys)) /\
  in_flight (sys_step cfg (Calls (Batch.OpFlush e)) sys)
    = in_flight sys
      ++ [take (Z.to_nat (Batch.maxBatchSize cfg)) (Batch.pendingEntries (object sys))].
Proof.
intros Hend Hq.
destruct (flush_sends cfg e (object sys) Hend Hq) as (w1 & fl & Hfl & Hb & Hrest & _).
unfold sys_step. rewrite Hfl. simpl. by rewrite Hb.
Qed.

Lemma sys_settles_failed cfg i o sys batch :
  in_flight sys !! i = Some batch -> failed o ->
  Batch.pendingEntries (object (sys_step cfg (Settles i o) sys))
    = batch ++ Batch.pendingEntries (object sys) /\
  in_flight (sys_step cfg (Settles i o) sys) = delete i (in_flight sys).
Proof.
intros Hi Ho. unfold sys_step. rewrite Hi. simpl.
by rewrite on_settled_failed.
Qed.

(** X9: a failed batch is put back in front of whatever the queue holds
    when the failure arrives.  So when two flushes took the batches [b1]
    and [b2] off the queue [b1 ++ b2 ++ rest] and both requests fail, the
    order of the queue depends on the order of the failures: failing in
    the order of issue leaves [b2 ++ b1 ++ rest], the later batch in front
    of the earlier one; failing in the opposite order restores
    [b1 ++ b2 ++ rest]. *)
Theorem failures_in_order_of_issue_swap_batches cfg e1 e2 o1 o2 w b1 b2 rest :
  truthy_str (Batch.apiEndpoint cfg) = true ->
  Batch.pendingEntries w = b1 ++ b2 ++ rest ->
  length b1 = Z.to_nat (Batch.maxBatchSize cfg) ->
  length b2 = Z.to_nat (Batch.maxBatchSize cfg) ->
  b1 <> [] ->
  failed o1 -> failed o2 ->
  Batch.pendingEntries
    (object (sys_run cfg
       [Calls (Batch.OpFlush e1); Calls (Batch.OpFlush e2);
        Settles 0 o1; Settles 0 o2]
       {| object := w; in_flight := [] |}))
    = b2 ++ b1 ++ rest /\
  Batch.pendingEntries
    (object (sys_run cfg
       [Calls (Batch.OpFlush e1); Calls (Batch.OpFlush e2);
        Settles 1 o2; Settles 0 o1]
       {| object := w; in_flight := [] |}))
    = b1 ++ b2 ++ rest.
Proof.
intros Hend Hq Hb1 Hb2 Hne Ho1 Ho2.
assert (b2 <> []) as Hne2.
{ intros ->. destruct b1; [done|]. simpl in *. lia. }
unfold sys_run. cbn [fold_left].
set (s0 := {| object := w; in_flight := [] |}).
destruct (sys_flush_sends cfg e1 s0 Hend) as [Hq1 Hf1].
{ simpl. rewrite Hq. by destruct b1. }
set (s1 := sys_step cfg (Calls (Batch.OpFlush e1)) s0) in *.
change (object s0) with w in Hq1, Hf1. change (in_flight s0) with (@nil (list jsval)) in Hf1.
rewrite Hq, <- Hb1 in Hq1. rewrite Hq, <- Hb1 in Hf1. rewrite drop_app_length in Hq1.
rewrite take_app_length in Hf1. rewrite app_nil_l in Hf1.
destruct (sys_flush_sends cfg e2 s1 Hend) as [Hq2 Hf2].
{ rewrite Hq1. by destruct b2. }
set (s2 := sys_step cfg (Calls (Batch.OpFlush e2)) s1) in *.
rewrite Hq1, <- Hb2 in Hq2. rewrite Hq1, Hf1, <- Hb2 in Hf2.
rewrite drop_app_length in Hq2. rewrite take_app_length in Hf2.
change ([b1] ++ [b2]) with [b1; b2] in Hf2.
split.
- destruct (sys_settles_failed cfg 0 o1 s2 b1) as [Hq3 Hf3]; [by rewrite Hf2|done|].
  set (s3 := sys_step cfg (Settles 0 o1) s2) in *.
  rewrite Hq2 in Hq3. rewrite Hf2 in Hf3. change (delete 0%nat [b1; b2]) with [b2] in Hf3.
  destruct (sys_settles_failed cfg 0 o2 s3 b2) as [Hq4 _]; [by rewrite Hf3|done|].
  by rewrite Hq4, Hq3.
- destruct (sys_settles_failed cfg 1 o2 s2 b2) as [Hq3 Hf3]; [by rewrite Hf2|done|].
  set (s3 := sys_step cfg (Settles 1 o2) s2) in *.
  rewrite Hq2 in Hq3. rewrite Hf2 in Hf3. change (delete 1%nat [b1; b2]) with [b1] in Hf3.
  destruct (sys_settles_failed cfg 0 o1 s3 b1) as [Hq4 _]; [by rewrite Hf3|done|].
  by rewrite Hq4, Hq3.
Qed.

Lemma failures_swap_batches_witness :
  Batch.pendingEntries
    (object (sys_run sending_config
       [Calls (Batch.OpFlush sample_env); Calls (Batch.OpFlush sample_env);
        Settles 0 (NetworkFailure "offline"); Settles 0 (NetworkFailure "offline")]
       {| object := busy_world; in_flight := [] |}))
    = drop 2 (Batch.pendingEntries busy_world)
      ++ take 2 (Batch.pendingEntries busy_world) ++ [].
Proof.
refine (proj1 (failures_in_order_of_issue_swap_batches sending_config
          sample_env sample_env (NetworkFailure "offline") (NetworkFailure "offline")
          busy_world (take 2 (Batch.pendingEntries busy_world))
          (drop 2 (Batch.pendingEntries busy_world)) []
          eq_refl _ _ _ _ _ _)).
- vm_compute. reflexivity.
- vm_compute. reflexivity.
- vm_compute. reflexivity.
- vm_compute. discriminate.
- constructor.
- constructor.
Defined.

(** ** Without an endpoint *)

Lemma sys_step_without_endpoint cfg ev sys l :
  truthy_str (Batch.apiEndpoint cfg) = false ->
  is_clear ev = false ->
  Batch.entries (object sys) = JArr l ->
  in_flight sys = [] ->
  Batch.pendingEntries (object (sys_step cfg ev sys))
    = Batch.pendingEntries (object sys) ++ created_by cfg ev /\
  in_flight (sys_step cfg ev sys) = [] /\
  exists l', Batch.entries (object (sys_step cfg ev sys)) = JArr l'.
Proof.
intros Hend Hclear Hl Hfl.
destruct ev as [o|i o].
- destruct o as [e|e c|e m src ln col err|e reason|e|batch o|args|];
    try discriminate; cbv beta iota delta [sys_step]; cbn [object in_flight].
  + destruct (trackPageView_spec cfg e _ _ Hl) as (w' & Hc & He & Hp).
    cbn [Batch.step]. rewrite Hc. simpl. rewrite Hp, He. split; [done|]. split; [done|]. by eexists.
  + destruct (capture_spec cfg e c _ _ Hl) as (w' & Hc & He & Hp).
    cbn [Batch.step]. rewrite Hc. simpl. rewrite Hp, He.
    split; [done|]. split; [done|]. by eexists.
  + cbn [Batch.step created_by]. unfold Batch.handleError.
    destruct (Batch.stack_of err) as [stack|x]; simpl.
    * match goal with
      | |- context [Batch.logError cfg e ?m ?d (object sys)] =>
          destruct (logError_spec cfg e m d _ _ Hl) as (w' & -> & He & Hp)
      end.
      simpl. rewrite Hp, He. split; [done|]. split; [done|]. by eexists.
    * rewrite app_nil_r. split; [done|]. split; [done|]. by eexists.
  + cbn [Batch.step created_by]. unfold Batch.handlePromiseRejection.
    destruct (Batch.stack_of reason) as [stack|x]; simpl.
    * match goal with
      | |- context [Batch.logError cfg e ?m ?d (object sys)] =>
          destruct (logError_spec cfg e m d _ _ Hl) as (w' & -> & He & Hp)
      end.
      simpl. rewrite Hp, He. split; [done|]. split; [done|]. by eexists.
    * rewrite app_nil_r. split; [done|]. split; [done|]. by eexists.
  + unfold Batch.flush, Batch.sendPendingData. rewrite Hend. simpl.
    rewrite !app_nil_r. split; [done|]. split; [done|]. by eexists.
  + simpl. rewrite app_nil_r. split; [done|]. split; [done|]. by eexists.
  + simpl. rewrite app_nil_r. split; [done|]. split; [done|]. by eexists.
- simpl. rewrite Hfl. simpl. rewrite app_nil_r, Hfl.
  split; [done|]. split; [done|]. by eexists.
Qed.

Lemma sys_run_without_endpoint cfg events : forall sys l,
  truthy_str (Batch.apiEndpoint cfg) = false ->
  never_cleared events ->
  Batch.entries (object sys) = JArr l ->
  in_flight sys = [] ->
  Batch.pendingEntries (object (sys_run cfg events sys))
    = Batch.pendingEntries (object sys) ++ created_during cfg events /\
  in_flight (sys_run cfg events sys) = [].
Proof.
induction events as [|ev events IH]; intros sys l Hend Hnc Hl Hfl.
- unfold created_during. simpl. by rewrite app_nil_r.
- inversion Hnc as [|? ? Hev Hrest]; subst.
  destruct (sys_step_without_endpoint cfg ev sys l Hend Hev Hl Hfl)
    as (Hp & Hf & l' & Hl').
  destruct (IH (sys_step cfg ev sys) l' Hend Hrest Hl' Hf) as [Hp' Hf'].
  unfold sys_run in *. simpl. rewrite Hp', Hf', Hp.
  unfold created_during. simpl. by rewrite app_assoc.
Qed.

(** X10: without an endpoint in the configuration (the default) nothing
    ever leaves the pending queue but by [clear]: whatever calls, hook
    invocations, flushes and settlements happen, the queue is what it was
    followed by every entry created since, no request is issued, and the
    queue's length is not bounded by the cap of the durable log. *)
Theorem queue_only_grows_without_endpoint cfg events w l :
  truthy_str (Batch.apiEndpoint cfg) = false ->
  Batch.entries w = JArr l ->
  never_cleared events ->
  Batch.pendingEntries (object (sys_run cfg events {| object := w; in_flight := [] |}))
    = Batch.pendingEntries w ++ created_during cfg events /\
  in_flight (sys_run cfg events {| object := w; in_flight := [] |}) = [] /\
  length (Batch.pendingEntries
            (object (sys_run cfg events {| object := w; in_flight := [] |})))
    = (length (Batch.pendingEntries w) + length (created_during cfg events))%nat.
Proof.
intros Hend Hl Hnc.
destruct (sys_run_without_endpoint cfg events {| object := w; in_flight := [] |} l
            Hend Hnc Hl eq_refl) as [Hp Hf].
simpl in Hp. split; [done|]. split; [done|]. by rewrite Hp, length_app.
Qed.

Lemma queue_only_grows_witness :
  in_flight
    (sys_run Batch.defaultConfig
       [Calls (Batch.OpCapture sample_env (Batch.CallLog (JStr "one") JNull));
        Calls (Batch.OpFlush sample_env);
        Settles 0 (NetworkFailure "offline")]
       {| object := (after_init Batch.defaultConfig empty_storage).1;
          in_flight := [] |}) = [] /\
  length (Batch.pendingEntries
    (object (sys_run Batch.defaultConfig
       [Calls (Batch.OpCapture sample_env (Batch.CallLog (JStr "one") JNull));
        Calls (Batch.OpFlush sample_env);
        Settles 0 (NetworkFailure "offline")]
       {| object := (after_init Batch.defaultConfig empty_storage).1;
          in_flight := [] |}))) = 2%nat.
Proof.
destruct (queue_only_grows_without_endpoint Batch.defaultConfig
  [Calls (Batch.OpCapture sample_env (Batch.CallLog (JStr "one") JNull));
   Calls (Batch.OpFlush sample_env);
   Settles 0 (NetworkFailure "offline")]
  (after_init Batch.defaultConfig empty_storage).1
  [Batch.pageview_entry Batch.defaultConfig sample_env]) as (_ & Hf & Hlen).
- reflexivity.
- vm_compute. reflexivity.
- repeat constructor.
- split; [exact Hf|]. rewrite Hlen. vm_compute. reflexivity.
Defined.

(** ** The request of a flush *)

Lemma distinct_keys_take n l :
  forallb distinct_keys l = true -> forallb distinct_keys (take n l) = true.
Proof.
rewrite !forallb_forall. intros H x Hx. apply H.
apply list_elem_of_In. apply list_elem_of_In in Hx. by eapply subseteq_take.
Qed.

Lemma distinct_keys_payload cfg batch :
  distinct_keys (Batch.siteId cfg) = true ->
  forallb distinct_keys batch = true ->
  distinct_keys (payload_of cfg batch) = true.
Proof.
intros Hs Hb. unfold payload_of. cbn [distinct_keys forallb snd].
rewrite Hs, Hb. by destruct (Batch.apiKey cfg).
Qed.

(** X11: a flush with an endpoint configured and a non-empty queue issues
    one POST request to the endpoint, with [keepalive] set, the JSON
    content type, and the [X-API-Key] header exactly when the configured
    key is a non-empty string.  Its body is JSON text that parses to the
    payload (site id, API key, and the batch taken off the front of the
    queue) with [undefined] array elements read as [null] and [undefined]
    members left out. *)
Theorem flush_request_carries_the_batch cfg e w endpoint :
  Batch.apiEndpoint cfg = Some endpoint ->
  endpoint <> EmptyString ->
  Batch.pendingEntries w <> [] ->
  distinct_keys (Batch.siteId cfg) = true ->
  forallb distinct_keys (Batch.pendingEntries w) = true ->
  exists w1 fl,
    Batch.flush cfg e w = (w1, Some fl) /\
    Batch.entriesToSend fl
      = take (Z.to_nat (Batch.maxBatchSize cfg)) (Batch.pendingEntries w) /\
    url (Batch.sent fl) = endpoint /\
    method (Batch.sent fl) = "POST" /\
    keepalive (Batch.sent fl) = true /\
    headers (Batch.sent fl)
      = ("Content-Type", "application/json")
        :: match Batch.apiKey cfg with
           | Some key => if String.eqb key EmptyString then [] else [("X-API-Key", key)]
           | None => []
           end /\
    JSON.parse (body (Batch.sent fl))
      = Some (clean (payload_of cfg (Batch.entriesToSend fl))).
Proof.
intros Hend Hne Hq Hsite Hd.
assert (truthy_str (Batch.apiEndpoint cfg) = true) as Htruthy.
{ rewrite Hend. simpl. apply String.eqb_neq in Hne. by rewrite Hne. }
unfold Batch.flush, Batch.sendPendingData. rewrite Htruthy.
destruct (Batch.pendingEntries w) as [|x q] eqn:Hw; [done|].
cbn [negb orb length Nat.eqb splice_front].
eexists _, _. split; [reflexivity|]. cbn [Batch.entriesToSend Batch.sent].
split; [done|]. rewrite Hend. cbn [default Batch.sendToApi url method keepalive headers body].
split; [done|]. split; [done|]. split; [done|]. split.
- destruct (Batch.apiKey cfg) as [key|]; [|done]. simpl.
  by destruct (String.eqb key EmptyString).
- apply (parse_print_clean (payload_of cfg _)).
  apply distinct_keys_payload; [done|]. by apply distinct_keys_take.
Qed.

Lemma flush_request_witness :
  exists w1 fl,
    Batch.flush sending_config sample_env busy_world = (w1, Some fl) /\
    headers (Batch.sent fl)
      = [("Content-Type", "application/json"); ("X-API-Key", "k-123")] /\
    JSON.parse (body (Batch.sent fl))
      = Some (clean (payload_of sending_config (Batch.entriesToSend fl))).
Proof.
destruct (flush_request_carries_the_batch sending_config sample_env busy_world
            "https://logs.example.org/collect")
  as (w1 & fl & Hfl & _ & _ & _ & _ & Hh & Hbody).
- reflexivity.
- discriminate.
- vm_compute. discriminate.
- reflexivity.
- vm_compute. reflexivity.
- exists w1, fl. split; [exact Hfl|]. split; [exact Hh|exact Hbody].
Defined.

(** ** The error hooks *)

Lemma substring_front_length n s : (String.length (String.substring 0 n s) <= n)%nat.
Proof.
revert s. induction n as [|n IH]; intros s; [by destruct s|].
destruct s as [|c s]; simpl; [lia|]. specialize (IH s). lia.
Qed.

Lemma substring_front_prefix n s :
  exists rest, s = String.substring 0 n s +:+ rest.
Proof.
revert s. induction n as [|n IH]; intros s.
- exists s. by destruct s.
- destruct s as [|c s]; [by exists EmptyString|].
  destruct (IH s) as [rest Hrest]. exists rest.
  change (String c s = String c (String.substring 0 n s +:+ rest)).
  by rewrite <- Hrest.
Qed.

Lemma substring_front_short n s :
  (String.length s <= n)%nat -> String.substring 0 n s = s.
Proof.
revert s. induction n as [|n IH]; intros s Hlen.
- destruct s; [done|simpl in Hlen; lia].
- destruct s as [|c s]; [done|]. simpl in *. rewrite IH; [done|lia].
Qed.

Lemma truthy_get_prop error : truthy error = true -> exists v, get_prop error "stack" = Ok v.
Proof. destruct error; try done; by eexists. Qed.

Lemma stack_of_cases error :
  (exists stack, Batch.stack_of error = Ok stack /\ kept_stack error stack) \/
  (Batch.stack_of error = Throw TypeError /\ unusable_stack error).
Proof.
unfold Batch.stack_of.
destruct (truthy error) eqn:Herror.
- destruct (truthy_get_prop error Herror) as [v Hv]. rewrite Hv. simpl.
  destruct (truthy v) eqn:Htruthy.
  + destruct v as [| |b|n|s|items|props];
      try (right; split; [done|]; eexists; by repeat split).
    left. eexists. split; [done|]. right. exists s.
    split; [done|]. split; [done|]. split; [by intros ->|]. split; [done|].
    unfold substring. rewrite Nat.sub_0_r.
    split; [apply substring_front_length|].
    split; [apply substring_front_prefix|apply substring_front_short].
  + left. exists JNull. split; [done|]. left. split; [done|]. right. by exists v.
- left. exists JNull. split; [done|]. left. split; [done|]. by left.
Qed.

(** X12: the [window.onerror] hook records an error entry whose message is
    the browser's message behind the prefix [JavaScript Error: ], with the
    source, line, column and stack as data, and returns [false]; the
    [onunhandledrejection] hook records [String(reason)] and the stack and
    returns [undefined].  The stack kept is [null] when the error (or
    reason) or its stack is falsy, and else the first 500 characters of the
    stack string, all of it when it is no longer.  When the stack is
    truthy and no string, the hook raises a TypeError before anything is
    recorded. *)
Theorem hooks_keep_the_first_500_of_the_stack cfg e w l :
  Batch.entries w = JArr l ->
  (forall message source lineno colno error,
     (exists stack w',
        kept_stack error stack /\
        Batch.handleError cfg e message source lineno colno error w
          = (w', Ok (JBool false)) /\
        appended (handled_error_entry cfg e message source lineno colno stack) l w w') \/
     (unusable_stack error /\
      Batch.handleError cfg e message source lineno colno error w
        = (w, Throw TypeError))) /\
  (forall reason,
     (exists stack w',
        kept_stack reason stack /\
        Batch.handlePromiseRejection cfg e reason w = (w', Ok JUndefined) /\
        appended (rejection_entry cfg e reason stack) l w w') \/
     (unusable_stack reason /\
      Batch.handlePromiseRejection cfg e reason w = (w, Throw TypeError))).
Proof.
intros Hl. split.
- intros message source lineno colno error. unfold Batch.handleError.
  destruct (stack_of_cases error) as [(stack & -> & Hkept)|[-> Hbad]];
    [left|by right].
  exists stack.
  match goal with
  | |- context [Batch.logError cfg e ?m ?d w] =>
      destruct (logError_spec cfg e m d _ _ Hl) as (w' & -> & Happ)
  end.
  by exists w'.
- intros reason. unfold Batch.handlePromiseRejection.
  destruct (stack_of_cases reason) as [(stack & -> & Hkept)|[-> Hbad]];
    [left|by right].
  exists stack.
  match goal with
  | |- context [Batch.logError cfg e ?m ?d w] =>
      destruct (logError_spec cfg e m d _ _ Hl) as (w' & -> & Happ)
  end.
  by exists w'.
Qed.

Lemma hooks_keep_stack_witness :
  Batch.handleError sending_config sample_env "boom" (JStr "app.js") (JNum 3) (JNum 7)
      (JObj [("stack", JNum 5)]) busy_world
    = (busy_world, Throw TypeError).
Proof.
destruct (proj1 (hooks_keep_the_first_500_of_the_stack sending_config sample_env
            busy_world (log_items (Batch.entries busy_world)) eq_refl)
            "boom" (JStr "app.js") (JNum 3) (JNum 7) (JObj [("stack", JNum 5)]))
  as [(stack & w' & _ & Hcall & _)|[_ Hcall]].
- vm_compute in Hcall. discriminate.
- exact Hcall.
Defined.

(** ** The hook of the simple logger *)

(** X13: the [window.onerror] hook of the simple logger never raises,
    whatever it is given as the error: it reads the stack with [?.], so a
    missing error gives [undefined] and a stack of any type or length is
    recorded as it is, without the cut at 500 characters the batching
    logger makes.  It records one ERROR entry and returns [false]. *)
Theorem simple_hook_never_raises e message source lineno colno err w l :
  Simple.logs w = JArr l ->
  exists w',
    Simple.logError e message source lineno colno err w = (w', Ok (JBool false)) /\
    Simple.logs w'
      = JArr (slice_last Simple.MAX_LOGS
                (l ++ [simple_error_entry e message source lineno colno err])) /\
    (nullish err = true -> Simple.optional_stack err = JUndefined) /\
    (forall v, get_prop err "stack" = Ok v -> Simple.optional_stack err = v).
Proof.
intros Hl. unfold Simple.logError, Simple.error.
match goal with
| |- context [Simple.log e ?lv ?m ?d w] =>
    destruct (simple_log_spec e lv m d w l Hl) as (w' & -> & Hlogs)
end.
exists w'. split; [done|]. split; [done|]. split.
- by destruct err.
- intros v Hv. unfold Simple.optional_stack. by rewrite Hv.
Qed.

Lemma simple_hook_witness :
  exists w',
    Simple.logError sample_env (JStr "boom") (JStr "app.js") (JNum 3) (JNum 7)
      JUndefined simple_busy_world = (w', Ok (JBool false)).
Proof.
destruct (simple_hook_never_raises sample_env (JStr "boom") (JStr "app.js")
            (JNum 3) (JNum 7) JUndefined simple_busy_world
            (log_items (Simple.logs simple_busy_world)) eq_refl)
  as (w' & Hcall & _).
by exists w'.
Defined.

(** ** Reading a log that holds [null] *)

Lemma filter_level_nullish level l :
  existsb nullish l = true -> Simple.filter_level level l = Throw TypeError.
Proof.
induction l as [|x l IH]; [done|]. simpl. intros H.
apply orb_prop in H as [Hx|Hl].
- by destruct x.
- rewrite (IH Hl). by destruct x.
Qed.

Lemma filter_level_sublist level l :
  existsb nullish l = false ->
  exists kept, Simple.filter_level level l = Ok kept /\ sublist kept l.
Proof.
induction l as [|x l IH]; simpl; intros H.
- by exists [].
- apply orb_false_elim in H as [Hx Hl].
  destruct (IH Hl) as (kept & -> & Hsub).
  destruct (get_prop x "level") as [lv|ex] eqn:Hlv; [|by destruct x].
  simpl. destruct (strict_eq lv level); eexists; split; try done.
  + by apply sublist_skip.
  + by apply sublist_cons.
Qed.

(** X14: [getLogs] with a truthy level reads [l.level] of every element,
    so on a log that is an array it raises a TypeError exactly when the log
    holds [null] or [undefined] (as a stored text such as [[null]] loads);
    otherwise it returns some of the entries, in the order of the log.  It
    never changes the logger. *)
Theorem getLogs_raises_exactly_on_null_entries level w l :
  truthy level = true ->
  Simple.logs w = JArr l ->
  (Simple.getLogs level w).1 = w /\
  ((Simple.getLogs level w).2 = Throw TypeError <-> existsb nullish l = true) /\
  (existsb nullish l = false ->
   exists kept, (Simple.getLogs level w).2 = Ok (JArr kept) /\ sublist kept l).
Proof.
intros Hlevel Hl. unfold Simple.getLogs. rewrite Hlevel, Hl.
destruct (existsb nullish l) eqn:Hnull.
- rewrite (filter_level_nullish level l Hnull). by repeat split.
- destruct (filter_level_sublist level l Hnull) as (kept & -> & Hsub).
  split; [done|]. split; [by split|]. intros _. by exists kept.
Qed.

Lemma getLogs_raises_witness :
  (Simple.getLogs (JStr "INFO")
     (Simple.loadLogs (Simple.fresh (storage_holding "[null]")))).2
    = Throw TypeError.
Proof.
apply (proj1 (proj2 (getLogs_raises_exactly_on_null_entries (JStr "INFO")
         (Simple.loadLogs (Simple.fresh (storage_holding "[null]"))) [JNull]
         eq_refl ltac:(vm_compute; reflexivity)))).
reflexivity.
Defined.

(** ** The console *)

Lemma saveToStorage_console w :
  Batch.console (Batch.saveToStorage w) = Batch.console w.
Proof.
unfold Batch.saveToStorage. destruct (Batch.entries w); try done.
by destruct (setItem _ _ _).
Qed.

Lemma debug_quiet cfg e m d w :
  mirrors cfg e = false -> Batch.debug cfg e m d w = w.
Proof. unfold mirrors, Batch.debug. by intros ->. Qed.

Lemma logError_quiet cfg e m d w :
  mirrors cfg e = false ->
  Batch.console (Batch.logError cfg e m d w).1 = Batch.console w.
Proof.
intros Hq. unfold Batch.logError. destruct (push _ _); [|done]. simpl.
by rewrite debug_quiet, saveToStorage_console.
Qed.

Lemma step_quiet cfg o w :
  (forall e, env_of (Calls o) = Some e -> mirrors cfg e = false) ->
  Batch.console (Batch.step cfg o w).1 = Batch.console w.
Proof.
intros Hq.
destruct o as [e|e c|e m src ln col err|e reason|e|batch o|args|]; simpl.
- unfold Batch.trackPageView. destruct (push _ _); [|done]. simpl.
  rewrite debug_quiet by by apply Hq. by rewrite saveToStorage_console.
- destruct c as [m d|m d]; simpl.
  + unfold Batch.log. destruct (push _ _); [|done]. simpl.
    by rewrite saveToStorage_console.
  + apply logError_quiet. by apply Hq.
- unfold Batch.handleError. destruct (Batch.stack_of err); [|done].
  rewrite and_then_keeps_world. apply logError_quiet. by apply Hq.
- unfold Batch.handlePromiseRejection. destruct (Batch.stack_of reason); [|done].
  rewrite and_then_keeps_world. apply logError_quiet. by apply Hq.
- unfold Batch.flush, Batch.sendPendingData. destruct (_ || _); [done|]. simpl.
  by rewrite debug_quiet by by apply Hq.
- by destruct (on_settled_cases batch o w) as [-> | ->].
- done.
- unfold Batch.clear. by destruct (removeItem _ _).
Qed.

Lemma sys_step_quiet cfg ev sys :
  (forall e, env_of ev = Some e -> mirrors cfg e = false) ->
  Batch.console (object (sys_step cfg ev sys)) = Batch.console (object sys).
Proof.
intros Hq. destruct ev as [o|i o].
- destruct o as [e|e c|e m src ln col err|e reason|e|batch o|args|];
    try (cbv beta iota delta [sys_step]; cbn [object]; by apply step_quiet).
  + pose proof (step_quiet cfg (Batch.OpFlush e) (object sys) Hq) as H.
    simpl in H. unfold sys_step. by destruct (Batch.flush cfg e (object sys)).
  + done.
- simpl. destruct (in_flight sys !! i) as [batch|]; [|done]. simpl.
  by destruct (on_settled_cases batch o (object sys)) as [-> | ->].
Qed.

(** X15: in production (debug mode off, the page not served from
    [localhost]) the batching logger never writes to the console: not at
    [init], and not in any sequence of calls, hook invocations, flushes
    and settlements, including refused storage writes and failed
    requests. *)
Theorem batch_logger_is_silent_in_production cfg :
  (forall e w, mirrors cfg e = false ->
     Batch.console (Batch.init cfg e w).1 = Batch.console w) /\
  (forall events sys, in_production cfg events ->
     Batch.console (object (sys_run cfg events sys)) = Batch.console (object sys)).
Proof.
split.
- intros e w Hq. unfold Batch.init.
  assert (Batch.console (Batch.loadFromStorage w) = Batch.console w) as Hload by done.
  destruct (Batch.trackPageViews cfg).
  + pose proof (step_quiet cfg (Batch.OpTrackPageView e) (Batch.loadFromStorage w)) as Hpv.
    simpl in Hpv. destruct (Batch.trackPageView cfg e _) as [w1 [v|x]]; simpl in *.
    * rewrite debug_quiet by done.
      destruct (truthy_str _); simpl; rewrite Hpv; try done; by intros ? [= <-].
    * rewrite Hpv; [done|]. by intros ? [= <-].
  + simpl. rewrite debug_quiet by done. by destruct (truthy_str _).
- intros events sys Hall. revert sys.
  induction Hall as [|ev events Hev _ IH]; intros sys; [done|].
  unfold sys_run in *. simpl. rewrite IH. by apply sys_step_quiet.
Qed.

Lemma batch_logger_is_silent_witness :
  Batch.console
    (object (sys_run sending_config
       [Calls (Batch.OpCapture sample_env (Batch.CallLogError (JStr "one") JNull));
        Calls (Batch.OpFlush sample_env);
        Settles 0 (NetworkFailure "offline")]
       {| object := Batch.fresh sample_env disabled_storage; in_flight := [] |}))
    = [].
Proof.
apply (proj2 (batch_logger_is_silent_in_production sending_config)).
repeat constructor; by intros ? [= <-].
Defined.

Lemma saveLogs_console w l :
  Simple.logs w = JArr l ->
  Simple.console (Simple.saveLogs w)
    = Simple.console w
      ++ match setItem (Simple.localStorage w) Simple.STORAGE_KEY
                 (JSON.print_to (JArr (slice_last Simple.MAX_LOGS l)) EmptyString) with
         | Throw x => [save_warning x]
         | Ok _ => []
         end.
Proof.
intros Hl. unfold Simple.saveLogs. rewrite Hl.
assert ((if (Simple.MAX_LOGS <? length l)%nat then slice_last Simple.MAX_LOGS l else l)
        = slice_last Simple.MAX_LOGS l) as ->.
{ destruct (Nat.ltb_spec Simple.MAX_LOGS (length l)); [done|].
  by rewrite slice_last_short. }
cbn [Simple.set_logs Simple.localStorage].
destruct (setItem _ _ _) as [st|x]; simpl; [by rewrite app_nil_r|done].
Qed.

Lemma simple_log_console e level message data w l :
  Simple.logs w = JArr l ->
  Simple.console (Simple.log e level message data w).1
    = Simple.console w
      ++ match setItem (Simple.localStorage w) Simple.STORAGE_KEY
                 (JSON.print_to
                    (JArr (slice_last Simple.MAX_LOGS
                             (l ++ [Simple.log_entry e level message data])))
                    EmptyString) with
         | Throw x => [save_warning x]
         | Ok _ => []
         end
      ++ (if String.eqb (hostname e) "localhost"
          then [log_line level message data] else []).
Proof.
intros Hl. unfold Simple.log. rewrite Hl. cbn [push].
cbv beta iota zeta. cbn [fst].
destruct (String.eqb (hostname e) "localhost"); cbn [Simple.print_console Simple.console];
  rewrite (saveLogs_console _ (l ++ [Simple.log_entry e level message data])) by done;
  cbn [Simple.set_logs Simple.localStorage Simple.console].
- by rewrite <- app_assoc.
- by rewrite app_nil_r.
Qed.

(** X16: what a capture call of the simple logger prints.  When the
    storage refuses the write of the trimmed log, [saveLogs] prints one
    warning, in production too; then, on [localhost] only, [log] prints
    the level and the message with the data.  It prints nothing else, and
    the call completes with [undefined] either way. *)
Theorem simple_capture_prints_warning_on_refused_write e c w l :
  Simple.logs w = JArr l ->
  (Simple.capture e c w).2 = Ok JUndefined /\
  Simple.console (Simple.capture e c w).1
    = Simple.console w
      ++ match setItem (Simple.localStorage w) Simple.STORAGE_KEY
                 (JSON.print_to
                    (JArr (slice_last Simple.MAX_LOGS (l ++ [Simple.entry_of e c])))
                    EmptyString) with
         | Throw x => [save_warning x]
         | Ok _ => []
         end
      ++ (if String.eqb (hostname e) "localhost"
          then [log_line (level_message_data c).1.1 (level_message_data c).1.2
                  (level_message_data c).2]
          else []).
Proof.
intros Hl.
destruct (simple_capture_spec e c w l Hl) as (w' & Hc & _).
split; [by rewrite Hc|].
destruct c as [level m d|m d|m d|m d];
  cbn [Simple.capture Simple.entry_of level_message_data fst snd].
- by apply simple_log_console.
- unfold Simple.info.
  pose proof (simple_log_console e (JStr "INFO") m d w l Hl) as H.
  by destruct (Simple.log e (JStr "INFO") m d w) as [w1 [v|x]].
- unfold Simple.warn.
  pose proof (simple_log_console e (JStr "WARN") m d w l Hl) as H.
  by destruct (Simple.log e (JStr "WARN") m d w) as [w1 [v|x]].
- unfold Simple.error.
  pose proof (simple_log_console e (JStr "ERROR") m d w l Hl) as H.
  by destruct (Simple.log e (JStr "ERROR") m d w) as [w1 [v|x]].
Qed.

Lemma simple_capture_prints_witness :
  Simple.console
    (Simple.capture sample_env (Simple.CallInfo (JStr "one") JNull)
       (Simple.fresh disabled_storage)).1
    = [save_warning SecurityError].
Proof.
exact (proj2 (simple_capture_prints_warning_on_refused_write sample_env
         (Simple.CallInfo (JStr "one") JNull) (Simple.fresh disabled_storage) []
         eq_refl)).
Defined.

(** ** Start-up *)

Lemma loadFromStorage_fresh e st :
  Batch.hooks (Batch.loadFromStorage (Batch.fresh e st)) = [] /\
  Batch.batchTimer (Batch.loadFromStorage (Batch.fresh e st)) = None /\
  Batch.pendingEntries (Batch.loadFromStorage (Batch.fresh e st)) = [].
Proof. done. Qed.

Lemma saveToStorage_hooks w :
  Batch.hooks (Batch.saveToStorage w) = Batch.hooks w.
Proof.
unfold Batch.saveToStorage. destruct (Batch.entries w); try done.
by destruct (setItem _ _ _).
Qed.

Lemma saveToStorage_timer w :
  Batch.batchTimer (Batch.saveToStorage w) = Batch.batchTimer w.
Proof.
unfold Batch.saveToStorage. destruct (Batch.entries w); try done.
by destruct (setItem _ _ _).
Qed.

Lemma debug_hooks cfg e m d w :
  Batch.hooks (Batch.debug cfg e m d w) = Batch.hooks w.
Proof. unfold Batch.debug. by destruct (_ || _). Qed.

Lemma debug_timer cfg e m d w :
  Batch.batchTimer (Batch.debug cfg e m d w) = Batch.batchTimer w.
Proof. unfold Batch.debug. by destruct (_ || _). Qed.

Lemma trackPageView_hooks cfg e w :
  Batch.hooks (Batch.trackPageView cfg e w).1 = Batch.hooks w /\
  Batch.batchTimer (Batch.trackPageView cfg e w).1 = Batch.batchTimer w.
Proof.
unfold Batch.trackPageView. destruct (push _ _); [|done]. simpl.
by rewrite debug_hooks, debug_timer, saveToStorage_hooks, saveToStorage_timer.
Qed.



(** ** From one visit to the next *)

Lemma saveToStorage_accepted w l :
  Batch.entries w = JArr l ->
  blocked (Batch.localStorage w) = false ->
  capacity (Batch.localStorage w) = None ->
  blocked (Batch.localStorage (Batch.saveToStorage w)) = false /\
  capacity (Batch.localStorage (Batch.saveToStorage w)) = None /\
  items (Batch.localStorage (Batch.saveToStorage w)) !! Batch.STORAGE_KEY
    = Some (JSON.print_to (JArr (slice_last Batch.MAX_ENTRIES l)) EmptyString).
Proof.
intros Hl Hb Hc.
pose proof (saveToStorage_storage w l Hl) as Hw.
unfold write_attempted, setItem in Hw. rewrite Hb, Hc in Hw. rewrite Hw. simpl.
by rewrite lookup_insert_eq.
Qed.

Lemma trackPageView_written cfg e w l :
  Batch.entries w = JArr l ->
  blocked (Batch.localStorage w) = false ->
  capacity (Batch.localStorage w) = None ->
  exists w',
    Batch.trackPageView cfg e w = (w', Ok JUndefined) /\
    Batch.entries w'
      = JArr (slice_last Batch.MAX_ENTRIES (l ++ [Batch.pageview_entry cfg e])) /\
    blocked (Batch.localStorage w') = false /\
    capacity (Batch.localStorage w') = None /\
    items (Batch.localStorage w') !! Batch.STORAGE_KEY
      = Some (JSON.print_to
                (JArr (slice_last Batch.MAX_ENTRIES (l ++ [Batch.pageview_entry cfg e])))
                EmptyString).
Proof.
intros Hl Hb Hc.
destruct (trackPageView_spec cfg e w l Hl) as (w' & Hcall & He & _).
exists w'. split; [done|]. split; [done|].
unfold Batch.trackPageView in Hcall. rewrite Hl in Hcall. simpl in Hcall.
injection Hcall as <-. rewrite debug_storage.
by apply saveToStorage_accepted.
Qed.

Lemma capture_written cfg e c w l :
  Batch.entries w = JArr l ->
  blocked (Batch.localStorage w) = false ->
  capacity (Batch.localStorage w) = None ->
  exists w',
    Batch.capture cfg e c w = (w', Ok (Batch.entry_of cfg e c)) /\
    Batch.entries w'
      = JArr (slice_last Batch.MAX_ENTRIES (l ++ [Batch.entry_of cfg e c])) /\
    blocked (Batch.localStorage w') = false /\
    capacity (Batch.localStorage w') = None /\
    items (Batch.localStorage w') !! Batch.STORAGE_KEY
      = Some (JSON.print_to
                (JArr (slice_last Batch.MAX_ENTRIES (l ++ [Batch.entry_of cfg e c])))
                EmptyString).
Proof.
intros Hl Hb Hc.
destruct (capture_spec cfg e c w l Hl) as (w' & Hcall & He & _).
exists w'. split; [done|]. split; [done|].
destruct c as [m d|m d]; simpl in Hcall;
  unfold Batch.log, Batch.logError in Hcall; rewrite Hl in Hcall; simpl in Hcall;
  injection Hcall as <-; rewrite ?debug_storage;
  by apply saveToStorage_accepted.
Qed.

Lemma run_written cfg calls : forall w l0,
  Batch.entries w = JArr (slice_last Batch.MAX_ENTRIES l0) ->
  blocked (Batch.localStorage w) = false ->
  capacity (Batch.localStorage w) = None ->
  items (Batch.localStorage w) !! Batch.STORAGE_KEY
    = Some (JSON.print_to (JArr (slice_last Batch.MAX_ENTRIES l0)) EmptyString) ->
  exists w',
    Batch.run cfg calls w = (w', Ok JUndefined) /\
    blocked (Batch.localStorage w') = false /\
    items (Batch.localStorage w') !! Batch.STORAGE_KEY
      = Some (JSON.print_to
                (JArr (slice_last Batch.MAX_ENTRIES (l0 ++ Batch.created cfg calls)))
                EmptyString).
Proof.
induction calls as [|[e c] calls IH]; intros w l0 Hl Hb Hc Hslot; simpl.
- exists w. by rewrite app_nil_r.
- destruct (capture_written cfg e c w _ Hl Hb Hc) as (w1 & -> & He & Hb1 & Hc1 & Hs1).
  simpl. rewrite slice_last_app in He, Hs1.
  destruct (IH w1 _ He Hb1 Hc1 Hs1) as (w' & -> & Hb' & Hs').
  exists w'. split; [done|]. split; [done|].
  by rewrite Hs', <- app_assoc.
Qed.

Lemma distinct_keys_slice_last n l :
  forallb distinct_keys l = true -> forallb distinct_keys (slice_last n l) = true.
Proof.
rewrite !forallb_forall. intros H x Hx. apply H.
apply list_elem_of_In. apply list_elem_of_In in Hx. by eapply subseteq_drop.
Qed.




(** ** The simple logger from one visit to the next *)

Lemma saveLogs_accepted w l :
  Simple.logs w = JArr l ->
  blocked (Simple.localStorage w) = false ->
  capacity (Simple.localStorage w) = None ->
  blocked (Simple.localStorage (Simple.saveLogs w)) = false /\
  capacity (Simple.localStorage (Simple.saveLogs w)) = None /\
  items (Simple.localStorage (Simple.saveLogs w)) !! Simple.STORAGE_KEY
    = Some (JSON.print_to (JArr (slice_last Simple.MAX_LOGS l)) EmptyString).
Proof.
intros Hl Hb Hc.
pose proof (saveLogs_storage w l Hl) as Hw.
unfold write_attempted, setItem in Hw. rewrite Hb, Hc in Hw. rewrite Hw. simpl.
by rewrite lookup_insert_eq.
Qed.

Lemma simple_log_written e level message data w l :
  Simple.logs w = JArr l ->
  blocked (Simple.localStorage w) = false ->
  capacity (Simple.localStorage w) = None ->
  exists w',
    Simple.log e level message data w = (w', Ok JUndefined) /\
    Simple.logs w'
      = JArr (slice_last Simple.MAX_LOGS
                (l ++ [Simple.log_entry e level message data])) /\
    blocked (Simple.localStorage w') = false /\
    capacity (Simple.localStorage w') = None /\
    items (Simple.localStorage w') !! Simple.STORAGE_KEY
      = Some (JSON.print_to
                (JArr (slice_last Simple.MAX_LOGS
                         (l ++ [Simple.log_entry e level message data])))
                EmptyString).
Proof.
intros Hl Hb Hc.
destruct (simple_log_spec e level message data w l Hl) as (w' & Hcall & He).
exists w'. split; [done|]. split; [done|].
unfold Simple.log in Hcall. rewrite Hl in Hcall. simpl in Hcall.
injection Hcall as <-.
destruct (String.eqb (hostname e) "localhost");
  cbn [Simple.print_console Simple.localStorage];
  by apply (saveLogs_accepted _ (l ++ [Simple.log_entry e level message data])).
Qed.

Lemma simple_capture_written e c w l :
  Simple.logs w = JArr l ->
  blocked (Simple.localStorage w) = false ->
  capacity (Simple.localStorage w) = None ->
  exists w',
    Simple.capture e c w = (w', Ok JUndefined) /\
    Simple.logs w'
      = JArr (slice_last Simple.MAX_LOGS (l ++ [Simple.entry_of e c])) /\
    blocked (Simple.localStorage w') = false /\
    capacity (Simple.localStorage w') = None /\
    items (Simple.localStorage w') !! Simple.STORAGE_KEY
      = Some (JSON.print_to
                (JArr (slice_last Simple.MAX_LOGS (l ++ [Simple.entry_of e c])))
                EmptyString).
Proof.
intros Hl Hb Hc. destruct c as [level m d|m d|m d|m d]; simpl.
- by apply simple_log_written.
- unfold Simple.info.
  destruct (simple_log_written e (JStr "INFO") m d w l Hl Hb Hc) as (w' & -> & H).
  by exists w'.
- unfold Simple.warn.
  destruct (simple_log_written e (JStr "WARN") m d w l Hl Hb Hc) as (w' & -> & H).
  by exists w'.
- unfold Simple.error.
  destruct (simple_log_written e (JStr "ERROR") m d w l Hl Hb Hc) as (w' & -> & H).
  by exists w'.
Qed.

Lemma simple_run_written calls : forall w l0,
  Simple.logs w = JArr (slice_last Simple.MAX_LOGS l0) ->
  blocked (Simple.localStorage w) = false ->
  capacity (Simple.localStorage w) = None ->
  items (Simple.localStorage w) !! Simple.STORAGE_KEY
    = Some (JSON.print_to (JArr (slice_last Simple.MAX_LOGS l0)) EmptyString) ->
  exists w',
    Simple.run calls w = (w', Ok JUndefined) /\
    blocked (Simple.localStorage w') = false /\
    items (Simple.localStorage w') !! Simple.STORAGE_KEY
      = Some (JSON.print_to
                (JArr (slice_last Simple.MAX_LOGS (l0 ++ Simple.created calls)))
                EmptyString).
Proof.
induction calls as [|[e c] calls IH]; intros w l0 Hl Hb Hc Hslot; simpl.
- exists w. by rewrite app_nil_r.
- destruct (simple_capture_written e c w _ Hl Hb Hc)
    as (w1 & -> & He & Hb1 & Hc1 & Hs1).
  simpl. rewrite slice_last_app in He, Hs1.
  destruct (IH w1 _ He Hb1 Hc1 Hs1) as (w' & -> & Hb' & Hs').
  exists w'. split; [done|]. split; [done|].
  by rewrite Hs', <- app_assoc.
Qed.

Lemma simple_loaded_is_batch_loaded e st : simple_loaded st = batch_loaded e st.
Proof. done. Qed.



(** ** Clearing the shared item *)

(** X20: [clearLogs] of the simple logger, when the storage can be
    reached, completes, empties the log and removes the shared item and no
    other; as the batching logger keeps its log under the same key, a
    later page load of either logger starts from an empty log. *)
Theorem clearLogs_empties_the_shared_item e w :
  blocked (Simple.localStorage w) = false ->
  exists w',
    Simple.clearLogs w = (w', Ok JUndefined) /\
    Simple.logs w' = JArr [] /\
    items (Simple.localStorage w') !! Simple.STORAGE_KEY = None /\
    (forall key, key <> Simple.STORAGE_KEY ->
       items (Simple.localStorage w') !! key = items (Simple.localStorage w) !! key) /\
    simple_loaded (Simple.localStorage w') = JArr [] /\
    batch_loaded e (Simple.localStorage w') = JArr [].
Proof.
intros Hb. unfold Simple.clearLogs, removeItem. simpl. rewrite Hb.
eexists. split; [reflexivity|]. simpl.
split; [done|]. split; [apply lookup_delete_eq|]. split.
- intros key Hkey. by apply lookup_delete_ne.
- rewrite (simple_loaded_is_batch_loaded e).
  split; apply load_absent_is_empty; simpl; apply lookup_delete_eq.
Qed.

Lemma clearLogs_witness :
  exists w',
    Simple.clearLogs simple_busy_world = (w', Ok JUndefined) /\
    batch_loaded sample_env (Simple.localStorage w') = JArr [].
Proof.
destruct (clearLogs_empties_the_shared_item sample_env simple_busy_world eq_refl)
  as (w' & Hc & _ & _ & _ & _ & Hl).
by exists w'.
Defined.
